(** * Incore J/K contraction kernels of [lib/vhf/nr_incore_o0.c]

    A shallow embedding of the pair kernels and of the five incore drivers,
    over exact arithmetic: a [double] is a scalar of the ring [Z], a
    [double *] is a total map from offsets to scalars, an [int] or [size_t]
    index is a natural number (the drivers are only run on sizes for which
    the C index arithmetic does not overflow). *)

From Stdlib Require Import ZArith Arith List Lia Bool Permutation.
From Stdlib Require Import Uint63 PrimFloat FloatOps SpecFloat FloatAxioms.
From Stdlib Require Import Reals Lra.

Set Warnings "-inexact-float,-abstract-large-number".
Import ListNotations.

Local Open Scope Z_scope.

(** ** Buffers *)

(** A [double *]: offset from the pointer to the value stored there. *)
Definition buf := nat -> Z.

(** A freshly cleared block (what [malloc] followed by [memset(p, 0, ...)]
    hands to a worker). *)
Definition zeros : buf := fun _ => 0.

(** [p + off] on pointers. *)
Definition shift (p : buf) (off : nat) : buf := fun i => p (off + i)%nat.

(** [v[a] += x]. *)
Definition add_at (v : buf) (a : nat) (x : Z) : buf :=
  fun b => if Nat.eqb b a then v b + x else v b.

(** A straight-line block of statements [v[a1] += x1; ...; v[am] += xm;]. *)
Definition adds (l : list (nat * Z)) (v : buf) : buf :=
  fold_left (fun w ax => add_at w (fst ax) (snd ax)) l v.

(** [memset(v, 0, sizeof(double)*len)]. *)
Definition memset0 (v : buf) (len : nat) : buf :=
  fun a => if Nat.ltb a len then 0 else v a.

(** ** Commands

    A kernel body runs on a running offset (the [ij]/[kl] counter, or the
    amount by which the [eri] pointer has been bumped) and the accumulator. *)
Definition st := (nat * buf)%type.
Definition cmd := st -> st.

(** A block of [+=] statements whose operands may read the running offset. *)
Definition upd (f : nat -> list (nat * Z)) : cmd :=
  fun s => (fst s, adds (f (fst s)) (snd s)).

(** [kl += m] (also [eri += m]). *)
Definition inc (m : nat) : cmd := fun s => ((fst s + m)%nat, snd s).

(** [kl = m]. *)
Definition setc (m : nat) : cmd := fun s => (m, snd s).

Definition skip : cmd := fun s => s.

Definition seqc (F G : cmd) : cmd := fun s => G (F s).
Notation "F ;; G" := (seqc F G) (at level 61, left associativity).

(** [for (k = lo; k < hi; k++) body(k)]. *)
Definition for_ (lo hi : nat) (body : nat -> cmd) : cmd :=
  fun s => fold_left (fun s k => body k s) (seq lo (hi - lo)) s.

(** [for (k = k0; k < hi; k += step) body(k)], returning the final value of
    [k] as well; [fuel] bounds the number of iterations. *)
Fixpoint for_by (fuel step hi k : nat) (body : nat -> cmd) (s : st) : nat * st :=
  match fuel with
  | O => (k, s)
  | S fuel' =>
      if Nat.ltb k hi then for_by fuel' step hi (k + step)%nat body (body k s)
      else (k, s)
  end.

(** Run a kernel body on accumulator [v], counter starting at 0. *)
Definition run (F : cmd) (v : buf) : buf := snd (F (0%nat, v)).

(** [p.[a]] reads the [double] at offset [a]; [a +=> x] is the statement
    that adds [x] to the accumulator cell at offset [a]. *)
Notation "p .[ a ]" := (p (a)%nat) (at level 1, a at level 200, left associativity, only parsing).
Definition addto (a : nat) (x : Z) : nat * Z := (a, x).
Notation "a +=> x" := (addto a x) (at level 70, no associativity).

Definition kernel := buf -> buf -> buf -> nat -> nat -> nat -> buf.

(** ** J kernels *)

Definition nrs8_ij_s2kl_loops (eri dm : buf) (nao ic jc : nat) (dm_ij : Z) : cmd :=
  for_ 0 ic (fun i =>
    for_ 0 i (fun j =>
      upd (fun ij => [ ic*nao+jc +=> eri ij * (dm.[i*nao+j] + dm.[j*nao+i]);
                       i*nao+j +=> eri ij * dm_ij ]) ;;
      inc 1) ;;
    upd (fun ij => [ ic*nao+jc +=> eri ij * dm.[i*nao+i];
                     i*nao+i +=> eri ij * dm_ij ]) ;;
    inc 1) ;;
  (* i == ic *)
  for_ 0 jc (fun j =>
    upd (fun ij => [ ic*nao+jc +=> eri ij * (dm.[ic*nao+j] + dm.[j*nao+ic]);
                     ic*nao+j +=> eri ij * dm_ij ]) ;;
    inc 1) ;;
  upd (fun ij => [ ic*nao+jc +=> eri ij * dm_ij ]).

Definition CVHFnrs8_ij_s2kl_o0 (eri dm vj : buf) (nao ic jc : nat) : buf :=
  match (if (jc <? ic)%nat then Some (dm.[ic*nao+jc] + dm.[jc*nao+ic])
         else if (ic =? jc)%nat then Some dm.[ic*nao+ic]
         else None) with
  | Some dm_ij => run (nrs8_ij_s2kl_loops eri dm nao ic jc dm_ij) vj
  | None => vj
  end.

Definition CVHFnrs4_ij_s2kl_o0 (eri dm vj : buf) (nao ic jc : nat) : buf :=
  match (if (jc <? ic)%nat then Some (dm.[ic*nao+jc] + dm.[jc*nao+ic])
         else if (ic =? jc)%nat then Some dm.[ic*nao+ic]
         else None) with
  | Some dm_ij =>
      run (for_ 0 nao (fun i =>
             for_ 0 (i+1) (fun j =>
               upd (fun ij => [ i*nao+j +=> eri ij * dm_ij ]) ;; inc 1))) vj
  | None => vj
  end.

Definition CVHFnrs2kl_kl_s1ij_o0 (eri dm vj : buf) (nao ic jc : nat) : buf :=
  run (for_ 0 nao (fun i =>
         for_ 0 i (fun j =>
           upd (fun ij => [ ic*nao+jc +=> eri ij * (dm.[i*nao+j] + dm.[j*nao+i]) ]) ;;
           inc 1) ;;
         upd (fun ij => [ ic*nao+jc +=> eri ij * dm.[i*nao+i] ]) ;;
         inc 1)) vj.

(** ** K kernels *)

Definition CVHFnrs8_jk_s1il_o0 (eri dm vk : buf) (nao ic jc : nat) : buf :=
  if (jc <? ic)%nat then
    run (for_ 0 ic (fun k =>
           for_ 0 k (fun l =>
             upd (fun kl => [ jc*nao+l +=> eri kl * dm.[ic*nao+k];
                              ic*nao+l +=> eri kl * dm.[jc*nao+k];
                              jc*nao+k +=> eri kl * dm.[ic*nao+l];
                              ic*nao+k +=> eri kl * dm.[jc*nao+l];
                              l*nao+jc +=> eri kl * dm.[k*nao+ic];
                              k*nao+jc +=> eri kl * dm.[l*nao+ic];
                              l*nao+ic +=> eri kl * dm.[k*nao+jc];
                              k*nao+ic +=> eri kl * dm.[l*nao+jc] ]) ;;
             inc 1) ;;
           upd (fun kl => [ jc*nao+k +=> eri kl * dm.[ic*nao+k];
                            ic*nao+k +=> eri kl * dm.[jc*nao+k];
                            k*nao+jc +=> eri kl * dm.[k*nao+ic];
                            k*nao+ic +=> eri kl * dm.[k*nao+jc] ]) ;;
           inc 1) ;;
         (* k = ic *)
         for_ 0 jc (fun l =>
           upd (fun kl => [ jc*nao+l +=> eri kl * dm.[ic*nao+ic];
                            ic*nao+l +=> eri kl * dm.[jc*nao+ic];
                            jc*nao+ic +=> eri kl * dm.[ic*nao+l];
                            ic*nao+ic +=> eri kl * dm.[jc*nao+l];
                            l*nao+jc +=> eri kl * dm.[ic*nao+ic];
                            ic*nao+jc +=> eri kl * dm.[l*nao+ic];
                            l*nao+ic +=> eri kl * dm.[ic*nao+jc];
                            ic*nao+ic +=> eri kl * dm.[l*nao+jc] ]) ;;
           inc 1) ;;
         (* ic = k, jc = l *)
         upd (fun kl => [ jc*nao+jc +=> eri kl * dm.[ic*nao+ic];
                          ic*nao+jc +=> eri kl * dm.[jc*nao+ic];
                          jc*nao+ic +=> eri kl * dm.[ic*nao+jc];
                          ic*nao+ic +=> eri kl * dm.[jc*nao+jc] ])) vk
  else if (ic =? jc)%nat then
    run (for_ 0 ic (fun k =>
           for_ 0 k (fun l =>
             upd (fun kl => [ ic*nao+l +=> eri kl * dm.[ic*nao+k];
                              ic*nao+k +=> eri kl * dm.[ic*nao+l];
                              l*nao+ic +=> eri kl * dm.[k*nao+ic];
                              k*nao+ic +=> eri kl * dm.[l*nao+ic] ]) ;;
             inc 1) ;;
           upd (fun kl => [ ic*nao+k +=> eri kl * dm.[ic*nao+k];
                            k*nao+ic +=> eri kl * dm.[k*nao+ic] ]) ;;
           inc 1) ;;
         (* k = ic *)
         for_ 0 ic (fun l =>
           upd (fun kl => [ ic*nao+l +=> eri kl * dm.[ic*nao+ic];
                            ic*nao+ic +=> eri kl * dm.[ic*nao+l];
                            l*nao+ic +=> eri kl * dm.[ic*nao+ic];
                            ic*nao+ic +=> eri kl * dm.[l*nao+ic] ]) ;;
           inc 1) ;;
         (* ic = jc = k = l *)
         upd (fun kl => [ ic*nao+ic +=> eri kl * dm.[ic*nao+ic] ])) vk
  else vk.

(** In [CVHFnrs8_jk_s2il_o0] the running offset is the amount by which the
    [eri] pointer has been advanced: [eri[l]] reads [eri (off + l)]. *)
Definition CVHFnrs8_jk_s2il_o0 (eri dm vk : buf) (nao ic jc : nat) : buf :=
  if (jc <? ic)%nat then
    run ((* k < jc *)
         for_ 0 jc (fun k =>
           for_ 0 k (fun l =>
             upd (fun off => [ jc*nao+l +=> eri.[off+l] * dm.[ic*nao+k];
                               jc*nao+k +=> eri.[off+l] * dm.[ic*nao+l];
                               ic*nao+l +=> eri.[off+l] * dm.[jc*nao+k];
                               ic*nao+k +=> eri.[off+l] * dm.[jc*nao+l] ])) ;;
           (* l = k *)
           upd (fun off => [ jc*nao+k +=> eri.[off+k] * dm.[ic*nao+k];
                             ic*nao+k +=> eri.[off+k] * dm.[jc*nao+k] ]) ;;
           inc (k+1)) ;;
         (* k = jc *)
         for_ 0 jc (fun l =>
           upd (fun off => [ jc*nao+l +=> eri.[off+l] * dm.[ic*nao+jc];
                             jc*nao+jc +=> eri.[off+l] * (dm.[ic*nao+l] + dm.[l*nao+ic]);
                             ic*nao+l +=> eri.[off+l] * dm.[jc*nao+jc];
                             ic*nao+jc +=> eri.[off+l] * dm.[jc*nao+l] ])) ;;
         (* l = k = jc *)
         upd (fun off => [ jc*nao+jc +=> eri.[off+jc] * (dm.[ic*nao+jc] + dm.[jc*nao+ic]);
                           ic*nao+jc +=> eri.[off+jc] * dm.[jc*nao+jc] ]) ;;
         inc (jc+1) ;;
         (* k > jc *)
         for_ (jc+1) ic (fun k =>
           (* l < jc *)
           for_ 0 jc (fun l =>
             upd (fun off => [ jc*nao+l +=> eri.[off+l] * dm.[ic*nao+k];
                               ic*nao+l +=> eri.[off+l] * dm.[jc*nao+k];
                               ic*nao+k +=> eri.[off+l] * dm.[jc*nao+l];
                               k*nao+jc +=> eri.[off+l] * dm.[l*nao+ic] ])) ;;
           (* l = jc *)
           upd (fun off => [ jc*nao+jc +=> eri.[off+jc] * (dm.[ic*nao+k] + dm.[k*nao+ic]);
                             ic*nao+jc +=> eri.[off+jc] * dm.[jc*nao+k];
                             ic*nao+k +=> eri.[off+jc] * dm.[jc*nao+jc];
                             k*nao+jc +=> eri.[off+jc] * dm.[jc*nao+ic] ]) ;;
           (* l > jc *)
           for_ (jc+1) k (fun l =>
             upd (fun off => [ ic*nao+l +=> eri.[off+l] * dm.[jc*nao+k];
                               ic*nao+k +=> eri.[off+l] * dm.[jc*nao+l];
                               l*nao+jc +=> eri.[off+l] * dm.[k*nao+ic];
                               k*nao+jc +=> eri.[off+l] * dm.[l*nao+ic] ])) ;;
           (* l = k *)
           upd (fun off => [ jc*nao+k +=> eri.[off+k] * dm.[ic*nao+k];
                             ic*nao+k +=> eri.[off+k] * dm.[jc*nao+k];
                             k*nao+jc +=> eri.[off+k] * dm.[k*nao+ic] ]) ;;
           inc (k+1)) ;;
         (* k = ic *)
         for_ 0 jc (fun l =>
           upd (fun off => [ jc*nao+l +=> eri.[off+l] * dm.[ic*nao+ic];
                             ic*nao+l +=> eri.[off+l] * dm.[jc*nao+ic];
                             ic*nao+ic +=> eri.[off+l] * (dm.[jc*nao+l] + dm.[l*nao+jc]);
                             ic*nao+jc +=> eri.[off+l] * dm.[l*nao+ic] ])) ;;
         (* ic = k, jc = l *)
         upd (fun off => [ jc*nao+jc +=> eri.[off+jc] * dm.[ic*nao+ic];
                           ic*nao+jc +=> eri.[off+jc] * dm.[jc*nao+ic];
                           ic*nao+ic +=> eri.[off+jc] * dm.[jc*nao+jc] ]) ;;
         inc (jc+1)) vk
  else if (ic =? jc)%nat then
    (* for (k = 0; k < ic-1; k+=2); for ic = 0 the C bound is -1 and the
       bound here is 0: no iteration either way *)
    let '(k, s) :=
      for_by ic 2 (ic-1) 0 (fun k =>
        for_ 0 k (fun l =>
          upd (fun off => [ ic*nao+l +=> eri.[off+l] * dm.[ic*nao+k];
                            ic*nao+k +=> eri.[off+l] * dm.[ic*nao+l];
                            ic*nao+l +=> eri.[off+(l+k+1)] * dm.[ic*nao+k+1];
                            ic*nao+k+1 +=> eri.[off+(l+k+1)] * dm.[ic*nao+l] ])) ;;
        upd (fun off => [ ic*nao+k +=> eri.[off+k] * dm.[ic*nao+k] ]) ;;
        inc (k+1) ;;
        upd (fun off => [ ic*nao+k +=> eri.[off+k] * dm.[ic*nao+k+1];
                          ic*nao+k+1 +=> eri.[off+k] * dm.[ic*nao+k];
                          ic*nao+k+1 +=> eri.[off+(k+1)] * dm.[ic*nao+k+1] ]) ;;
        inc (k+2)) (0%nat, vk) in
    (* for (; k < ic; k++) *)
    let s :=
      for_ k ic (fun k =>
        for_ 0 k (fun l =>
          upd (fun off => [ ic*nao+l +=> eri.[off+l] * dm.[ic*nao+k];
                            ic*nao+k +=> eri.[off+l] * dm.[ic*nao+l] ])) ;;
        upd (fun off => [ ic*nao+k +=> eri.[off+k] * dm.[ic*nao+k] ]) ;;
        inc (k+1)) s in
    let k := Nat.max k ic in
    snd ((for_ 0 k (fun l =>  (* l<k *)
            upd (fun off => [ ic*nao+l +=> eri.[off+l] * dm.[ic*nao+ic];
                              ic*nao+ic +=> eri.[off+l] * (dm.[ic*nao+l] + dm.[l*nao+ic]) ])) ;;
          (* ic = jc = k = l *)
          upd (fun off => [ ic*nao+ic +=> eri.[off+k] * dm.[ic*nao+ic] ]) ;;
          inc (k+1)) s)
  else vk.

Definition CVHFnrs4_jk_s1il_o0 (eri dm vk : buf) (nao ic jc : nat) : buf :=
  if (jc <? ic)%nat then
    run (for_ 0 nao (fun k =>
           for_ 0 k (fun l =>
             upd (fun kl => [ jc*nao+l +=> eri kl * dm.[ic*nao+k];
                              jc*nao+k +=> eri kl * dm.[ic*nao+l];
                              ic*nao+l +=> eri kl * dm.[jc*nao+k];
                              ic*nao+k +=> eri kl * dm.[jc*nao+l] ]) ;;
             inc 1) ;;
           upd (fun kl => [ jc*nao+k +=> eri kl * dm.[ic*nao+k];
                            ic*nao+k +=> eri kl * dm.[jc*nao+k] ]) ;;
           inc 1)) vk
  else if (ic =? jc)%nat then
    run (for_ 0 nao (fun k =>
           for_ 0 k (fun l =>
             upd (fun kl => [ ic*nao+l +=> eri kl * dm.[ic*nao+k];
                              ic*nao+k +=> eri kl * dm.[ic*nao+l] ]) ;;
             inc 1) ;;
           upd (fun kl => [ ic*nao+k +=> eri kl * dm.[ic*nao+k] ]) ;;
           inc 1)) vk
  else vk.

Definition CVHFnrs4_il_s1jk_o0 (eri dm vk : buf) (nao ic jc : nat) : buf :=
  CVHFnrs4_jk_s1il_o0 eri dm vk nao ic jc.

Definition CVHFnrs4_jk_s2il_o0 (eri dm vk : buf) (nao ic jc : nat) : buf :=
  if (jc <? ic)%nat then
    run (for_ 0 (jc+1) (fun k =>
           for_ 0 k (fun l =>
             upd (fun kl => [ jc*nao+l +=> eri kl * dm.[ic*nao+k];
                              jc*nao+k +=> eri kl * dm.[ic*nao+l];
                              ic*nao+l +=> eri kl * dm.[jc*nao+k];
                              ic*nao+k +=> eri kl * dm.[jc*nao+l] ]) ;;
             inc 1) ;;
           upd (fun kl => [ jc*nao+k +=> eri kl * dm.[ic*nao+k];
                            ic*nao+k +=> eri kl * dm.[jc*nao+k] ]) ;;
           inc 1) ;;
         for_ (jc+1) (ic+1) (fun k =>
           for_ 0 (jc+1) (fun l =>
             upd (fun kl => [ jc*nao+l +=> eri kl * dm.[ic*nao+k];
                              ic*nao+l +=> eri kl * dm.[jc*nao+k];
                              ic*nao+k +=> eri kl * dm.[jc*nao+l] ]) ;;
             inc 1) ;;
           for_ (jc+1) k (fun l =>
             upd (fun kl => [ ic*nao+l +=> eri kl * dm.[jc*nao+k];
                              ic*nao+k +=> eri kl * dm.[jc*nao+l] ]) ;;
             inc 1) ;;
           upd (fun kl => [ ic*nao+k +=> eri kl * dm.[jc*nao+k] ]) ;;
           inc 1) ;;
         for_ (ic+1) nao (fun k =>
           setc (k*(k+1)/2) ;;
           for_ 0 (jc+1) (fun l =>
             upd (fun kl => [ jc*nao+l +=> eri kl * dm.[ic*nao+k];
                              ic*nao+l +=> eri kl * dm.[jc*nao+k] ]) ;;
             inc 1) ;;
           for_ (jc+1) (ic+1) (fun l =>
             upd (fun kl => [ ic*nao+l +=> eri kl * dm.[jc*nao+k] ]) ;;
             inc 1))) vk
  else if (ic =? jc)%nat then
    run (for_ 0 (ic+1) (fun k =>
           for_ 0 k (fun l =>
             upd (fun kl => [ ic*nao+l +=> eri kl * dm.[ic*nao+k];
                              ic*nao+k +=> eri kl * dm.[ic*nao+l] ]) ;;
             inc 1) ;;
           upd (fun kl => [ ic*nao+k +=> eri kl * dm.[ic*nao+k] ]) ;;
           inc 1) ;;
         for_ (ic+1) nao (fun k =>
           setc (k*(k+1)/2) ;;
           for_ 0 (ic+1) (fun l =>
             upd (fun kl => [ ic*nao+l +=> eri kl * dm.[ic*nao+k] ]) ;;
             inc 1))) vk
  else vk.

Definition CVHFnrs4_il_s2jk_o0 (eri dm vk : buf) (nao ic jc : nat) : buf :=
  CVHFnrs4_jk_s2il_o0 eri dm vk nao ic jc.

(** ** Exported kernels *)

Definition CVHFnrs8_ij_s2kl (eri dm vj : buf) (nao ic jc : nat) : buf :=
  CVHFnrs8_ij_s2kl_o0 eri dm vj nao ic jc.

Definition CVHFnrs8_tridm_vj (eri tri_dm vj : buf) (nao ic jc : nat) : buf :=
  let dm_ijc := tri_dm.[ic*(ic+1)/2+jc] in
  run (for_ 0 ic (fun i =>
         for_ 0 (i+1) (fun j =>
           upd (fun ij => [ ic*nao+jc +=> eri ij * tri_dm ij;
                            i*nao+j +=> eri ij * dm_ijc ]) ;;
           inc 1)) ;;
       (* i == ic *)
       for_ 0 jc (fun j =>
         upd (fun ij => [ ic*nao+jc +=> eri ij * tri_dm ij;
                          ic*nao+j +=> eri ij * dm_ijc ]) ;;
         inc 1) ;;
       upd (fun ij => [ ic*nao+jc +=> eri ij * dm_ijc ])) vj.

Definition CVHFnrs8_jk_s1il (eri dm vk : buf) (nao ic jc : nat) : buf :=
  CVHFnrs8_jk_s1il_o0 eri dm vk nao ic jc.

Definition CVHFnrs8_jk_s2il (eri dm vk : buf) (nao ic jc : nat) : buf :=
  CVHFnrs8_jk_s2il_o0 eri dm vk nao ic jc.

Definition CVHFnrs4_jk_s1il (eri dm vk : buf) (nao ic jc : nat) : buf :=
  CVHFnrs4_jk_s1il_o0 eri dm vk nao ic jc.

Definition CVHFnrs4_il_s1jk (eri dm vk : buf) (nao ic jc : nat) : buf :=
  CVHFnrs4_jk_s1il_o0 eri dm vk nao ic jc.

Definition CVHFnrs4_jk_s2il (eri dm vk : buf) (nao ic jc : nat) : buf :=
  CVHFnrs4_jk_s2il_o0 eri dm vk nao ic jc.

Definition CVHFnrs4_il_s2jk (eri dm vk : buf) (nao ic jc : nat) : buf :=
  CVHFnrs4_jk_s2il_o0 eri dm vk nao ic jc.

Definition CVHFnrs4_ij_s2kl (eri dm vj : buf) (nao ic jc : nat) : buf :=
  CVHFnrs4_ij_s2kl_o0 eri dm vj nao ic jc.

Definition CVHFnrs4_kl_s2ij (eri dm vj : buf) (nao ic jc : nat) : buf :=
  if (jc <=? ic)%nat then CVHFnrs2kl_kl_s1ij_o0 eri dm vj nao ic jc else vj.

Definition CVHFnrs1_ij_s1kl (eri dm vj : buf) (nao ic jc : nat) : buf :=
  let dm_ij := dm.[ic*nao+jc] in
  run (for_ 0 (nao*nao) (fun i => upd (fun _ => [ i +=> eri i * dm_ij ]))) vj.

(** Modelled from the spec: the BLAS routine [ddot_], declared in the absent
    header [fblas.h] and implemented outside this repository.  For the
    [s1] class the spec has the inner contraction run over all [n*n]
    explicit entries, so [ddot_(&n, dx, &incx, dy, &incy)] is the dot
    product [dx[0]*dy[0] + dx[incx]*dy[incy] + ...] of [n] terms, added
    left to right. *)
Definition ddot_ (n : nat) (dx : buf) (incx : nat) (dy : buf) (incy : nat) : Z :=
  fold_left (fun acc i => acc + dx.[i*incx] * dy.[i*incy]) (seq 0 n) 0.

Definition CVHFnrs1_kl_s1ij (eri dm vj : buf) (nao ic jc : nat) : buf :=
  let INC1 := 1%nat in
  let nn := (nao * nao)%nat in
  run (upd (fun _ => [ ic*nao+jc +=> ddot_ nn eri INC1 dm INC1 ])) vj.

Definition CVHFnrs1_jk_s1il (eri dm vk : buf) (nao ic jc : nat) : buf :=
  run (for_ 0 nao (fun k =>
         for_ 0 nao (fun l =>
           upd (fun kl => [ ic*nao+l +=> eri kl * dm.[jc*nao+k] ]) ;; inc 1))) vk.

Definition CVHFnrs1_il_s1jk (eri dm vk : buf) (nao ic jc : nat) : buf :=
  run (for_ 0 nao (fun k =>
         for_ 0 nao (fun l =>
           upd (fun kl => [ jc*nao+k +=> eri kl * dm.[ic*nao+l] ]) ;; inc 1))) vk.

Definition CVHFnrs2ij_ij_s1kl (eri dm vj : buf) (nao ic jc : nat) : buf :=
  match (if (jc <? ic)%nat then Some (dm.[ic*nao+jc] + dm.[jc*nao+ic])
         else if (ic =? jc)%nat then Some dm.[ic*nao+ic]
         else None) with
  | Some dm_ij =>
      run (for_ 0 (nao*nao) (fun i => upd (fun _ => [ i +=> eri i * dm_ij ]))) vj
  | None => vj
  end.

Definition CVHFnrs2ij_kl_s2ij (eri dm vj : buf) (nao ic jc : nat) : buf :=
  if (ic <? jc)%nat then vj else CVHFnrs1_kl_s1ij eri dm vj nao ic jc.

Definition CVHFnrs2ij_jk_s1il (eri dm vk : buf) (nao ic jc : nat) : buf :=
  if (jc <? ic)%nat then
    run (for_ 0 nao (fun k =>
           for_ 0 nao (fun l =>
             upd (fun kl => [ jc*nao+l +=> eri kl * dm.[ic*nao+k];
                              ic*nao+l +=> eri kl * dm.[jc*nao+k] ]) ;; inc 1))) vk
  else if (ic =? jc)%nat then
    run (for_ 0 nao (fun k =>
           for_ 0 nao (fun l =>
             upd (fun kl => [ ic*nao+l +=> eri kl * dm.[ic*nao+k] ]) ;; inc 1))) vk
  else vk.

Definition CVHFnrs2ij_il_s1jk (eri dm vk : buf) (nao ic jc : nat) : buf :=
  if (jc <? ic)%nat then
    run (for_ 0 nao (fun k =>
           for_ 0 nao (fun l =>
             upd (fun kl => [ jc*nao+k +=> eri kl * dm.[ic*nao+l];
                              ic*nao+k +=> eri kl * dm.[jc*nao+l] ]) ;; inc 1))) vk
  else if (ic =? jc)%nat then
    run (for_ 0 nao (fun k =>
           for_ 0 nao (fun l =>
             upd (fun kl => [ ic*nao+k +=> eri kl * dm.[ic*nao+l] ]) ;; inc 1))) vk
  else vk.

Definition CVHFnrs2kl_ij_s2kl (eri dm vj : buf) (nao ic jc : nat) : buf :=
  let dm_ij := dm.[ic*nao+jc] in
  run (for_ 0 nao (fun i =>
         for_ 0 (i+1) (fun j =>
           upd (fun ij => [ i*nao+j +=> eri ij * dm_ij ]) ;; inc 1))) vj.

Definition CVHFnrs2kl_kl_s1ij (eri dm vj : buf) (nao ic jc : nat) : buf :=
  CVHFnrs2kl_kl_s1ij_o0 eri dm vj nao ic jc.

Definition CVHFnrs2kl_jk_s1il (eri dm vk : buf) (nao ic jc : nat) : buf :=
  run (for_ 0 nao (fun k =>
         for_ 0 k (fun l =>
           upd (fun kl => [ ic*nao+l +=> eri kl * dm.[jc*nao+k];
                            ic*nao+k +=> eri kl * dm.[jc*nao+l] ]) ;;
           inc 1) ;;
         upd (fun kl => [ ic*nao+k +=> eri kl * dm.[jc*nao+k] ]) ;;
         inc 1)) vk.

Definition CVHFnrs2kl_il_s1jk (eri dm vk : buf) (nao ic jc : nat) : buf :=
  run (for_ 0 nao (fun k =>
         for_ 0 k (fun l =>
           upd (fun kl => [ jc*nao+l +=> eri kl * dm.[ic*nao+k];
                            jc*nao+k +=> eri kl * dm.[ic*nao+l] ]) ;;
           inc 1) ;;
         upd (fun kl => [ jc*nao+k +=> eri kl * dm.[ic*nao+k] ]) ;;
         inc 1)) vk.

(** ** Drivers *)

(** [i = (int)(sqrt(2*ij+.25) - .5 + 1e-7)] over exact reals.  With
    [M = 2/1e-7 = 20000000], [M * (sqrt(2*ij + 1/4) - 1/2 + 1e-7)] is
    [sqrt(2*ij*M*M + M*M/4) - M/2 + 2]; the integer part of a quotient by
    the positive integer [M] is unchanged when the numerator is first
    rounded down, and the numerator rounded down is
    [Z.sqrt (2*ij*M*M + M*M/4) - M/2 + 2].  The value is positive, so the
    cast to [int] is the floor ([tril_row_real] below proves that this is
    the integer part of the real expression).  The binary64 evaluation
    [tril_row_f64] gives the same row on every size up to [2^23 - 1]
    ([tril_row_f64_exact]), which includes every size whose [n*(n+1)]
    fits the [int] of [npair]; it does not on all larger sizes
    ([tril_row_f64_limit]).  The drivers then compute
    [j = ij - i*(i+1)/2]. *)
Definition tril_row (ij : nat) : nat :=
  let M := 20000000 in
  Z.to_nat ((Z.sqrt (2 * Z.of_nat ij * M * M + M * M / 4) - M / 2 + 2) / M).

(** The same expression in binary64 arithmetic, as the compiled driver
    evaluates it: [2*ij] is computed in [size_t] and converted to
    [double], [.25], [.5] and [1e-7] are the nearest doubles, every
    operation rounds to nearest, and the cast to [int] drops the
    fraction. *)
Definition trunc_f64 (x : float) : Z :=
  match Prim2SF x with
  | S754_finite s m e =>
      let a := Z.shiftl (Z.pos m) e in
      if s then - a else a
  | _ => 0
  end.

Definition tril_row_f64 (ij : Z) : Z :=
  let x := PrimFloat.of_uint63 (Uint63.of_Z (2 * ij)) in
  trunc_f64 (PrimFloat.add
               (PrimFloat.sub (PrimFloat.sqrt (PrimFloat.add x 0.25%float)) 0.5%float)
               1e-7%float).

(** The value of an [int] expression: the integer result reduced to 32
    bits in two's complement, which is what the compiled code computes and
    what a conversion to [int] gives. *)
Definition int_wrap (z : Z) : Z := (z + 2147483648) mod 4294967296 - 2147483648.

(** Lines 620 and 621 as the machine evaluates them: [i] is the integer
    part of the binary64 evaluation, the value of the cast to [int]
    whenever it fits one; in [j = ij - i*(i+1)/2] the product and the
    division by two are [int] operations, the quotient is converted to the
    [size_t] of [ij], the subtraction is one of [size_t], and the
    difference is converted to the [int] [j]. *)
Definition tril_unfold (ij : Z) : Z * Z :=
  let i := tril_row_f64 ij in
  let j := int_wrap ((ij - Z.quot (int_wrap (i * int_wrap (i + 1))) 2) mod 2 ^ 64) in
  (i, j).

(** Exhaustive check of the binary64 unfolding: [row_ok cols i idx] checks
    the [cols] compound indices from [idx] on against row [i];
    [rows_ok rows i idx] checks [rows] full rows, row [i] starting at
    compound index [idx]. *)
Fixpoint row_ok (cols : nat) (i idx : Z) : bool :=
  match cols with
  | O => true
  | S c => Z.eqb (tril_row_f64 idx) i && row_ok c i (idx + 1)
  end.

Fixpoint rows_ok (rows : nat) (i idx : Z) : bool :=
  match rows with
  | O => true
  | S r => row_ok (Z.to_nat (i + 1)) i idx && rows_ok r (i + 1) (idx + i + 1)
  end.

(** The pair of private accumulators of a worker. *)
Definition accs := (buf * buf)%type.

(** Loop bodies of the [omp for] of the five drivers. *)
Definition nrs8_iter (eri dmj dmk : buf) (n : nat) (fvj fvk : kernel)
    (ij : nat) (priv : accs) : accs :=
  let i := tril_row ij in
  let j := (ij - i*(i+1)/2)%nat in
  let off := (ij*(ij+1)/2)%nat in
  (fvj (shift eri off) dmj (fst priv) n i j,
   fvk (shift eri off) dmk (snd priv) n i j).

Definition nrs4_iter (eri dmj dmk : buf) (n : nat) (fvj fvk : kernel)
    (ij : nat) (priv : accs) : accs :=
  let npair := (n*(n+1)/2)%nat in
  let i := tril_row ij in
  let j := (ij - i*(i+1)/2)%nat in
  let off := (ij * npair)%nat in
  (fvj (shift eri off) dmj (fst priv) n i j,
   fvk (shift eri off) dmk (snd priv) n i j).

Definition nrs2ij_iter (eri dmj dmk : buf) (n : nat) (fvj fvk : kernel)
    (ij : nat) (priv : accs) : accs :=
  let i := tril_row ij in
  let j := (ij - i*(i+1)/2)%nat in
  let off := (ij * n * n)%nat in
  (fvj (shift eri off) dmj (fst priv) n i j,
   fvk (shift eri off) dmk (snd priv) n i j).

Definition nrs2kl_iter (eri dmj dmk : buf) (n : nat) (fvj fvk : kernel)
    (ij : nat) (priv : accs) : accs :=
  let npair := (n*(n+1)/2)%nat in
  let i := (ij / n)%nat in
  let j := (ij - i * n)%nat in
  let off := (ij * npair)%nat in
  (fvj (shift eri off) dmj (fst priv) n i j,
   fvk (shift eri off) dmk (snd priv) n i j).

Definition nrs1_iter (eri dmj dmk : buf) (n : nat) (fvj fvk : kernel)
    (ij : nat) (priv : accs) : accs :=
  let i := (ij / n)%nat in
  let j := (ij - i * n)%nat in
  let off := (ij * n * n)%nat in
  (fvj (shift eri off) dmj (fst priv) n i j,
   fvk (shift eri off) dmk (snd priv) n i j).

(** One worker of the parallel region: private accumulators cleared, then
    the iterations handed to it, in the order it receives them. *)
Definition worker (iter : nat -> accs -> accs) (chunk : list nat) : accs :=
  fold_left (fun priv ij => iter ij priv) chunk (zeros, zeros).

(** The critical section: [for (i = 0; i < n*n; i++) { vj[i] += vj_priv[i];
    vk[i] += vk_priv[i]; }]. *)
Definition merge (n : nat) (shared priv : accs) : accs :=
  fold_left (fun sh i => (add_at (fst sh) i (fst priv i), add_at (snd sh) i (snd priv i)))
            (seq 0 (n*n)) shared.

(** The parallel region under a schedule: [sched] lists, worker by worker
    in the order in which they enter the critical section, the iterations
    each worker ran.  The shared matrices are cleared before the region. *)
Definition omp_parallel (n : nat) (iter : nat -> accs -> accs)
    (sched : list (list nat)) (vj vk : buf) : accs :=
  fold_left (fun shared chunk => merge n shared (worker iter chunk)) sched
            (memset0 vj (n*n), memset0 vk (n*n)).

(** A schedule distributes the iterations [0 .. count-1], each exactly once. *)
Definition schedule_of (count : nat) (sched : list (list nat)) : Prop :=
  Permutation (concat sched) (seq 0 count).

Definition CVHFnrs8_incore_drv_omp (sched : list (list nat))
    (eri dmj vj dmk vk : buf) (n : nat) (fvj fvk : kernel) : accs :=
  omp_parallel n (nrs8_iter eri dmj dmk n fvj fvk) sched vj vk.

Definition CVHFnrs4_incore_drv_omp (sched : list (list nat))
    (eri dmj vj dmk vk : buf) (n : nat) (fvj fvk : kernel) : accs :=
  omp_parallel n (nrs4_iter eri dmj dmk n fvj fvk) sched vj vk.

Definition CVHFnrs2ij_incore_drv_omp (sched : list (list nat))
    (eri dmj vj dmk vk : buf) (n : nat) (fvj fvk : kernel) : accs :=
  omp_parallel n (nrs2ij_iter eri dmj dmk n fvj fvk) sched vj vk.

Definition CVHFnrs2kl_incore_drv_omp (sched : list (list nat))
    (eri dmj vj dmk vk : buf) (n : nat) (fvj fvk : kernel) : accs :=
  omp_parallel n (nrs2kl_iter eri dmj dmk n fvj fvk) sched vj vk.

Definition CVHFnrs1_incore_drv_omp (sched : list (list nat))
    (eri dmj vj dmk vk : buf) (n : nat) (fvj fvk : kernel) : accs :=
  omp_parallel n (nrs1_iter eri dmj dmk n fvj fvk) sched vj vk.

(** The drivers run by a single worker ([omp.h] is not included): one pass
    over the iterations in increasing order.  The result is the pair
    [(vj, vk)] left in the caller's buffers. *)
Definition CVHFnrs8_incore_drv (eri dmj vj dmk vk : buf) (n : nat)
    (fvj fvk : kernel) : accs :=
  let npair := (n*(n+1)/2)%nat in
  CVHFnrs8_incore_drv_omp [seq 0 npair] eri dmj vj dmk vk n fvj fvk.

Definition CVHFnrs4_incore_drv (eri dmj vj dmk vk : buf) (n : nat)
    (fvj fvk : kernel) : accs :=
  let npair := (n*(n+1)/2)%nat in
  CVHFnrs4_incore_drv_omp [seq 0 npair] eri dmj vj dmk vk n fvj fvk.

Definition CVHFnrs2ij_incore_drv (eri dmj vj dmk vk : buf) (n : nat)
    (fvj fvk : kernel) : accs :=
  let npair := (n*(n+1)/2)%nat in
  CVHFnrs2ij_incore_drv_omp [seq 0 npair] eri dmj vj dmk vk n fvj fvk.

Definition CVHFnrs2kl_incore_drv (eri dmj vj dmk vk : buf) (n : nat)
    (fvj fvk : kernel) : accs :=
  CVHFnrs2kl_incore_drv_omp [seq 0 (n*n)] eri dmj vj dmk vk n fvj fvk.

Definition CVHFnrs1_incore_drv (eri dmj vj dmk vk : buf) (n : nat)
    (fvj fvk : kernel) : accs :=
  CVHFnrs1_incore_drv_omp [seq 0 (n*n)] eri dmj vj dmk vk n fvj fvk.

(** The kernels of this file, as the drivers receive them through [fvj] and
    [fvk]. *)
Inductive kernel_name : Set :=
  | nrs8_ij_s2kl_o0 | nrs4_ij_s2kl_o0 | nrs2kl_kl_s1ij_o0
  | nrs8_jk_s1il_o0 | nrs8_jk_s2il_o0
  | nrs4_jk_s1il_o0 | nrs4_il_s1jk_o0 | nrs4_jk_s2il_o0 | nrs4_il_s2jk_o0
  | nrs8_ij_s2kl | nrs8_tridm_vj | nrs8_jk_s1il | nrs8_jk_s2il
  | nrs4_jk_s1il | nrs4_il_s1jk | nrs4_jk_s2il | nrs4_il_s2jk
  | nrs4_ij_s2kl | nrs4_kl_s2ij
  | nrs1_ij_s1kl | nrs1_kl_s1ij | nrs1_jk_s1il | nrs1_il_s1jk
  | nrs2ij_ij_s1kl | nrs2ij_kl_s2ij | nrs2ij_jk_s1il | nrs2ij_il_s1jk
  | nrs2kl_ij_s2kl | nrs2kl_kl_s1ij | nrs2kl_jk_s1il | nrs2kl_il_s1jk.

Definition kernel_fn (k : kernel_name) : kernel :=
  match k with
  | nrs8_ij_s2kl_o0 => CVHFnrs8_ij_s2kl_o0
  | nrs4_ij_s2kl_o0 => CVHFnrs4_ij_s2kl_o0
  | nrs2kl_kl_s1ij_o0 => CVHFnrs2kl_kl_s1ij_o0
  | nrs8_jk_s1il_o0 => CVHFnrs8_jk_s1il_o0
  | nrs8_jk_s2il_o0 => CVHFnrs8_jk_s2il_o0
  | nrs4_jk_s1il_o0 => CVHFnrs4_jk_s1il_o0
  | nrs4_il_s1jk_o0 => CVHFnrs4_il_s1jk_o0
  | nrs4_jk_s2il_o0 => CVHFnrs4_jk_s2il_o0
  | nrs4_il_s2jk_o0 => CVHFnrs4_il_s2jk_o0
  | nrs8_ij_s2kl => CVHFnrs8_ij_s2kl
  | nrs8_tridm_vj => CVHFnrs8_tridm_vj
  | nrs8_jk_s1il => CVHFnrs8_jk_s1il
  | nrs8_jk_s2il => CVHFnrs8_jk_s2il
  | nrs4_jk_s1il => CVHFnrs4_jk_s1il
  | nrs4_il_s1jk => CVHFnrs4_il_s1jk
  | nrs4_jk_s2il => CVHFnrs4_jk_s2il
  | nrs4_il_s2jk => CVHFnrs4_il_s2jk
  | nrs4_ij_s2kl => CVHFnrs4_ij_s2kl
  | nrs4_kl_s2ij => CVHFnrs4_kl_s2ij
  | nrs1_ij_s1kl => CVHFnrs1_ij_s1kl
  | nrs1_kl_s1ij => CVHFnrs1_kl_s1ij
  | nrs1_jk_s1il => CVHFnrs1_jk_s1il
  | nrs1_il_s1jk => CVHFnrs1_il_s1jk
  | nrs2ij_ij_s1kl => CVHFnrs2ij_ij_s1kl
  | nrs2ij_kl_s2ij => CVHFnrs2ij_kl_s2ij
  | nrs2ij_jk_s1il => CVHFnrs2ij_jk_s1il
  | nrs2ij_il_s1jk => CVHFnrs2ij_il_s1jk
  | nrs2kl_ij_s2kl => CVHFnrs2kl_ij_s2kl
  | nrs2kl_kl_s1ij => CVHFnrs2kl_kl_s1ij
  | nrs2kl_jk_s1il => CVHFnrs2kl_jk_s1il
  | nrs2kl_il_s1jk => CVHFnrs2kl_il_s1jk
  end.

(** ** Reference quantities *)

(** [sum_n n f] is [f 0 + ... + f (n-1)]. *)
Fixpoint sum_n (n : nat) (f : nat -> Z) : Z :=
  match n with
  | O => 0
  | S m => sum_n m f + f m
  end.

(** [sum_range lo hi f] is the sum of [f k] for [lo <= k < hi]. *)
Definition sum_range (lo hi : nat) (f : nat -> Z) : Z :=
  sum_n (hi - lo) (fun t => f (lo + t)%nat).

(** A dense four-index tensor. *)
Definition tensor := nat -> nat -> nat -> nat -> Z.

(** The dense brute-force contractions [vj[i,j] = sum_{k,l} T[i,j,k,l]*dm[k,l]]
    and [vk[i,l] = sum_{j,k} T[i,j,k,l]*dm[j,k]] of the spec. *)
Definition dense_vj (n : nat) (T : tensor) (dm : buf) (i j : nat) : Z :=
  sum_n n (fun k => sum_n n (fun l => T i j k l * dm.[k*n+l])).

Definition dense_vk (n : nat) (T : tensor) (dm : buf) (i l : nat) : Z :=
  sum_n n (fun j => sum_n n (fun k => T i j k l * dm.[j*n+k])).

(** Compound index of the pair [(i,j)], [i >= j]. *)
Definition tri (i : nat) : nat := (i * (i + 1) / 2)%nat.

(** The [s8] symmetry of a tensor on the index range [0 .. n-1]. *)
Definition s8_symmetric (n : nat) (T : tensor) : Prop :=
  forall i j k l, (i < n)%nat -> (j < n)%nat -> (k < n)%nat -> (l < n)%nat ->
    T i j k l = T j i k l /\ T i j k l = T i j l k /\ T i j k l = T k l i j.

(** [eri] holds [T] in the compact [s8] layout: entry [(ij, kl)] with
    [i >= j], [k >= l], [ij >= kl] lives at offset [ij*(ij+1)/2 + kl]. *)
Definition stored_s8 (n : nat) (T : tensor) (eri : buf) : Prop :=
  forall i j k l, (j <= i)%nat -> (i < n)%nat -> (l <= k)%nat ->
    (tri k + l <= tri i + j)%nat ->
    eri.[tri (tri i + j) + (tri k + l)] = T i j k l.

(** [eri] holds [T] in the dense [s1] layout: the block of the outer pair
    [(i,j)] starts at offset [(i*n+j)*n*n] and is row-major in [(k,l)]. *)
Definition stored_s1 (n : nat) (T : tensor) (eri : buf) : Prop :=
  forall i j k l, (i < n)%nat -> (j < n)%nat -> (k < n)%nat -> (l < n)%nat ->
    eri.[(i*n+j)*n*n + (k*n+l)] = T i j k l.

(** A row-major [n*n] matrix is symmetric (a real Hermitian [dm]). *)
Definition hermitian (n : nat) (dm : buf) : Prop :=
  forall i j, (i < n)%nat -> (j < n)%nat -> dm.[i*n+j] = dm.[j*n+i].

(** The identity matrix, row-major. *)
Definition identity (n : nat) : buf :=
  fun a => if ((a / n)%nat =? (a mod n)%nat)%nat then 1 else 0.

(** ** Quantities used in the proofs *)

(** Kronecker delta on offsets. *)
Definition delta (a b : nat) : Z := if Nat.eqb a b then 1 else 0.

(** What a block of [+=] statements adds to cell [a]. *)
Definition blk (l : list (nat * Z)) (a : nat) : Z :=
  fold_right (fun ax acc => delta a (fst ax) * snd ax + acc) 0 l.

(** [hasd F c0 c1 d]: started with running offset [c0], the command [F]
    ends with running offset [c1] and has added [d a] to every cell [a]. *)
Definition hasd (F : cmd) (c0 c1 : nat) (d : buf) : Prop :=
  forall v, fst (F (c0, v)) = c1 /\ forall a, snd (F (c0, v)) a = v a + d a.

(** A command that only adds to the accumulator, by amounts and with a
    final offset that do not depend on the accumulator's contents. *)
Definition additive (F : cmd) : Prop :=
  forall c, exists c' d, hasd F c c' d.

(** A kernel accumulates: it adds to [v] what it leaves in a cleared block. *)
Definition accumulating (K : kernel) : Prop :=
  forall eri dm v n ic jc a,
    K eri dm v n ic jc a = v a + K eri dm zeros n ic jc a.

(** Sum of [f] over a list of iterations. *)
Definition lsum (l : list nat) (f : nat -> Z) : Z :=
  fold_right (fun x acc => f x + acc) 0 l.

(** Inverse of the compound index: [tri_dec (tri i + j) = (i, j)] for
    [j <= i]. *)
Fixpoint tri_dec (t : nat) : nat * nat :=
  match t with
  | O => (O, O)
  | S t' => let (i, j) := tri_dec t' in
            if (j <? i)%nat then (i, S j) else (S i, O)
  end.

(** Sum over the pairs [(i,j)] with [j <= i < n]. *)
Definition tsum (n : nat) (g : nat -> nat -> Z) : Z :=
  sum_n n (fun i => sum_n (S i) (fun j => g i j)).

(** Folding a function of a pair onto the pairs with [j <= i]. *)
Definition sym2 (g : nat -> nat -> Z) (i j : nat) : Z :=
  if (j <? i)%nat then g i j + g j i else g i j.

(** Folding a function of four indices onto [i >= j], [k >= l]. *)
Definition sym4 (f : nat -> nat -> nat -> nat -> Z) (i j k l : nat) : Z :=
  sym2 (fun i j => sym2 (fun k l => f i j k l) k l) i j.

(** What the orbit of the stored entries [(ij, kl)], [kl <= ij], of the
    outer pair [(i,j)] contributes to the full sum of [f] over four
    indices. *)
Definition orbit_sum (f : nat -> nat -> nat -> nat -> Z) (i j : nat) : Z :=
  tsum i (fun k l => sym4 f i j k l + sym4 f k l i j)
  + sum_n j (fun l => sym4 f i j i l + sym4 f i l i j)
  + sym4 f i j i j.

(** Sizes for which, over exact reals, the [1e-7] tolerance of the
    unfolding cannot lift the row index to the next row.  Every [n] whose
    [n*(n+1)] fits the 32-bit [int] in which the drivers compute [npair]
    ([n <= 46340]) is among them. *)
Definition unfold_safe (n : nat) : Prop := Z.of_nat n <= 9999999.

(** Sizes on which the binary64 evaluation of the unfolding is exact: all
    the rows are below [2^23 - 1]. *)
Definition unfold_safe_f64 (n : nat) : Prop := Z.of_nat n <= 8388607.

(** ** Values of binary64 numbers *)

(** [sf_val f V]: [f] is a positive normal binary64 number with a full
    53-bit mantissa, of value [V * 2^-76]. *)
Definition sf_val (f : spec_float) (V : Z) : Prop :=
  exists m e, f = S754_finite false m e
    /\ -76 <= e <= 800
    /\ Z.pos (digits2_pos m) = 53
    /\ V = Z.pos m * 2 ^ (e + 76).

(** [rounds_to M V]: [V] is one of the two multiples of the unit in the
    last place around [M], and is [M] itself when [M] is such a
    multiple: for every multiple [G] of [2^t], [t] not below that unit,
    [V] is on the same side of [G] as [M]. *)
Definition rounds_to (M V : Z) : Prop :=
  forall t G, 0 <= t -> (2 ^ t | G) -> M < 2 ^ (t + 53) ->
    (G <= M -> G <= V) /\ (M <= G -> V <= G).

(** [sqrt_rounds_to V W]: [W] is one of the two binary64 neighbours of
    the square root of the number of value [V * 2^-76], in units of
    [2^-76]: it is on the same side of every grid point [G] as the root. *)
Definition sqrt_rounds_to (V W : Z) : Prop :=
  forall t G, 0 <= t -> 0 <= G -> (2 ^ t | G) -> V * 2 ^ 76 < 2 ^ (2 * t + 106) ->
    (G * G <= V * 2 ^ 76 -> G <= W) /\ (V * 2 ^ 76 < G * G -> W <= G).

(** The terms of the dense contractions, cell by cell: [fK n T dm p q] sums
    to [dense_vk n T dm p q] and [fJ n T dm p q] to [dense_vj n T dm p q]. *)
Definition fK (n : nat) (T : tensor) (dm : buf) (p q : nat) (i j k l : nat) : Z :=
  delta p i * delta q l * (T i j k l * dm.[j*n+k]).

Definition fJ (n : nat) (T : tensor) (dm : buf) (p q : nat) (i j k l : nat) : Z :=
  delta p i * delta q j * (T i j k l * dm.[k*n+l]).

(** ** Example data *)

(** Packing of a dense tensor into the compact [s8] layout. *)
Definition pack_s8 (T : tensor) : buf :=
  fun p => let (ij, kl) := tri_dec p in
           let (i, j) := tri_dec ij in
           let (k, l) := tri_dec kl in
           T i j k l.

(** Packing of a dense tensor into the [s1] layout for size [n]. *)
Definition pack_s1 (n : nat) (T : tensor) : buf :=
  fun p => T (p / (n * n) / n)%nat ((p / (n * n)) mod n)%nat
             ((p mod (n * n)) / n)%nat (p mod n)%nat.

(** An [s8]-symmetric tensor and a non-symmetric matrix. *)
Definition ex_T : tensor :=
  fun i j k l => Z.of_nat ((i + j) * (k + l) + i * j + k * l) - 3.

Definition ex_dm : buf := fun a => Z.of_nat (a * a + 1) - 4.

(** A tensor without any symmetry. *)
Definition ex_T1 : tensor :=
  fun i j k l => Z.of_nat (i + 2 * j + 3 * k * k + 5 * l * i) - 7.


(** ** Further reference quantities *)

(** The other two dense contractions the kernels implement:
    [vj[k,l] = sum_{i,j} T[i,j,k,l]*dm[i,j]] (the [ij -> kl] pattern) and
    [vk[j,k] = sum_{i,l} T[i,j,k,l]*dm[i,l]] (the [il -> jk] pattern). *)
Definition dense_ij_kl (n : nat) (T : tensor) (dm : buf) (k l : nat) : Z :=
  sum_n n (fun i => sum_n n (fun j => T i j k l * dm.[i*n+j])).

Definition dense_il_jk (n : nat) (T : tensor) (dm : buf) (j k : nat) : Z :=
  sum_n n (fun i => sum_n n (fun l => T i j k l * dm.[i*n+l])).

(** Their terms, cell by cell. *)
Definition fI (n : nat) (T : tensor) (dm : buf) (p q : nat) (i j k l : nat) : Z :=
  delta p k * delta q l * (T i j k l * dm.[i*n+j]).

Definition fL (n : nat) (T : tensor) (dm : buf) (p q : nat) (i j k l : nat) : Z :=
  delta p j * delta q k * (T i j k l * dm.[i*n+l]).

(** Symmetry classes of a tensor on the index range [0 .. n-1]. *)
Definition s4_symmetric (n : nat) (T : tensor) : Prop :=
  forall i j k l, (i < n)%nat -> (j < n)%nat -> (k < n)%nat -> (l < n)%nat ->
    T i j k l = T j i k l /\ T i j k l = T i j l k.

Definition s2ij_symmetric (n : nat) (T : tensor) : Prop :=
  forall i j k l, (i < n)%nat -> (j < n)%nat -> (k < n)%nat -> (l < n)%nat ->
    T i j k l = T j i k l.

Definition s2kl_symmetric (n : nat) (T : tensor) : Prop :=
  forall i j k l, (i < n)%nat -> (j < n)%nat -> (k < n)%nat -> (l < n)%nat ->
    T i j k l = T i j l k.

(** [s4] layout: the block of the outer pair [ij], [i >= j], starts at
    offset [ij*npair] and holds the pairs [kl], [k >= l], in order. *)
Definition stored_s4 (n : nat) (T : tensor) (eri : buf) : Prop :=
  forall i j k l, (j <= i)%nat -> (i < n)%nat -> (l <= k)%nat -> (k < n)%nat ->
    eri.[(tri i + j) * tri n + (tri k + l)] = T i j k l.

(** [s2ij] layout: the block of the outer pair [ij], [i >= j], starts at
    offset [ij*n*n] and is row-major in [(k,l)]. *)
Definition stored_s2ij (n : nat) (T : tensor) (eri : buf) : Prop :=
  forall i j k l, (j <= i)%nat -> (i < n)%nat -> (k < n)%nat -> (l < n)%nat ->
    eri.[(tri i + j) * n * n + (k * n + l)] = T i j k l.

(** [s2kl] layout: the block of the outer index [i*n+j] starts at offset
    [(i*n+j)*npair] and holds the pairs [kl], [k >= l], in order. *)
Definition stored_s2kl (n : nat) (T : tensor) (eri : buf) : Prop :=
  forall i j k l, (i < n)%nat -> (j < n)%nat -> (l <= k)%nat -> (k < n)%nat ->
    eri.[(i * n + j) * tri n + (tri k + l)] = T i j k l.

(** [tri_dm] is [dm] folded onto its lower triangle, as the comment above
    [CVHFnrs8_tridm_vj] describes it: [tri_dm[i*(i+1)/2+j]] is
    [dm[i*nao+j] + dm[j*nao+i]] for [i > j], and the diagonal entry itself
    for [i = j]. *)
Definition folded_dm (n : nat) (dm tri_dm : buf) : Prop :=
  forall i j, (j <= i)%nat -> (i < n)%nat ->
    tri_dm.[tri i + j]
    = if (j <? i)%nat then dm.[i*n+j] + dm.[j*n+i] else dm.[i*n+i].

(** ** Further example data *)

Definition pack_s4 (n : nat) (T : tensor) : buf :=
  fun p => let (i, j) := tri_dec (p / tri n) in
           let (k, l) := tri_dec (p mod tri n) in
           T i j k l.

Definition pack_s2ij (n : nat) (T : tensor) : buf :=
  fun p => let (i, j) := tri_dec (p / (n * n)) in
           T i j ((p mod (n * n)) / n)%nat (p mod n)%nat.

Definition pack_s2kl (n : nat) (T : tensor) : buf :=
  fun p => let (k, l) := tri_dec (p mod tri n) in
           T (p / tri n / n)%nat ((p / tri n) mod n)%nat k l.

(** Tensors symmetric in [(k,l)] only, in [(i,j)] only, and in both. *)
Definition ex_Tkl : tensor :=
  fun i j k l => Z.of_nat (i + 2 * j + 3 * (k + l) + 5 * k * l * i) - 7.

Definition ex_Tij : tensor :=
  fun i j k l => Z.of_nat (k + 2 * l + 3 * (i + j) + 5 * i * j * l) - 7.

Definition ex_T4 : tensor :=
  fun i j k l => Z.of_nat (i + j + 3 * (k + l) + 5 * k * l * (i * j + 1)) - 9.

(** [dm] folded onto its lower triangle. *)
Definition fold_tril (n : nat) (dm : buf) : buf :=
  fun t => let (i, j) := tri_dec t in
           if (j <? i)%nat then dm.[i*n+j] + dm.[j*n+i] else dm.[i*n+i].

(** ** Cells a command leaves alone *)

(** [keeps P F]: the command [F] leaves every cell [a] with [P a] as it
    found it. *)
Definition keeps (P : nat -> Prop) (F : cmd) : Prop :=
  forall s a, P a -> snd (F s) a = snd s a.

(** The cells strictly above the diagonal of an [n] by [n] matrix. *)
Definition upper_cell (n a : nat) : Prop :=
  exists p q, (p < q)%nat /\ (q < n)%nat /\ a = (p * n + q)%nat.

(** The kernels whose output is meant for the lower triangle only. *)
Definition lower_kernel (k : kernel_name) : bool :=
  match k with
  | nrs8_ij_s2kl_o0 | nrs8_ij_s2kl | nrs8_tridm_vj
  | nrs4_ij_s2kl_o0 | nrs4_ij_s2kl | nrs4_kl_s2ij
  | nrs4_jk_s2il_o0 | nrs4_il_s2jk_o0 | nrs4_jk_s2il | nrs4_il_s2jk
  | nrs2ij_kl_s2ij | nrs2kl_ij_s2kl => true
  | _ => false
  end.

(** * The ket half-transformation of [lib/mcscf/mc_eri.c] *)

From Stdlib Require Ascii.

(** The character constants ['L'] and ['U']. *)
Section Chars.
Import Ascii.
Definition char_L : Ascii.ascii := "L"%char.
Definition char_U : Ascii.ascii := "U"%char.
End Chars.

(** [struct _AO2MOEnvs].  The [int] fields are natural numbers, the
    [int *] and [double *] fields maps from offsets; the two [void *]
    handles are opaque. *)
Record _AO2MOEnvs : Type := {
  natm : nat;
  nbas : nat;
  atm : nat -> Z;
  bas : nat -> Z;
  env : buf;
  nao : nat;
  klsh_start : nat;
  klsh_count : nat;
  bra_start : nat;
  bra_count : nat;
  ket_start : nat;
  ket_count : nat;
  ncomp : nat;
  ao_loc : nat -> Z;
  mo_coeff : buf;
  cintopt : unit;
  vhfopt : unit
}.

(** [v[a] = x]. *)
Definition set_at (v : buf) (a : nat) (x : Z) : buf :=
  fun b => if Nat.eqb b a then x else v b.

(** A store [v[a] = x] whose address and operand may read the running
    offset (here the amount by which [vout] has been advanced). *)
Definition store (f : nat -> nat * Z) : cmd :=
  fun s => (fst s, set_at (snd s) (fst (f (fst s))) (snd (f (fst s)))).

Section MCSCFhalfmmm.

(** The BLAS routine [dsymm_] is implemented outside this repository: it
    is a parameter here, a function from its thirteen arguments to the
    contents it leaves in its output matrix [c]. *)
Variable dsymm_ :
  Ascii.ascii -> Ascii.ascii -> nat -> nat -> Z -> buf -> nat -> buf -> nat -> Z -> buf -> nat -> buf.

(** [malloc_buf] is the content of the block that [malloc] returns.  The
    result is the pair of the returned [int] and the final [vout].  The
    two size queries return [int] expressions: the products are reduced
    to 32 bits, and the division by two truncates.  The offsets
    [j_start*nao] and [i*nao+j] of the copy are [int] expressions too;
    they are written over the naturals, which is their value whenever
    [(ket_start + ket_count) * nao] fits an [int]. *)
Definition MCSCFhalfmmm_nr_s2_ket (malloc_buf : buf) (vout vin : buf)
    (envs : _AO2MOEnvs) (seekdim : Z) : Z * buf :=
  if seekdim =? 1 then
    (int_wrap (Z.of_nat (nao envs) * Z.of_nat (ket_count envs)), vout)
  else if seekdim =? 2 then
    (Z.quot (int_wrap (Z.of_nat (nao envs) * int_wrap (Z.of_nat (nao envs) + 1))) 2, vout)
  else
    let D0 := 0 in
    let D1 := 1 in
    let SIDE_L := char_L in
    let UPLO_U := char_U in
    let nao := nao envs in
    let j_start := ket_start envs in
    let j_count := ket_count envs in
    let mo_coeff := mo_coeff envs in
    let buf := dsymm_ SIDE_L UPLO_U nao j_count
                 D1 vin nao (shift mo_coeff (j_start*nao)) nao
                 D0 malloc_buf nao in
    (0, run (for_ 0 nao (fun j =>
               for_ 0 j_count (fun i =>
                 store (fun off => ((off + i)%nat, buf.[i*nao+j]))) ;;
               inc j_count)) vout).

End MCSCFhalfmmm.


(** * Properties *)

(** ** Sums *)

Lemma sum_n_ext n f g :
  (forall k, (k < n)%nat -> f k = g k) -> sum_n n f = sum_n n g.
Proof.
  induction n as [|n IH]; intros H; simpl; [reflexivity|].
  rewrite IH by (intros; apply H; lia). rewrite H by lia. reflexivity.
Qed.

Lemma sum_n_zero n f : (forall k, (k < n)%nat -> f k = 0) -> sum_n n f = 0.
Proof.
  induction n as [|n IH]; intros H; simpl; [reflexivity|].
  rewrite IH by (intros; apply H; lia). rewrite H by lia. reflexivity.
Qed.

Lemma sum_n_add n f g :
  sum_n n (fun k => f k + g k) = sum_n n f + sum_n n g.
Proof. induction n as [|n IH]; simpl; [reflexivity|]. rewrite IH. ring. Qed.

Lemma sum_n_mul_l n c f : sum_n n (fun k => c * f k) = c * sum_n n f.
Proof. induction n as [|n IH]; simpl; [ring|]. rewrite IH. ring. Qed.

Lemma sum_n_app n m f :
  sum_n (n + m) f = sum_n n f + sum_n m (fun t => f (n + t)%nat).
Proof.
  induction m as [|m IH]; simpl.
  - rewrite Nat.add_0_r. ring.
  - rewrite Nat.add_succ_r. simpl. rewrite IH. ring.
Qed.

Lemma sum_n_swap n m (f : nat -> nat -> Z) :
  sum_n n (fun i => sum_n m (fun j => f i j))
  = sum_n m (fun j => sum_n n (fun i => f i j)).
Proof.
  induction n as [|n IH]; simpl.
  - symmetry. apply sum_n_zero. reflexivity.
  - rewrite IH. rewrite <- sum_n_add. reflexivity.
Qed.

Lemma sum_n_delta n p f :
  (p < n)%nat -> sum_n n (fun k => delta p k * f k) = f p.
Proof.
  unfold delta. induction n as [|n IH]; intros H; [lia|]. simpl.
  destruct (Nat.eq_dec p n) as [->|Hne].
  - rewrite Nat.eqb_refl. rewrite sum_n_zero; [ring|].
    intros k Hk. destruct (Nat.eqb_spec n k); [lia|ring].
  - rewrite IH by lia. destruct (Nat.eqb_spec p n); [lia|ring].
Qed.

Lemma sum_range_ext lo hi f g :
  (forall k, (lo <= k < hi)%nat -> f k = g k) ->
  sum_range lo hi f = sum_range lo hi g.
Proof. intros H. apply sum_n_ext. intros; apply H; lia. Qed.

Lemma sum_range_0 hi f : sum_range 0 hi f = sum_n hi f.
Proof. unfold sum_range. rewrite Nat.sub_0_r. reflexivity. Qed.

Lemma sum_n_split n m f :
  (m <= n)%nat -> sum_n n f = sum_n m f + sum_range m n f.
Proof.
  intros H. unfold sum_range.
  replace n with (m + (n - m))%nat at 1 by lia. apply sum_n_app.
Qed.

Lemma sum_range_first lo hi f :
  (lo < hi)%nat -> sum_range lo hi f = f lo + sum_range (S lo) hi f.
Proof.
  intros H. unfold sum_range.
  replace (hi - lo)%nat with (1 + (hi - S lo))%nat by lia.
  rewrite sum_n_app. simpl. rewrite Nat.add_0_r. f_equal.
  apply sum_n_ext. intros. f_equal. lia.
Qed.

(** ** Triangular numbers and the compound index *)

Lemma tri_S i : tri (S i) = (tri i + S i)%nat.
Proof.
  unfold tri.
  replace (S i * (S i + 1))%nat with (i * (i + 1) + S i * 2)%nat by lia.
  rewrite Nat.div_add by lia. reflexivity.
Qed.

Lemma tri_0 : tri 0 = 0%nat.
Proof. reflexivity. Qed.

Lemma tri_double i : (2 * tri i = i * (i + 1))%nat.
Proof.
  induction i as [|i IH]; [reflexivity|]. rewrite tri_S. lia.
Qed.

Lemma tri_mono i k : (i <= k)%nat -> (tri i <= tri k)%nat.
Proof.
  induction 1 as [|k Hk IH]; [lia|]. rewrite tri_S. lia.
Qed.

Lemma tri_dec_tri i j : (j <= i)%nat -> tri_dec (tri i + j) = (i, j).
Proof.
  revert j. induction i as [|i IH]; intros j Hj.
  - assert (j = 0)%nat by lia. subst. reflexivity.
  - induction j as [|j IHj].
    + rewrite tri_S, Nat.add_0_r.
      replace (tri i + S i)%nat with (S (tri i + i)) by lia.
      simpl. rewrite IH by lia. rewrite Nat.ltb_irrefl. reflexivity.
    + replace (tri (S i) + S j)%nat with (S (tri (S i) + j)) by lia.
      simpl. rewrite IHj by lia.
      destruct (Nat.ltb_spec j (S i)); [reflexivity|lia].
Qed.

Lemma tri_pair_lt i j k l :
  (j <= i)%nat -> (l <= k)%nat ->
  ((tri k + l < tri i + j)%nat <-> (k < i \/ (k = i /\ l < j))%nat).
Proof.
  intros Hj Hl. split.
  - intros H. destruct (Nat.lt_trichotomy k i) as [Hk|[Hk|Hk]]; [lia| |].
    + subst. lia.
    + assert (tri (S i) <= tri k)%nat by (apply tri_mono; lia).
      rewrite tri_S in *. lia.
  - intros [Hk|[-> Hk]]; [|lia].
    assert (tri (S k) <= tri i)%nat by (apply tri_mono; lia).
    rewrite tri_S in *. lia.
Qed.

Lemma tri_decompose n t :
  (t < tri n)%nat -> exists i j, (j <= i)%nat /\ (i < n)%nat /\ t = (tri i + j)%nat.
Proof.
  induction n as [|n IH]; intros H.
  - rewrite tri_0 in H. lia.
  - rewrite tri_S in H. destruct (Nat.lt_ge_cases t (tri n)) as [Hlt|Hge].
    + destruct (IH Hlt) as (i & j & ? & ? & ?). exists i, j. lia.
    + exists n, (t - tri n)%nat. lia.
Qed.

(** ** The drivers' unfolding of the compound index *)

Lemma tril_row_tri i j :
  (j <= i)%nat -> Z.of_nat i <= 9999998 -> tril_row (tri i + j) = i.
Proof.
  intros Hj Hi. unfold tril_row. cbv zeta.
  change (20000000 * 20000000 / 4) with 100000000000000.
  change (20000000 / 2) with 10000000.
  pose proof (tri_double i) as Hd.
  set (t := (tri i + j)%nat).
  assert (Ht1 : Z.of_nat i * (Z.of_nat i + 1) <= 2 * Z.of_nat t) by (subst t; nia).
  assert (Ht2 : 2 * Z.of_nat t <= Z.of_nat i * (Z.of_nat i + 1) + 2 * Z.of_nat i)
    by (subst t; nia).
  set (x := 2 * Z.of_nat t * 20000000 * 20000000 + 100000000000000).
  assert (Hx : 0 <= x) by (subst x; lia).
  pose proof (Z.sqrt_spec x Hx) as [Hs1 Hs2].
  pose proof (Z.sqrt_nonneg x) as Hs0.
  set (s := Z.sqrt x) in *.
  set (I := Z.of_nat i) in *.
  assert (HI : 0 <= I <= 9999998) by (subst I; lia).
  assert (Hlo : 20000000 * I + 10000000 <= s).
  { apply Z.lt_succ_r. apply Z.nle_gt. intros Hc.
    assert (Z.succ s * Z.succ s <= (20000000 * I + 10000000) * (20000000 * I + 10000000))
      by (apply Z.mul_le_mono_nonneg; lia).
    subst x. nia. }
  assert (Hhi : s < 20000000 * I + 29999998).
  { apply Z.nle_gt. intros Hc.
    assert ((20000000 * I + 29999998) * (20000000 * I + 29999998) <= s * s)
      by (apply Z.mul_le_mono_nonneg; lia).
    subst x. nia. }
  assert (Hq : (s - 10000000 + 2) / 20000000 = I).
  { symmetry. apply (Z.div_unique _ _ I (s - 10000000 + 2 - 20000000 * I)); lia. }
  rewrite Hq. subst I. apply Nat2Z.id.
Qed.

(** [tril_row] is the integer part of the drivers' expression over the
    reals. *)
Lemma tril_row_real ij :
  (IZR (Z.of_nat (tril_row ij)) <= sqrt (2 * INR ij + / 4) - / 2 + / 10000000
   < IZR (Z.of_nat (tril_row ij)) + 1)%R.
Proof.
  unfold tril_row. cbv zeta.
  change (20000000 * 20000000 / 4) with 100000000000000.
  change (20000000 / 2) with 10000000.
  set (X := 2 * Z.of_nat ij * 20000000 * 20000000 + 100000000000000).
  assert (HX : 0 <= X) by (subst X; lia).
  pose proof (Z.sqrt_spec X HX) as [Hs1 Hs2].
  pose proof (Z.sqrt_nonneg X) as Hs0.
  set (s := Z.sqrt X) in *.
  assert (Hs : 10000000 <= s).
  { apply Z.lt_succ_r. apply Z.nle_gt. intros Hc.
    assert (Z.succ s * Z.succ s <= 10000000 * 10000000)
      by (apply Z.mul_le_mono_nonneg; lia).
    subst X. lia. }
  pose proof (Z.div_mod (s - 10000000 + 2) 20000000 ltac:(lia)) as Hdm.
  pose proof (Z.mod_pos_bound (s - 10000000 + 2) 20000000 ltac:(lia)) as Hmb.
  set (q := (s - 10000000 + 2) / 20000000) in *.
  assert (Hq : 0 <= q) by (subst q; apply Z.div_pos; lia).
  rewrite Z2Nat.id by assumption.
  (* the real square root *)
  set (y := sqrt (2 * INR ij + / 4)).
  assert (Hy0 : (0 <= y)%R) by apply sqrt_pos.
  assert (Hpos : (0 <= 2 * INR ij + / 4)%R) by (pose proof (pos_INR ij); lra).
  assert (Hy2 : (y * y = 2 * INR ij + / 4)%R) by (apply sqrt_sqrt; exact Hpos).
  assert (HXr : (IZR X = (20000000 * y) * (20000000 * y))%R).
  { subst X. rewrite plus_IZR, !mult_IZR, <- INR_IZR_INZ.
    replace ((20000000 * y) * (20000000 * y))%R
      with (20000000 * 20000000 * (y * y))%R by ring.
    rewrite Hy2. lra. }
  assert (Hlo : (IZR s <= 20000000 * y)%R).
  { apply Rnot_lt_le. intros Hc.
    assert (((20000000 * y) * (20000000 * y) < IZR s * IZR s)%R)
      by (apply Rmult_le_0_lt_compat; lra).
    apply (Rlt_not_le _ _ H). rewrite <- HXr, <- mult_IZR. apply IZR_le. lia. }
  assert (Hhi : (20000000 * y < IZR s + 1)%R).
  { apply Rnot_le_lt. intros Hc.
    assert (Hs' : (0 <= IZR s + 1)%R) by (pose proof (IZR_le _ _ Hs0); lra).
    assert (((IZR s + 1) * (IZR s + 1) <= (20000000 * y) * (20000000 * y))%R)
      by (apply Rmult_le_compat; lra).
    apply (Rle_not_lt _ _ H). rewrite <- HXr.
    replace ((IZR s + 1) * (IZR s + 1))%R with (IZR (Z.succ s * Z.succ s)).
    - apply IZR_lt. lia.
    - rewrite mult_IZR, succ_IZR. ring. }
  assert (E1 : (IZR s - 10000000 + 2 = 20000000 * IZR q + IZR ((s - 10000000 + 2) mod 20000000))%R).
  { rewrite <- (mult_IZR 20000000 q), <- plus_IZR, <- Hdm, plus_IZR, minus_IZR. reflexivity. }
  assert (E2 : (0 <= IZR ((s - 10000000 + 2) mod 20000000) <= 19999999)%R).
  { split; apply IZR_le; lia. }
  split; lra.
Qed.

(** ** The unfolding in binary64 arithmetic *)

Lemma row_ok_spec cols i idx :
  row_ok cols i idx = true ->
  forall c, 0 <= c < Z.of_nat cols -> tril_row_f64 (idx + c) = i.
Proof.
  revert idx. induction cols as [|cols IH]; intros idx H c Hc; [lia|].
  cbn [row_ok] in H. apply andb_prop in H. destruct H as [H1 H2].
  destruct (Z.eq_dec c 0) as [->|Hne].
  - rewrite Z.add_0_r. apply Z.eqb_eq. exact H1.
  - replace (idx + c) with (idx + 1 + (c - 1)) by lia. apply (IH _ H2). lia.
Qed.

Lemma rows_ok_spec rows : forall i idx,
  0 <= i -> rows_ok rows i idx = true ->
  forall r c, (r < rows)%nat -> 0 <= c <= i + Z.of_nat r ->
    tril_row_f64 (idx + Z.of_nat r * i + Z.of_nat (tri r) + c) = i + Z.of_nat r.
Proof.
  induction rows as [|rows IH]; intros i idx Hi H r c Hr Hc; [lia|].
  cbn [rows_ok] in H. apply andb_prop in H. destruct H as [H1 H2].
  destruct r as [|r].
  - rewrite tri_0. cbn [Z.of_nat] in *.
    replace (idx + 0 * i + 0 + c) with (idx + c) by lia.
    rewrite (row_ok_spec _ _ _ H1) by lia. lia.
  - rewrite tri_S.
    replace (idx + Z.of_nat (S r) * i + Z.of_nat (tri r + S r) + c)
      with (idx + i + 1 + Z.of_nat r * (i + 1) + Z.of_nat (tri r) + c) by lia.
    rewrite (IH (i + 1) (idx + i + 1)) by (try assumption; lia). lia.
Qed.

Lemma rows_ok_512 : rows_ok 512 0 0 = true.
Proof. vm_compute. reflexivity. Qed.

(** For every size up to 512 the binary64 unfolding and its exact reading
    give the same row. *)
Lemma tril_row_f64_agrees n idx :
  (n <= 512)%nat -> (idx < n * (n + 1) / 2)%nat ->
  tril_row_f64 (Z.of_nat idx) = Z.of_nat (tril_row idx).
Proof.
  intros Hn Hidx. change (idx < tri n)%nat in Hidx.
  destruct (tri_decompose n idx Hidx) as (i & j & Hj & Hi & ->).
  rewrite tril_row_tri by lia.
  pose proof (rows_ok_spec 512 0 0 ltac:(lia) rows_ok_512 i (Z.of_nat j)
                ltac:(lia) ltac:(lia)) as H.
  replace (0 + Z.of_nat i * 0 + Z.of_nat (tri i) + Z.of_nat j)
    with (Z.of_nat (tri i + j)) in H by lia.
  rewrite H. lia.
Qed.

(** ** Binary64 rounding, from the definitions of [SpecFloat]

    Values are carried as integers in units of [2^-76], the exponent of
    the double next to [1e-7]; [sf_val], [rounds_to] and
    [sqrt_rounds_to] say what an operation returns. *)

Ltac pow_side :=
  first [ lia
        | apply Z.pow_pos_nonneg; lia
        | apply Z.pow_nonzero; lia
        | apply Z.lt_le_incl, Z.pow_pos_nonneg; lia ].

(** ** Bit lengths *)

Lemma digits2_bounds p :
  2 ^ (Z.pos (digits2_pos p) - 1) <= Z.pos p < 2 ^ Z.pos (digits2_pos p).
Proof.
  induction p as [p IH|p IH|]; cbn [digits2_pos].
  - rewrite Pos2Z.inj_succ.
    replace (Z.succ (Z.pos (digits2_pos p)) - 1) with (Z.succ (Z.pos (digits2_pos p) - 1)) by lia.
    rewrite !Z.pow_succ_r by lia. lia.
  - rewrite Pos2Z.inj_succ.
    replace (Z.succ (Z.pos (digits2_pos p)) - 1) with (Z.succ (Z.pos (digits2_pos p) - 1)) by lia.
    rewrite !Z.pow_succ_r by lia. lia.
  - cbn. lia.
Qed.

Lemma digits2_unique p d :
  2 ^ (d - 1) <= Z.pos p < 2 ^ d -> Z.pos (digits2_pos p) = d.
Proof.
  intros [H1 H2]. pose proof (digits2_bounds p) as [B1 B2].
  assert (Hd : 0 < d).
  { destruct (Z.le_gt_cases d 0) as [Hle|]; [|assumption].
    assert (2 ^ d <= 2 ^ 0) by (apply Z.pow_le_mono_r; lia). cbn in *. lia. }
  destruct (Z.lt_trichotomy (Z.pos (digits2_pos p)) d) as [Hlt|[->|Hgt]]; [|reflexivity|].
  - assert (2 ^ Z.pos (digits2_pos p) <= 2 ^ (d - 1)) by (apply Z.pow_le_mono_r; lia). lia.
  - assert (2 ^ d <= 2 ^ (Z.pos (digits2_pos p) - 1)) by (apply Z.pow_le_mono_r; lia). lia.
Qed.

Lemma iter_xO p d : Z.pos (Pos.iter xO p d) = Z.pos p * 2 ^ Z.pos d.
Proof.
  induction d as [|d IH] using Pos.peano_ind.
  - cbn. lia.
  - rewrite Pos.iter_succ, Pos2Z.inj_succ, Z.pow_succ_r by lia.
    rewrite Pos2Z.inj_xO, IH. lia.
Qed.

(** ** Shifting a mantissa right *)

Lemma shr_1_spec mrs :
  0 <= shr_m mrs ->
  shr_m (shr_1 mrs) = shr_m mrs / 2
  /\ (shr_r (shr_1 mrs) = true -> shr_m mrs mod 2 <> 0).
Proof.
  destruct mrs as [m r s]. cbn [shr_m]. intros Hm.
  destruct m as [|[p|p|]|p]; cbn [shr_1 shr_m shr_r]; try lia.
  - split; [reflexivity|]. intros H. discriminate H.
  - rewrite Pos2Z.inj_xI. split.
    + apply (Z.div_unique _ _ _ 1); lia.
    + intros _.
      pose proof (Z.mod_unique (2 * Z.pos p + 1) 2 (Z.pos p) 1 ltac:(lia) ltac:(lia)). lia.
  - rewrite Pos2Z.inj_xO. split.
    + apply (Z.div_unique _ _ _ 0); lia.
    + intros H. discriminate H.
  - split; [reflexivity|]. intros _. cbn. lia.
Qed.

Lemma mod_pow_split m a b :
  0 <= a -> 0 <= b -> 0 <= m ->
  (m / 2 ^ a) mod 2 ^ b <> 0 -> m mod 2 ^ (a + b) <> 0.
Proof.
  intros Ha Hb Hm H E. apply H.
  apply Z.mod_divide in E; [|apply Z.pow_nonzero; lia].
  destruct E as [c E]. rewrite Z.pow_add_r in E by lia.
  replace (c * (2 ^ a * 2 ^ b)) with (c * 2 ^ b * 2 ^ a) in E by ring.
  rewrite E, Z.div_mul by (apply Z.pow_nonzero; lia).
  apply Z.mod_mul. apply Z.pow_nonzero; lia.
Qed.

Lemma shr_iter_spec n mrs :
  0 <= shr_m mrs ->
  shr_m (SpecFloat.iter_pos shr_1 n mrs) = shr_m mrs / 2 ^ Z.pos n
  /\ (shr_r (SpecFloat.iter_pos shr_1 n mrs) = true -> shr_m mrs mod 2 ^ Z.pos n <> 0).
Proof.
  revert mrs. induction n as [n IH|n IH|]; intros mrs Hm; cbn [SpecFloat.iter_pos].
  - destruct (shr_1_spec mrs Hm) as [A1 A2].
    assert (H1 : 0 <= shr_m (shr_1 mrs)) by (rewrite A1; apply Z.div_pos; lia).
    destruct (IH _ H1) as [B1 B2].
    assert (H2 : 0 <= shr_m (SpecFloat.iter_pos shr_1 n (shr_1 mrs)))
      by (rewrite B1; apply Z.div_pos; [lia|apply Z.pow_pos_nonneg; lia]).
    destruct (IH _ H2) as [C1 C2].
    replace (Z.pos n~1) with (1 + Z.pos n + Z.pos n) by lia.
    split.
    + rewrite C1, B1, A1.
      rewrite !Z.pow_add_r by lia. rewrite !Z.div_div by pow_side.
      f_equal. rewrite Z.pow_1_r. ring.
    + intros Hr. specialize (C2 Hr). rewrite B1, A1 in C2.
      apply mod_pow_split; try lia.
      rewrite Z.pow_add_r, Z.pow_1_r by lia.
      rewrite <- Z.div_div by pow_side.
      exact C2.
  - destruct (IH _ Hm) as [B1 B2].
    assert (H2 : 0 <= shr_m (SpecFloat.iter_pos shr_1 n mrs))
      by (rewrite B1; apply Z.div_pos; [lia|apply Z.pow_pos_nonneg; lia]).
    destruct (IH _ H2) as [C1 C2].
    replace (Z.pos n~0) with (Z.pos n + Z.pos n) by lia.
    split.
    + rewrite C1, B1. rewrite Z.pow_add_r by lia.
      rewrite Z.div_div by pow_side. reflexivity.
    + intros Hr. specialize (C2 Hr). rewrite B1 in C2.
      apply mod_pow_split; try lia.
  - destruct (shr_1_spec mrs Hm) as [A1 A2]. split; assumption.
Qed.

(** ** Rounding to nearest *)

Lemma fexp_normal e : -1021 <= e -> fexp prec emax e = e - 53.
Proof. intros H. unfold fexp, SpecFloat.emin, prec, emax. lia. Qed.

Lemma loc_of_record_of_loc m l : loc_of_shr_record (shr_record_of_loc m l) = l.
Proof. destruct l as [|[| |]]; reflexivity. Qed.

Lemma shr_m_record_of_loc m l : shr_m (shr_record_of_loc m l) = m.
Proof. destruct l as [|[| |]]; reflexivity. Qed.

(** The increment of [round_nearest_even]: it needs the round bit. *)
Lemma round_nearest_even_spec mrs :
  exists c, (c = 0 \/ c = 1)
    /\ round_nearest_even (shr_m mrs) (loc_of_shr_record mrs) = shr_m mrs + c
    /\ (c = 1 -> shr_r mrs = true).
Proof.
  destruct mrs as [m [|] [|]]; cbn [loc_of_shr_record round_nearest_even shr_m shr_r].
  - exists 1. repeat split; auto.
  - destruct (Z.even m).
    + exists 0. repeat split; auto; lia.
    + exists 1. repeat split; auto.
  - exists 0. repeat split; auto; lia.
  - exists 0. repeat split; auto; lia.
Qed.

(** The first shift of [binary_round_aux] on a mantissa of at least 53
    bits. *)
Lemma shr_fexp_spec (mx : positive) ex lx :
  53 <= Z.pos (digits2_pos mx) -> -1021 <= ex ->
  let n := Z.pos (digits2_pos mx) - 53 in
  exists mrs, shr_fexp prec emax (Z.pos mx) ex lx = (mrs, ex + n)
    /\ shr_m mrs = Z.pos mx / 2 ^ n
    /\ (shr_r mrs = true -> lx = loc_Exact -> Z.pos mx mod 2 ^ n <> 0).
Proof.
  intros HD Hex n. unfold shr_fexp. cbn [Zdigits2].
  rewrite fexp_normal by lia.
  replace (Z.pos (digits2_pos mx) + ex - 53 - ex) with n by (subst n; lia).
  assert (Hn : 0 <= n) by (subst n; lia).
  destruct n as [|p|p] eqn:En; [| |lia].
  - cbn [shr]. eexists. split; [rewrite Z.add_0_r; reflexivity|].
    rewrite shr_m_record_of_loc. split.
    + cbn. rewrite Z.div_1_r. reflexivity.
    + intros Hr ->. discriminate Hr.
  - cbn [shr].
    destruct (shr_iter_spec p (shr_record_of_loc (Z.pos mx) lx)) as [A1 A2].
    { rewrite shr_m_record_of_loc. lia. }
    rewrite shr_m_record_of_loc in A1, A2.
    eexists. split; [reflexivity|]. split; [exact A1|].
    intros Hr _. exact (A2 Hr).
Qed.

Lemma round_aux_spec (mx : positive) ex lx :
  53 <= Z.pos (digits2_pos mx) -> -1021 <= ex ->
  ex + (Z.pos (digits2_pos mx) - 53) + 1 <= 971 ->
  let n := Z.pos (digits2_pos mx) - 53 in
  exists m e c,
    binary_round_aux prec emax false (Z.pos mx) ex lx = S754_finite false m e
    /\ (c = 0 \/ c = 1)
    /\ ex + n <= e <= ex + n + 1
    /\ Z.pos (digits2_pos m) = 53
    /\ Z.pos m * 2 ^ (e - (ex + n)) = Z.pos mx / 2 ^ n + c
    /\ (c = 1 -> lx = loc_Exact -> Z.pos mx mod 2 ^ n <> 0).
Proof.
  intros HD Hex Hmax n.
  destruct (shr_fexp_spec mx ex lx HD Hex) as (mrs & E1 & Hm1 & Hr1).
  fold n in E1, Hm1, Hr1.
  assert (Hn : 0 <= n) by (subst n; lia).
  pose proof (digits2_bounds mx) as [B1 B2].
  assert (Hpn : 0 < 2 ^ n) by pow_side.
  assert (Hm1lo : 2 ^ 52 <= Z.pos mx / 2 ^ n).
  { apply Z.div_le_lower_bound; [assumption|].
    rewrite <- Z.pow_add_r by lia.
    replace (n + 52) with (Z.pos (digits2_pos mx) - 1) by (subst n; lia). assumption. }
  assert (Hm1hi : Z.pos mx / 2 ^ n < 2 ^ 53).
  { apply Z.div_lt_upper_bound; [assumption|].
    rewrite <- Z.pow_add_r by lia.
    replace (n + 53) with (Z.pos (digits2_pos mx)) by (subst n; lia). assumption. }
  destruct (round_nearest_even_spec mrs) as (c & Hc & Hrne & Hcr).
  unfold binary_round_aux. rewrite E1, Hrne, Hm1.
  set (m1 := Z.pos mx / 2 ^ n) in *.
  assert (Hm2 : 0 < m1 + c) by lia.
  destruct (m1 + c) as [|p2|p2] eqn:Ep2; [lia| |lia].
  assert (Hcases : Z.pos p2 < 2 ^ 53 \/ Z.pos p2 = 2 ^ 53) by lia.
  destruct Hcases as [Hlt|Heq].
  - assert (Hd2 : Z.pos (digits2_pos p2) = 53) by (apply digits2_unique; cbn [Z.sub]; lia).
    destruct (shr_fexp_spec p2 (ex + n) loc_Exact ltac:(lia) ltac:(lia))
      as (mrs2 & E2 & Hm2' & _).
    rewrite Hd2 in E2, Hm2'. change (53 - 53) with 0 in E2, Hm2'.
    rewrite E2, Hm2'. rewrite Z.pow_0_r, Z.div_1_r, Z.add_0_r.
    destruct (Z.leb_spec (ex + n) (emax - prec)) as [_|Hc']; [|unfold emax, prec in Hc'; lia].
    exists p2, (ex + n), c. split; [reflexivity|].
    split; [assumption|]. split; [lia|]. split; [assumption|].
    split; [rewrite Z.sub_diag, Z.pow_0_r; lia|].
    intros Hc1 Hl. apply Hr1; [apply Hcr; assumption|assumption].
  - assert (Hd2 : Z.pos (digits2_pos p2) = 54).
    { apply digits2_unique. rewrite Heq. cbn [Z.sub Z.pos_sub]. split; [lia|].
      apply Z.pow_lt_mono_r; lia. }
    destruct (shr_fexp_spec p2 (ex + n) loc_Exact ltac:(lia) ltac:(lia))
      as (mrs2 & E2 & Hm2' & _).
    rewrite Hd2 in E2, Hm2'. change (54 - 53) with 1 in E2, Hm2'.
    rewrite E2, Hm2', Heq.
    change (2 ^ 53 / 2 ^ 1) with (Z.pos (Z.to_pos (2 ^ 52))).
    cbv iota beta.
    destruct (Z.leb_spec (ex + n + 1) (emax - prec)) as [_|Hc']; [|unfold emax, prec in Hc'; lia].
    exists (Z.to_pos (2 ^ 52)), (ex + n + 1), c. split; [reflexivity|].
    split; [assumption|]. split; [lia|]. split; [reflexivity|].
    split.
    + replace (ex + n + 1 - (ex + n)) with 1 by lia.
      change (Z.pos (Z.to_pos (2 ^ 52)) * 2 ^ 1) with (2 ^ 53). lia.
    + intros Hc1 Hl. apply Hr1; [apply Hcr; assumption|assumption].
Qed.

(** Multiples of a coarser power of two are multiples of the unit. *)
Lemma grid_unit t u G :
  0 <= u <= t -> (2 ^ t | G) -> exists g, G = g * 2 ^ u.
Proof.
  intros Hu [g ->]. exists (g * 2 ^ (t - u)).
  replace t with (t - u + u) at 1 by lia.
  rewrite Z.pow_add_r by lia. ring.
Qed.

Lemma pow2_lt_inv a b : 2 ^ a < 2 ^ b -> 0 <= b -> a < b.
Proof.
  intros H Hb. destruct (Z.lt_ge_cases a b) as [|Hge]; [assumption|].
  assert (2 ^ b <= 2 ^ a) by (apply Z.pow_le_mono_r; lia). lia.
Qed.

(** Dropping [n] bits of a mantissa of [n + 53] bits and rounding. *)
Lemma grid_round M n s c V :
  0 <= n -> 0 <= s -> (c = 0 \/ c = 1) -> (c = 1 -> M mod 2 ^ n <> 0) ->
  2 ^ (n + 52) <= M ->
  V = (M / 2 ^ n + c) * 2 ^ (n + s) ->
  rounds_to (M * 2 ^ s) V.
Proof.
  intros Hn Hs Hc Hmod Hlo -> t G Ht HG Hlt.
  assert (Hpn : 0 < 2 ^ n) by pow_side.
  assert (Hps : 0 < 2 ^ s) by pow_side.
  assert (Hu : n + s <= t).
  { assert (H1 : 2 ^ (n + 52 + s) <= M * 2 ^ s).
    { rewrite (Z.pow_add_r 2 (n + 52) s) by lia. apply Z.mul_le_mono_nonneg_r; lia. }
    assert (H2 : n + 52 + s < t + 53) by (apply pow2_lt_inv; lia). lia. }
  destruct (grid_unit t (n + s) G ltac:(lia) HG) as [g ->].
  rewrite (Z.pow_add_r 2 n s) by lia.
  set (P := 2 ^ n) in *. set (S := 2 ^ s) in *.
  split; intros H.
  - assert (H1 : g * P <= M).
    { apply (Z.mul_le_mono_pos_r _ _ S Hps). lia. }
    assert (H2 : g <= M / P) by (apply Z.div_le_lower_bound; lia).
    apply Z.mul_le_mono_nonneg_r; [nia|lia].
  - assert (H1 : M <= g * P).
    { apply (Z.mul_le_mono_pos_r _ _ S Hps). lia. }
    apply Z.mul_le_mono_nonneg_r; [nia|].
    destruct Hc as [->| ->].
    + assert (M / P <= g) by (apply Z.div_le_upper_bound; lia). lia.
    + specialize (Hmod eq_refl).
      assert (Hne : M <> g * P).
      { intros E. apply Hmod. rewrite E. apply Z.mod_mul. lia. }
      assert (M / P < g) by (apply Z.div_lt_upper_bound; lia). lia.
Qed.

Lemma rounds_to_refl M : rounds_to M M.
Proof. intros t G _ _ _. split; intros H; exact H. Qed.

(** [binary_normalize] on a positive integer [M] at exponent [E]. *)
Lemma normalize_spec (M : positive) E :
  -76 <= E <= 800 ->
  2 ^ 53 <= Z.pos M * 2 ^ (E + 76) < 2 ^ 850 ->
  exists V, sf_val (binary_normalize prec emax (Z.pos M) E false) V
    /\ rounds_to (Z.pos M * 2 ^ (E + 76)) V.
Proof.
  intros HE [Hlo Hhi].
  pose proof (digits2_bounds M) as [B1 B2].
  set (D := Z.pos (digits2_pos M)) in *.
  assert (HD0 : 0 < D) by (subst D; lia).
  assert (Hps : 0 < 2 ^ (E + 76)) by pow_side.
  assert (HDlo : -23 < D + E).
  { assert (H : 2 ^ 53 < 2 ^ (D + (E + 76))).
    { rewrite Z.pow_add_r by lia. nia. }
    apply pow2_lt_inv in H; lia. }
  assert (HDhi : D + E < 776).
  { assert (H : 2 ^ (D - 1 + (E + 76)) < 2 ^ 850).
    { rewrite Z.pow_add_r by lia. nia. }
    apply pow2_lt_inv in H; lia. }
  unfold binary_normalize, binary_round. fold D.
  rewrite fexp_normal by lia.
  unfold shl_align.
  replace (D + E - 53 - E) with (D - 53) by lia.
  destruct (D - 53) as [|p|p] eqn:Ep.
  - (* exactly 53 bits *)
    destruct (round_aux_spec M E loc_Exact ltac:(fold D; lia) ltac:(lia) ltac:(fold D; lia))
      as (m & e & c & ER & Hc & He & Hdm & Hval & Hex).
    fold D in He, Hval, Hex. rewrite Ep in He, Hval, Hex.
    rewrite Z.pow_0_r, Z.div_1_r, Z.add_0_r in *.
    assert (c = 0).
    { destruct Hc as [|Hc1]; [assumption|]. exfalso.
      apply (Hex Hc1 eq_refl). apply Z.mod_1_r. }
    subst c.
    pose proof (digits2_bounds m) as [C1 C2]. rewrite Hdm in C1, C2.
    assert (e = E).
    { destruct (Z.eq_dec e E) as [|Hne]; [assumption|]. exfalso.
      assert (e = E + 1) by lia. subst e.
      replace (E + 1 - E) with 1 in Hval by lia. rewrite Z.pow_1_r in Hval.
      change (53 - 1) with 52 in C1.
      assert (Z.pos M < 2 ^ 53) by (replace 53 with D by lia; assumption).
      lia. }
    subst e. rewrite Z.sub_diag, Z.pow_0_r in Hval.
    exists (Z.pos M * 2 ^ (E + 76)). split; [|apply rounds_to_refl].
    exists m, E. rewrite ER. repeat split; first [lia | rewrite <- Hval; ring].
  - (* more than 53 bits: rounding *)
    destruct (round_aux_spec M E loc_Exact ltac:(fold D; lia) ltac:(lia) ltac:(fold D; lia))
      as (m & e & c & ER & Hc & He & Hdm & Hval & Hex).
    fold D in He, Hval, Hex. rewrite Ep in He, Hval, Hex.
    set (n := Z.pos p) in *.
    exists (Z.pos m * 2 ^ (e + 76)). split.
    + exists m, e. rewrite ER. repeat split; try lia.
    + apply (grid_round (Z.pos M) n (E + 76) c); try lia.
      * intros Hc1. apply Hex; [assumption|reflexivity].
      * replace (n + 52) with (D - 1) by lia. assumption.
      * replace (e + 76) with (e - (E + n) + (n + (E + 76))) by lia.
        rewrite Z.pow_add_r by lia. rewrite Z.mul_assoc, Hval. reflexivity.
  - (* fewer than 53 bits: the mantissa is shifted left, nothing is lost *)
    set (d := Z.pos p).
    assert (Hd : D = 53 - d) by (subst d; lia).
    assert (Hmz : Z.pos (Pos.iter xO M p) = Z.pos M * 2 ^ d) by apply iter_xO.
    assert (Hpd : 0 < 2 ^ d) by pow_side.
    assert (Hdz : Z.pos (digits2_pos (Pos.iter xO M p)) = 53).
    { apply digits2_unique. rewrite Hmz. change (53 - 1) with 52.
      assert (E1 : 2 ^ (D - 1) * 2 ^ d = 2 ^ 52)
        by (rewrite <- Z.pow_add_r by lia; f_equal; lia).
      assert (E2 : 2 ^ D * 2 ^ d = 2 ^ 53)
        by (rewrite <- Z.pow_add_r by lia; f_equal; lia).
      rewrite <- E1, <- E2. split.
      - apply Z.mul_le_mono_nonneg_r; lia.
      - apply Z.mul_lt_mono_pos_r; lia. }
    cbn [fst snd].
    destruct (round_aux_spec (Pos.iter xO M p) (D + E - 53) loc_Exact
                ltac:(lia) ltac:(lia) ltac:(lia))
      as (m & e & c & ER & Hc & He & Hdm & Hval & Hex).
    rewrite Hdz in He, Hval, Hex. change (53 - 53) with 0 in He, Hval, Hex.
    rewrite Z.pow_0_r, Z.div_1_r, Z.add_0_r in *.
    assert (c = 0).
    { destruct Hc as [|Hc1]; [assumption|]. exfalso.
      apply (Hex Hc1 eq_refl). apply Z.mod_1_r. }
    subst c.
    pose proof (digits2_bounds m) as [C1 C2]. rewrite Hdm in C1, C2.
    pose proof (digits2_bounds (Pos.iter xO M p)) as [_ C3]. rewrite Hdz in C3.
    assert (e = D + E - 53).
    { destruct (Z.eq_dec e (D + E - 53)) as [|Hne]; [assumption|]. exfalso.
      assert (e = D + E - 53 + 1) by lia. subst e.
      replace (D + E - 53 + 1 - (D + E - 53)) with 1 in Hval by lia.
      rewrite Z.pow_1_r in Hval. change (53 - 1) with 52 in C1. lia. }
    subst e. rewrite Z.sub_diag, Z.pow_0_r in Hval.
    exists (Z.pos M * 2 ^ (E + 76)). split; [|apply rounds_to_refl].
    exists m, (D + E - 53). rewrite ER. repeat split; try lia.
    replace (Z.pos m) with (Z.pos M * 2 ^ d) by lia.
    replace (E + 76) with (d + (D + E - 53 + 76)) by lia.
    rewrite Z.pow_add_r by lia. ring.
Qed.

(** ** The operations on positive normal numbers *)

Lemma sf_val_bounds f V : sf_val f V -> 2 ^ 52 <= V.
Proof.
  intros (m & e & -> & He & Hd & ->).
  pose proof (digits2_bounds m) as [B1 _]. rewrite Hd in B1. change (53 - 1) with 52 in B1.
  assert (1 <= 2 ^ (e + 76)) by (assert (0 < 2 ^ (e + 76)) by pow_side; lia).
  nia.
Qed.

Lemma shl_align_val m e ez :
  ez <= e -> Z.pos (fst (shl_align m e ez)) = Z.pos m * 2 ^ (e - ez).
Proof.
  intros H. unfold shl_align.
  destruct (ez - e) as [|p|p] eqn:E; cbn [fst].
  - replace (e - ez) with 0 by lia. rewrite Z.pow_0_r. lia.
  - lia.
  - rewrite iter_xO. replace (e - ez) with (Z.pos p) by lia. reflexivity.
Qed.

Lemma aligned_val m e ez :
  -76 <= ez <= e ->
  Z.pos m * 2 ^ (e - ez) * 2 ^ (ez + 76) = Z.pos m * 2 ^ (e + 76).
Proof.
  intros H. rewrite <- Z.mul_assoc, <- Z.pow_add_r by lia.
  f_equal. f_equal. lia.
Qed.

Lemma add_val f1 f2 V1 V2 :
  sf_val f1 V1 -> sf_val f2 V2 -> V1 + V2 < 2 ^ 850 ->
  exists V, sf_val (SF64add f1 f2) V /\ rounds_to (V1 + V2) V.
Proof.
  intros H1 H2 Hhi.
  pose proof (sf_val_bounds _ _ H1) as L1. pose proof (sf_val_bounds _ _ H2) as L2.
  destruct H1 as (m1 & e1 & -> & He1 & Hd1 & E1).
  destruct H2 as (m2 & e2 & -> & He2 & Hd2 & E2).
  unfold SF64add, SFadd. cbv zeta. cbn [cond_Zopp].
  set (ez := Z.min e1 e2).
  rewrite !shl_align_val by (subst ez; lia).
  pose proof (aligned_val m1 e1 ez ltac:(subst ez; lia)) as A1.
  pose proof (aligned_val m2 e2 ez ltac:(subst ez; lia)) as A2.
  assert (P1 : 0 < 2 ^ (e1 - ez)) by (subst ez; pow_side).
  assert (P2 : 0 < 2 ^ (e2 - ez)) by (subst ez; pow_side).
  destruct (Z.pos m1 * 2 ^ (e1 - ez) + Z.pos m2 * 2 ^ (e2 - ez)) as [|M|M] eqn:EM; [nia| |nia].
  assert (EV : Z.pos M * 2 ^ (ez + 76) = V1 + V2).
  { rewrite <- EM, Z.mul_add_distr_r, A1, A2. lia. }
  destruct (normalize_spec M ez ltac:(subst ez; lia)) as (V & HV & HR).
  { rewrite EV. change (2 ^ 53) with (2 ^ 52 + 2 ^ 52). lia. }
  exists V. split; [assumption|]. rewrite <- EV. assumption.
Qed.

Lemma sub_val f1 f2 V1 V2 :
  sf_val f1 V1 -> sf_val f2 V2 -> 2 ^ 53 <= V1 - V2 -> V1 < 2 ^ 850 ->
  exists V, sf_val (SF64sub f1 f2) V /\ rounds_to (V1 - V2) V.
Proof.
  intros H1 H2 Hlo Hhi.
  pose proof (sf_val_bounds _ _ H2) as L2.
  destruct H1 as (m1 & e1 & -> & He1 & Hd1 & E1).
  destruct H2 as (m2 & e2 & -> & He2 & Hd2 & E2).
  unfold SF64sub, SFsub. cbv zeta. cbn [cond_Zopp].
  set (ez := Z.min e1 e2).
  rewrite !shl_align_val by (subst ez; lia).
  pose proof (aligned_val m1 e1 ez ltac:(subst ez; lia)) as A1.
  pose proof (aligned_val m2 e2 ez ltac:(subst ez; lia)) as A2.
  assert (Pz : 0 < 2 ^ (ez + 76)) by (subst ez; pow_side).
  assert (EV : (Z.pos m1 * 2 ^ (e1 - ez) - Z.pos m2 * 2 ^ (e2 - ez)) * 2 ^ (ez + 76) = V1 - V2).
  { rewrite Z.mul_sub_distr_r, A1, A2. lia. }
  destruct (Z.pos m1 * 2 ^ (e1 - ez) - Z.pos m2 * 2 ^ (e2 - ez)) as [|M|M] eqn:EM; [nia| |nia].
  destruct (normalize_spec M ez ltac:(subst ez; lia)) as (V & HV & HR).
  { rewrite EV. lia. }
  exists V. split; [assumption|]. rewrite <- EV. assumption.
Qed.

Lemma sqrt_floor_below q r B :
  0 <= q < B -> r <= 2 * q -> q * q + r < B * B.
Proof. intros. nia. Qed.

Lemma sqrt_floor_above q B : 0 <= B <= q -> B * B <= q * q.
Proof. intros. nia. Qed.

Lemma sqrt_floor_ge g q r :
  0 <= g -> 0 <= q -> r <= 2 * q -> g * g <= q * q + r -> g <= q.
Proof. intros. nia. Qed.

Lemma sqrt_floor_lt g q r :
  0 <= g -> 0 <= q -> 0 <= r -> q * q + r < g * g -> q < g.
Proof. intros. nia. Qed.

Lemma mul_nonneg_inv g u : 0 < u -> 0 <= g * u -> 0 <= g.
Proof. intros. nia. Qed.

Lemma sq_pos u : 0 < u -> 0 < u * u.
Proof. intros. nia. Qed.

Lemma sq_scale g u : g * u * (g * u) = g * g * (u * u).
Proof. ring. Qed.

Lemma sqrt_val f V :
  sf_val f V -> V < 2 ^ 700 ->
  exists W, sf_val (SF64sqrt f) W /\ sqrt_rounds_to V W.
Proof.
  intros (m & e & -> & He & Hd & ->) Hhi.
  pose proof (digits2_bounds m) as [B1 B2]. rewrite Hd in B1, B2.
  change (53 - 1) with 52 in B1.
  unfold SF64sqrt, SFsqrt, SFsqrt_core_binary. cbv zeta. cbn [Zdigits2]. rewrite Hd.
  rewrite !Z.div2_div.
  pose proof (Z.div_mod e 2 ltac:(lia)) as Hdm.
  pose proof (Z.mod_pos_bound e 2 ltac:(lia)) as Hmb.
  set (h := e / 2) in *.
  assert (Eh : (53 + e + 1) / 2 = h + 27).
  { replace (53 + e + 1) with (e + 27 * 2) by lia. rewrite Z.div_add by lia. reflexivity. }
  rewrite Eh, fexp_normal by lia.
  replace (Z.min (h + 27 - 53) h) with (h - 26) by lia.
  set (s := e - 2 * (h - 26)).
  assert (Hs : s = 52 \/ s = 53) by (subst s; lia).
  assert (Em' : match s with
                | 0 => Z.pos m
                | Z.pos _ => Z.shiftl (Z.pos m) s
                | Z.neg _ => 0
                end = Z.pos m * 2 ^ s).
  { destruct s as [|p|p] eqn:Es; [lia| |lia].
    apply Z.shiftl_mul_pow2. lia. }
  rewrite Em'.
  assert (Hm'lo : 2 ^ 104 <= Z.pos m * 2 ^ s).
  { change (2 ^ 104) with (2 ^ 52 * 2 ^ 52).
    destruct Hs as [-> | ->]; [|change (2 ^ 53) with (2 ^ 52 * 2)]; nia. }
  assert (Hm'hi : Z.pos m * 2 ^ s < 2 ^ 106).
  { change (2 ^ 106) with (2 ^ 53 * 2 ^ 53).
    destruct Hs as [-> | ->]; [change (2 ^ 53) with (2 ^ 52 * 2)|]; nia. }
  pose proof (Z.sqrtrem_spec (Z.pos m * 2 ^ s) ltac:(lia)) as Hsq.
  destruct (Z.sqrtrem (Z.pos m * 2 ^ s)) as [q r]. destruct Hsq as [Hqr Hr].
  assert (Hqlo : 2 ^ 52 <= q).
  { destruct (Z.le_gt_cases (2 ^ 52) q) as [|Hlt]; [assumption|]. exfalso.
    pose proof (sqrt_floor_below q r (2 ^ 52) ltac:(lia) ltac:(lia)) as Hb.
    change (2 ^ 52 * 2 ^ 52) with (2 ^ 104) in Hb. lia. }
  assert (Hqhi : q < 2 ^ 53).
  { destruct (Z.lt_ge_cases q (2 ^ 53)) as [|Hge]; [assumption|]. exfalso.
    pose proof (sqrt_floor_above q (2 ^ 53) ltac:(lia)) as Hb.
    change (2 ^ 53 * 2 ^ 53) with (2 ^ 106) in Hb. lia. }
  destruct q as [|pq|pq]; [change (2 ^ 52) with 4503599627370496 in Hqlo; lia|
                           |change (2 ^ 52) with 4503599627370496 in Hqlo; lia].
  assert (Hdq : Z.pos (digits2_pos pq) = 53).
  { apply digits2_unique. change (53 - 1) with 52. lia. }
  match goal with |- context [binary_round_aux _ _ _ _ _ ?l] => set (lx := l) end.
  destruct (round_aux_spec pq (h - 26) lx ltac:(lia) ltac:(lia) ltac:(lia))
    as (mr & er & c & ER & Hc & Her & Hdr & Hval & _).
  rewrite Hdq in Her, Hval. change (53 - 53) with 0 in Her, Hval.
  rewrite Z.pow_0_r, Z.div_1_r, Z.add_0_r in *.
  rewrite ER.
  set (u := 2 ^ (h - 26 + 76)).
  assert (Hu : 0 < u) by (subst u; pow_side).
  assert (EW : Z.pos mr * 2 ^ (er + 76) = (Z.pos pq + c) * u).
  { rewrite <- Hval. subst u.
    rewrite <- Z.mul_assoc, <- Z.pow_add_r by lia. f_equal. f_equal. lia. }
  assert (EV : Z.pos m * 2 ^ (e + 76) * 2 ^ 76 = Z.pos m * 2 ^ s * (u * u)).
  { subst u. rewrite <- !Z.mul_assoc, <- !Z.pow_add_r by lia.
    f_equal. f_equal. subst s. lia. }
  exists (Z.pos mr * 2 ^ (er + 76)). split.
  - exists mr, er. repeat split; lia.
  - intros t G Ht HG0 HG Hlt. rewrite EW, EV in *.
    assert (Hut : h - 26 + 76 <= t).
    { assert (H1 : 2 ^ (104 + 2 * (h - 26 + 76)) <= Z.pos m * 2 ^ s * (u * u)).
      { replace (104 + 2 * (h - 26 + 76)) with (104 + ((h - 26 + 76) + (h - 26 + 76))) by lia.
        rewrite (Z.pow_add_r 2 104), (Z.pow_add_r 2 (h - 26 + 76)) by lia. fold u.
        apply Z.mul_le_mono_nonneg_r; [|assumption].
        apply Z.lt_le_incl, sq_pos; assumption. }
      assert (H2 : 104 + 2 * (h - 26 + 76) < 2 * t + 106) by (apply pow2_lt_inv; lia).
      lia. }
    destruct (grid_unit t (h - 26 + 76) G ltac:(lia) HG) as [g Eg]. fold u in Eg. subst G.
    assert (Hg : 0 <= g) by (apply (mul_nonneg_inv g u); assumption).
    pose proof (sq_pos u Hu) as Huu.
    rewrite sq_scale.
    split; intros H.
    + assert (H1 : g * g <= Z.pos m * 2 ^ s)
        by (apply (Z.mul_le_mono_pos_r _ _ (u * u)); assumption).
      assert (H2 : g <= Z.pos pq).
      { apply (sqrt_floor_ge g (Z.pos pq) r); first [lia | rewrite <- Hqr; assumption]. }
      apply Z.mul_le_mono_nonneg_r; lia.
    + assert (H1 : Z.pos m * 2 ^ s < g * g)
        by (apply (Z.mul_lt_mono_pos_r (u * u)); assumption).
      assert (H2 : Z.pos pq < g).
      { apply (sqrt_floor_lt g (Z.pos pq) r); first [lia | rewrite <- Hqr; assumption]. }
      apply Z.mul_le_mono_nonneg_r; lia.
Qed.

(** ** Conversions and constants *)

Lemma rounds_to_exact M V t :
  0 <= t -> (2 ^ t | M) -> M < 2 ^ (t + 53) -> rounds_to M V -> V = M.
Proof.
  intros Ht Hd Hlt H. destruct (H t M Ht Hd Hlt) as [H1 H2].
  specialize (H1 (Z.le_refl M)). specialize (H2 (Z.le_refl M)). lia.
Qed.

Lemma of_uint63_val z :
  0 < z < 2 ^ 53 ->
  sf_val (Prim2SF (of_uint63 (Uint63.of_Z z))) (z * 2 ^ 76).
Proof.
  intros Hz. rewrite of_uint63_spec, Uint63.of_Z_spec.
  rewrite Z.mod_small
    by (change wB with (2 ^ 63); change (2 ^ 53) with 9007199254740992 in Hz;
        change (2 ^ 63) with 9223372036854775808; lia).
  destruct z as [|M|M]; [lia| |lia].
  destruct (normalize_spec M 0 ltac:(lia)) as (V & HV & HR).
  { change (0 + 76) with 76.
    change (2 ^ 53) with 9007199254740992 in *.
    change (2 ^ 76) with 75557863725914323419136.
    split; [lia|].
    apply Z.lt_le_trans with (2 ^ 129); [|apply Z.pow_le_mono_r; lia].
    change (2 ^ 129) with (9007199254740992 * 75557863725914323419136). lia. }
  change (0 + 76) with 76 in HR.
  rewrite (rounds_to_exact _ V 76 ltac:(lia) ltac:(exists (Z.pos M); reflexivity)) in HV.
  - exact HV.
  - change (2 ^ (76 + 53)) with (2 ^ 53 * 2 ^ 76).
    apply Z.mul_lt_mono_pos_r; [reflexivity|lia].
  - exact HR.
Qed.

Lemma quarter_val : sf_val (Prim2SF 0.25%float) (2 ^ 74).
Proof. exists 4503599627370496%positive, (-54). repeat split; try reflexivity; lia. Qed.

Lemma half_val : sf_val (Prim2SF 0.5%float) (2 ^ 75).
Proof. exists 4503599627370496%positive, (-53). repeat split; try reflexivity; lia. Qed.

Lemma tolerance_val : sf_val (Prim2SF 1e-7%float) 7555786372591432.
Proof. exists 7555786372591432%positive, (-76). repeat split; try reflexivity; lia. Qed.

(** The cast to [int] of a positive number drops the fraction. *)
Lemma trunc_val r V : sf_val (Prim2SF r) V -> trunc_f64 r = V / 2 ^ 76.
Proof.
  intros (m & e & E & He & _ & ->). unfold trunc_f64. rewrite E. cbv zeta.
  destruct (Z.le_gt_cases 0 e) as [Hpos|Hneg].
  - rewrite Z.shiftl_mul_pow2 by assumption.
    rewrite Z.pow_add_r, Z.mul_assoc by lia.
    rewrite Z.div_mul by (apply Z.pow_nonzero; lia). reflexivity.
  - rewrite Z.shiftl_div_pow2 by lia.
    replace 76 with (e + 76 + - e) at 2 by lia.
    rewrite (Z.pow_add_r 2 (e + 76) (- e)) by lia.
    rewrite (Z.mul_comm (Z.pos m)).
    rewrite Z.div_mul_cancel_l by (apply Z.pow_nonzero; lia). reflexivity.
Qed.

(** ** The unfolding, operation by operation *)

Lemma cap V k c : V < 2 ^ k -> 0 <= k <= c -> V < 2 ^ c.
Proof.
  intros H Hk. apply Z.lt_le_trans with (2 ^ k); [assumption|].
  apply Z.pow_le_mono_r; lia.
Qed.

Lemma row_bounds i idx :
  1 <= i <= 8388606 -> i * (i + 1) <= 2 * idx <= i * (i + 1) + 2 * i ->
  2 <= 2 * idx < 140737488355328.
Proof. intros Hi Hidx. nia. Qed.

(** [(i + 1/2)^2 <= 2*idx + 1/4] on row [i]. *)
Lemma row_sqrt_lower i idx :
  0 <= i -> i * (i + 1) <= 2 * idx ->
  (2 * i + 1) * (2 * i + 1) <= 8 * idx + 1.
Proof. intros Hi Hidx. nia. Qed.

(** [2*idx + 1/4 < (i + 3/2 - 2^-23)^2] on row [i < 2^23 - 1]. *)
Lemma row_sqrt_upper i idx :
  1 <= i <= 8388606 -> 2 * idx <= i * (i + 1) + 2 * i ->
  (8 * idx + 1) * 17592186044416
  < (8388608 * i + 12582911) * (8388608 * i + 12582911).
Proof. intros Hi Hidx. nia. Qed.

Lemma scale_le a b P : 0 <= P -> a <= b -> a * P <= b * P.
Proof. intros. apply Z.mul_le_mono_nonneg_r; assumption. Qed.

Lemma scale_lt a b P : 0 < P -> a < b -> a * P < b * P.
Proof. intros. apply Z.mul_lt_mono_pos_r; assumption. Qed.

Lemma floor_unique V P i : 0 < P -> i * P <= V < (i + 1) * P -> V / P = i.
Proof.
  intros HP [H1 H2]. symmetry. apply (Z.div_unique V P i (V - i * P)); lia.
Qed.

(** On every row [1 <= i < 2^23 - 1] the binary64 evaluation gives the
    row: [2*idx + .25] is exact, its rounded square root lies in
    [[i + 1/2, i + 3/2 - 2^-23]], the subtraction of [.5] leaves
    [[i, i + 1 - 2^-23]], and adding the double next to [1e-7] cannot reach
    [i + 1]. *)
Lemma tril_row_f64_row i idx :
  1 <= i <= 8388606 -> i * (i + 1) <= 2 * idx <= i * (i + 1) + 2 * i ->
  tril_row_f64 idx = i.
Proof.
  intros Hi Hidx. pose proof (row_bounds i idx Hi Hidx) as Hb.
  unfold tril_row_f64. cbv zeta.
  set (x := of_uint63 (Uint63.of_Z (2 * idx))).
  (* x = 2*idx, exactly *)
  assert (Hx : sf_val (Prim2SF x) (2 * idx * 2 ^ 76)).
  { apply of_uint63_val. change (2 ^ 53) with 9007199254740992. lia. }
  (* x + .25 = 2*idx + 1/4, exactly *)
  assert (P74 : 0 < 2 ^ 74) by reflexivity.
  assert (E76' : 2 ^ 76 = 4 * 2 ^ 74) by reflexivity.
  destruct (add_val _ _ _ _ Hx quarter_val) as (VX & HX & RX).
  { apply (cap _ 130); [|lia].
    change (2 ^ 130) with (72057594037927936 * 2 ^ 74). nia. }
  rewrite <- add_spec in HX.
  assert (EX : VX = (8 * idx + 1) * 2 ^ 74).
  { replace ((8 * idx + 1) * 2 ^ 74) with (2 * idx * 2 ^ 76 + 2 ^ 74)
      by (rewrite E76'; ring).
    apply (rounds_to_exact _ _ 74); [lia| | |exact RX].
    - exists (8 * idx + 1). rewrite E76'. ring.
    - change (2 ^ (74 + 53)) with (9007199254740992 * 2 ^ 74). nia. }
  subst VX. clear RX E76'.
  (* the square root lies in [i + 1/2, i + 3/2 - 2^-23] *)
  destruct (sqrt_val _ _ HX) as (VS & HS & RS).
  { apply (cap _ 130); [|lia].
    change (2 ^ 130) with (72057594037927936 * 2 ^ 74).
    apply scale_lt; [reflexivity|lia]. }
  rewrite <- sqrt_spec in HS.
  assert (EXX : (8 * idx + 1) * 2 ^ 74 * 2 ^ 76 = (8 * idx + 1) * (2 ^ 75 * 2 ^ 75))
    by (rewrite <- Z.mul_assoc; reflexivity).
  assert (HXlt : forall t, 47 <= t -> (8 * idx + 1) * 2 ^ 74 * 2 ^ 76 < 2 ^ (2 * t + 106)).
  { intros t Ht. apply (cap _ 200); [|lia].
    rewrite <- Z.mul_assoc.
    change (2 ^ 200) with (1125899906842624 * (2 ^ 74 * 2 ^ 76)).
    apply scale_lt; [reflexivity|lia]. }
  assert (LS : (2 * i + 1) * 2 ^ 75 <= VS).
  { apply (RS 75 ((2 * i + 1) * 2 ^ 75) ltac:(lia)); [| |apply HXlt; lia|].
    - apply Z.mul_nonneg_nonneg; [lia|]. apply Z.pow_nonneg. lia.
    - exists (2 * i + 1). reflexivity.
    - rewrite EXX.
      replace ((2 * i + 1) * 2 ^ 75 * ((2 * i + 1) * 2 ^ 75))
        with ((2 * i + 1) * (2 * i + 1) * (2 ^ 75 * 2 ^ 75)) by ring.
      apply scale_le; [apply Z.lt_le_incl; reflexivity|].
      apply row_sqrt_lower; lia. }
  assert (US : VS <= (8388608 * i + 12582911) * 2 ^ 53).
  { apply (RS 53 ((8388608 * i + 12582911) * 2 ^ 53) ltac:(lia)); [| |apply HXlt; lia|].
    - apply Z.mul_nonneg_nonneg; [lia|]. apply Z.pow_nonneg. lia.
    - exists (8388608 * i + 12582911). reflexivity.
    - rewrite EXX.
      change (2 ^ 75 * 2 ^ 75) with (17592186044416 * (2 ^ 53 * 2 ^ 53)).
      replace ((8388608 * i + 12582911) * 2 ^ 53 * ((8388608 * i + 12582911) * 2 ^ 53))
        with ((8388608 * i + 12582911) * (8388608 * i + 12582911) * (2 ^ 53 * 2 ^ 53))
        by ring.
      rewrite Z.mul_assoc.
      apply scale_lt; [reflexivity|].
      apply row_sqrt_upper; lia. }
  clear RS EXX HXlt P74.
  (* subtracting .5: in [i, i + 1 - 2^-23] *)
  assert (P53 : 0 < 2 ^ 53) by reflexivity.
  assert (E75 : 2 ^ 75 = 4194304 * 2 ^ 53) by reflexivity.
  assert (E76 : 2 ^ 76 = 8388608 * 2 ^ 53) by reflexivity.
  destruct (sub_val _ _ _ _ HS half_val) as (VD & HD & RD).
  { rewrite E75 in *. nia. }
  { apply (cap _ 130); [|lia].
    change (2 ^ 130) with (151115727451828646838272 * 2 ^ 53). nia. }
  rewrite <- sub_spec in HD.
  assert (LD : i * 2 ^ 76 <= VD).
  { apply (RD 76 (i * 2 ^ 76) ltac:(lia)).
    - exists i. reflexivity.
    - change (2 ^ (76 + 53)) with (75557863725914323419136 * 2 ^ 53). nia.
    - nia. }
  assert (UD : VD <= (8388608 * i + 8388607) * 2 ^ 53).
  { apply (RD 53 ((8388608 * i + 8388607) * 2 ^ 53) ltac:(lia)).
    - exists (8388608 * i + 8388607). reflexivity.
    - change (2 ^ (53 + 53)) with (9007199254740992 * 2 ^ 53). nia.
    - nia. }
  clear RD LS US.
  (* adding 1e-7: still in [i, i + 1) *)
  destruct (add_val _ _ _ _ HD tolerance_val) as (VR & HR & RR).
  { apply (cap _ 130); [|lia].
    change (2 ^ 130) with (151115727451828646838272 * 2 ^ 53). nia. }
  rewrite <- add_spec in HR.
  assert (LR : i * 2 ^ 76 <= VR).
  { apply (RR 76 (i * 2 ^ 76) ltac:(lia)).
    - exists i. reflexivity.
    - change (2 ^ (76 + 53)) with (75557863725914323419136 * 2 ^ 53). nia.
    - lia. }
  assert (P46 : 0 < 2 ^ 46) by reflexivity.
  assert (E53 : 2 ^ 53 = 128 * 2 ^ 46) by reflexivity.
  assert (C7 : 7555786372591432 <= 127 * 2 ^ 46) by (apply Z.leb_le; reflexivity).
  assert (UR : VR <= (1073741824 * i + 1073741823) * 2 ^ 46).
  { apply (RR 46 ((1073741824 * i + 1073741823) * 2 ^ 46) ltac:(lia)).
    - exists (1073741824 * i + 1073741823). reflexivity.
    - change (2 ^ (46 + 53)) with (9007199254740992 * 2 ^ 46).
      rewrite E53 in UD. nia.
    - rewrite E53 in UD. nia. }
  clear RR.
  rewrite (trunc_val _ VR HR).
  apply floor_unique; [reflexivity|].
  rewrite E76 in *. rewrite E53 in *. nia.
Qed.

(** ** The unfolding in binary64 arithmetic, on every row below [2^23 - 1] *)

Lemma tril_row_f64_0 : tril_row_f64 0 = 0.
Proof. vm_compute. reflexivity. Qed.

Lemma tri_Z i : Z.of_nat i * (Z.of_nat i + 1) / 2 = Z.of_nat (tri i).
Proof.
  pose proof (tri_double i) as H.
  replace (Z.of_nat i * (Z.of_nat i + 1)) with (Z.of_nat (tri i) * 2) by lia.
  apply Z.div_mul. lia.
Qed.

Lemma tril_row_f64_tri i j :
  (j <= i)%nat -> Z.of_nat i <= 8388606 ->
  tril_row_f64 (Z.of_nat (tri i + j)) = Z.of_nat i.
Proof.
  intros Hj Hi. pose proof (tri_double i) as H.
  destruct i as [|i].
  - replace j with 0%nat by lia. rewrite tri_0. exact tril_row_f64_0.
  - apply tril_row_f64_row; lia.
Qed.

(** On every size up to [2^23 - 1] the binary64 unfolding and its exact
    reading give the same row. *)
Lemma tril_row_f64_exact n idx :
  unfold_safe_f64 n -> (idx < n * (n + 1) / 2)%nat ->
  tril_row_f64 (Z.of_nat idx) = Z.of_nat (tril_row idx).
Proof.
  unfold unfold_safe_f64. intros Hn Hidx. change (idx < tri n)%nat in Hidx.
  destruct (tri_decompose n idx Hidx) as (i & j & Hj & Hi & ->).
  rewrite tril_row_tri by lia. apply tril_row_f64_tri; lia.
Qed.

(** Beyond, the tolerance does lift a row: the last index of row
    [9850841] is unfolded to row [9850842] in binary64 arithmetic. *)
Lemma tril_row_f64_limit :
  48519548979902 = 9850841 * (9850841 + 1) / 2 + 9850841
  /\ tril_row_f64 48519548979902 = 9850842.
Proof. split; vm_compute; reflexivity. Qed.

Lemma int_wrap_small z : -2147483648 <= z <= 2147483647 -> int_wrap z = z.
Proof.
  intros H. unfold int_wrap. rewrite Z.mod_small; lia.
Qed.

Lemma tri_Z_unique i j i' j' :
  (j <= i)%nat -> 0 <= j' <= i' ->
  i' * (i' + 1) / 2 + j' = Z.of_nat (tri i + j) ->
  i' = Z.of_nat i /\ j' = Z.of_nat j.
Proof.
  intros Hj Hj' H.
  assert (Ei : i' = Z.of_nat (Z.to_nat i')) by lia.
  assert (Ej : j' = Z.of_nat (Z.to_nat j')) by lia.
  rewrite Ei, Ej in H. rewrite tri_Z in H.
  assert (Hn : (tri (Z.to_nat i') + Z.to_nat j' = tri i + j)%nat) by lia.
  assert (Z.to_nat i' = i).
  { destruct (Nat.lt_trichotomy (Z.to_nat i') i) as [Hlt|[Heq|Hgt]]; [|assumption|].
    - assert (tri (Z.to_nat i') + Z.to_nat j' < tri i + j)%nat
        by (apply tri_pair_lt; lia). lia.
    - assert (tri i + j < tri (Z.to_nat i') + Z.to_nat j')%nat
        by (apply tri_pair_lt; lia). lia. }
  subst i. lia.
Qed.

Lemma tril_unfold_tri i j :
  (j <= i)%nat -> Z.of_nat i <= 46339 ->
  tril_unfold (Z.of_nat (tri i + j)) = (Z.of_nat i, Z.of_nat j).
Proof.
  intros Hj Hi. unfold tril_unfold. cbv zeta.
  rewrite tril_row_f64_tri by lia.
  rewrite (int_wrap_small (Z.of_nat i + 1)) by lia.
  rewrite (int_wrap_small (Z.of_nat i * (Z.of_nat i + 1))) by nia.
  rewrite Z.quot_div_nonneg by nia.
  rewrite tri_Z.
  replace (Z.of_nat (tri i + j) - Z.of_nat (tri i)) with (Z.of_nat j) by lia.
  rewrite Z.mod_small by (change (2 ^ 64) with 18446744073709551616; lia).
  rewrite int_wrap_small by lia. reflexivity.
Qed.

(** ** Accumulator updates *)

Lemma adds_blk l v a : adds l v a = v a + blk l a.
Proof.
  unfold adds. revert v. induction l as [|[i x] l IH]; intros v; simpl.
  - ring.
  - rewrite IH. unfold add_at, delta. simpl.
    destruct (Nat.eqb a i); ring.
Qed.

Lemma hasd_upd f c : hasd (upd f) c c (blk (f c)).
Proof. intros v. split; [reflexivity|]. intros a. apply adds_blk. Qed.

Lemma hasd_inc m c : hasd (inc m) c (c + m)%nat (fun _ => 0).
Proof. intros v. split; [reflexivity|]. intros a. simpl. ring. Qed.

Lemma hasd_setc m c : hasd (setc m) c m (fun _ => 0).
Proof. intros v. split; [reflexivity|]. intros a. simpl. ring. Qed.

Lemma hasd_skip c : hasd skip c c (fun _ => 0).
Proof. intros v. split; [reflexivity|]. intros a. simpl. ring. Qed.

Lemma hasd_seq F G c0 c1 c2 d e :
  hasd F c0 c1 d -> hasd G c1 c2 e ->
  hasd (F ;; G) c0 c2 (fun a => d a + e a).
Proof.
  intros HF HG v. unfold seqc.
  destruct (HF v) as [Hc Hv]. destruct (F (c0, v)) as [c w]. simpl in *. subst c.
  destruct (HG w) as [Hc' Hw]. split; [assumption|].
  intros a. rewrite Hw, Hv. ring.
Qed.

Lemma hasd_weaken F c0 c1 c1' d d' :
  hasd F c0 c1 d -> c1 = c1' -> (forall a, d a = d' a) -> hasd F c0 c1' d'.
Proof.
  intros H -> Hd v. destruct (H v) as [Hc Hv]. split; [assumption|].
  intros a. rewrite Hv, Hd. reflexivity.
Qed.

Lemma hasd_fold body cnt d len lo :
  (forall t, (t < len)%nat -> hasd (body (lo + t)%nat) (cnt t) (cnt (S t)) (d t)) ->
  hasd (fun s => fold_left (fun s k => body k s) (seq lo len) s)
       (cnt 0%nat) (cnt len) (fun a => sum_n len (fun t => d t a)).
Proof.
  induction len as [|len IH]; intros H.
  - intros v. simpl. split; [reflexivity|]. intros; ring.
  - rewrite seq_S. intros v. rewrite fold_left_app. simpl.
    destruct (IH (fun t Ht => H t (Nat.lt_lt_succ_r _ _ Ht)) v) as [Hc Hv].
    destruct (fold_left (fun s k => body k s) (seq lo len) (cnt 0%nat, v)) as [c w]. simpl in *. subst c.
    destruct (H len (Nat.lt_succ_diag_r len) w) as [Hc' Hw].
    split; [assumption|]. intros a. rewrite Hw, Hv. ring.
Qed.

(** The loop rule: [cnt k] is the running offset on entry to iteration [k]. *)
Lemma hasd_for lo hi body cnt d :
  (lo <= hi)%nat ->
  (forall k, (lo <= k < hi)%nat -> hasd (body k) (cnt k) (cnt (S k)) (d k)) ->
  hasd (for_ lo hi body) (cnt lo) (cnt hi)
       (fun a => sum_range lo hi (fun k => d k a)).
Proof.
  intros Hle H. unfold for_, sum_range.
  pose proof (hasd_fold body (fun t => cnt (lo + t)%nat) (fun t => d (lo + t)%nat)
                (hi - lo) lo) as HF.
  cbv beta in HF. rewrite Nat.add_0_r in HF.
  replace (lo + (hi - lo))%nat with hi in HF by lia.
  apply HF. intros t Ht. replace (lo + S t)%nat with (S (lo + t)) by lia. apply H. lia.
Qed.

(** A loop from 0 whose body advances the running offset by one. *)
Lemma hasd_for_inc hi body c d :
  (forall k, (k < hi)%nat -> hasd (body k) (c + k)%nat (c + S k)%nat (d k)) ->
  hasd (for_ 0 hi body) c (c + hi)%nat (fun a => sum_n hi (fun k => d k a)).
Proof.
  intros H.
  pose proof (hasd_for 0 hi body (fun k => (c + k)%nat) d (Nat.le_0_l hi)) as HF.
  cbv beta in HF. rewrite Nat.add_0_r in HF.
  eapply hasd_weaken.
  - apply HF. intros k Hk. apply H. lia.
  - reflexivity.
  - intros a. apply sum_range_0.
Qed.

(** ** Every kernel body only accumulates *)

Lemma additive_upd f : additive (upd f).
Proof. intros c. exists c, (blk (f c)). apply hasd_upd. Qed.

Lemma additive_inc m : additive (inc m).
Proof. intros c. eexists _, _. apply hasd_inc. Qed.

Lemma additive_setc m : additive (setc m).
Proof. intros c. eexists _, _. apply hasd_setc. Qed.

Lemma additive_seq F G : additive F -> additive G -> additive (F ;; G).
Proof.
  intros HF HG c. destruct (HF c) as (c1 & d & Hd).
  destruct (HG c1) as (c2 & e & He).
  eexists _, _. eapply hasd_seq; eassumption.
Qed.

Lemma additive_fold (body : nat -> cmd) (l : list nat) :
  (forall k, additive (body k)) ->
  additive (fun s => fold_left (fun s k => body k s) l s).
Proof.
  intros H. induction l as [|k l IH]; simpl.
  - intros c. eexists _, _. apply hasd_skip.
  - exact (additive_seq (body k) _ (H k) IH).
Qed.

Lemma additive_for lo hi body :
  (forall k, additive (body k)) -> additive (for_ lo hi body).
Proof. intros H. apply additive_fold, H. Qed.

Lemma for_by_additive (body : nat -> cmd) :
  (forall k, additive (body k)) ->
  forall fuel step hi k c, exists kf c' d, forall v,
    fst (for_by fuel step hi k body (c, v)) = kf /\
    fst (snd (for_by fuel step hi k body (c, v))) = c' /\
    forall a, snd (snd (for_by fuel step hi k body (c, v))) a = v a + d a.
Proof.
  intros H. induction fuel as [|fuel IH]; intros step hi k c; simpl.
  - exists k, c, (fun _ => 0). intros v. simpl. repeat split. intros; ring.
  - destruct (k <? hi)%nat.
    + destruct (H k c) as (c1 & d1 & Hd1).
      destruct (IH step hi (k + step)%nat c1) as (kf & c' & d & Hd).
      exists kf, c', (fun a => d1 a + d a). intros v.
      destruct (Hd1 v) as [Hc Hv]. destruct (body k (c, v)) as [c0 w].
      simpl in *. subst c0. destruct (Hd w) as (Hk & Hc' & Hw).
      repeat split; try assumption. intros a. rewrite Hw, Hv. ring.
    + exists k, c, (fun _ => 0). intros v. simpl. repeat split. intros; ring.
Qed.

Lemma additive_from F c :
  additive F -> forall v a, snd (F (c, v)) a = v a + snd (F (c, zeros)) a.
Proof.
  intros H v a. destruct (H c) as (c' & d & Hd).
  destruct (Hd v) as [_ Hv]. destruct (Hd zeros) as [_ Hz].
  rewrite Hv, Hz. unfold zeros. ring.
Qed.

Lemma run_additive F :
  additive F -> forall v a, run F v a = v a + run F zeros a.
Proof. intros H. apply additive_from, H. Qed.

Ltac prove_additive :=
  repeat lazymatch goal with
    | |- additive (upd _) => apply additive_upd
    | |- additive (inc _) => apply additive_inc
    | |- additive (setc _) => apply additive_setc
    | |- additive (seqc _ _) => apply additive_seq
    | |- additive (for_ _ _ _) => apply additive_for; intro; cbv beta
    end.

Ltac prove_accumulating :=
  intros;
  repeat match goal with
    | |- context [if ?b then _ else _] => destruct b; cbv iota
    end;
  cbv zeta;
  first [ apply run_additive; prove_additive | unfold zeros; ring ].

Lemma acc_nrs8_ij_s2kl_o0 : accumulating CVHFnrs8_ij_s2kl_o0.
Proof.
  unfold accumulating, CVHFnrs8_ij_s2kl_o0, nrs8_ij_s2kl_loops. prove_accumulating.
Qed.

Lemma acc_nrs4_ij_s2kl_o0 : accumulating CVHFnrs4_ij_s2kl_o0.
Proof. unfold accumulating, CVHFnrs4_ij_s2kl_o0. prove_accumulating. Qed.

Lemma acc_nrs2kl_kl_s1ij_o0 : accumulating CVHFnrs2kl_kl_s1ij_o0.
Proof. unfold accumulating, CVHFnrs2kl_kl_s1ij_o0. prove_accumulating. Qed.

Lemma acc_nrs8_jk_s1il_o0 : accumulating CVHFnrs8_jk_s1il_o0.
Proof. unfold accumulating, CVHFnrs8_jk_s1il_o0. prove_accumulating. Qed.

Lemma acc_nrs4_jk_s1il_o0 : accumulating CVHFnrs4_jk_s1il_o0.
Proof. unfold accumulating, CVHFnrs4_jk_s1il_o0. prove_accumulating. Qed.

Lemma acc_nrs4_jk_s2il_o0 : accumulating CVHFnrs4_jk_s2il_o0.
Proof. unfold accumulating, CVHFnrs4_jk_s2il_o0. prove_accumulating. Qed.

Lemma acc_nrs8_tridm_vj : accumulating CVHFnrs8_tridm_vj.
Proof. unfold accumulating, CVHFnrs8_tridm_vj. prove_accumulating. Qed.

Lemma acc_nrs1_ij_s1kl : accumulating CVHFnrs1_ij_s1kl.
Proof. unfold accumulating, CVHFnrs1_ij_s1kl. prove_accumulating. Qed.

Lemma acc_nrs1_kl_s1ij : accumulating CVHFnrs1_kl_s1ij.
Proof. unfold accumulating, CVHFnrs1_kl_s1ij. prove_accumulating. Qed.

Lemma acc_nrs1_jk_s1il : accumulating CVHFnrs1_jk_s1il.
Proof. unfold accumulating, CVHFnrs1_jk_s1il. prove_accumulating. Qed.

Lemma acc_nrs1_il_s1jk : accumulating CVHFnrs1_il_s1jk.
Proof. unfold accumulating, CVHFnrs1_il_s1jk. prove_accumulating. Qed.

Lemma acc_nrs2ij_ij_s1kl : accumulating CVHFnrs2ij_ij_s1kl.
Proof. unfold accumulating, CVHFnrs2ij_ij_s1kl. prove_accumulating. Qed.

Lemma acc_nrs2ij_jk_s1il : accumulating CVHFnrs2ij_jk_s1il.
Proof. unfold accumulating, CVHFnrs2ij_jk_s1il. prove_accumulating. Qed.

Lemma acc_nrs2ij_il_s1jk : accumulating CVHFnrs2ij_il_s1jk.
Proof. unfold accumulating, CVHFnrs2ij_il_s1jk. prove_accumulating. Qed.

Lemma acc_nrs2kl_ij_s2kl : accumulating CVHFnrs2kl_ij_s2kl.
Proof. unfold accumulating, CVHFnrs2kl_ij_s2kl. prove_accumulating. Qed.

Lemma acc_nrs2kl_jk_s1il : accumulating CVHFnrs2kl_jk_s1il.
Proof. unfold accumulating, CVHFnrs2kl_jk_s1il. prove_accumulating. Qed.

Lemma acc_nrs2kl_il_s1jk : accumulating CVHFnrs2kl_il_s1jk.
Proof. unfold accumulating, CVHFnrs2kl_il_s1jk. prove_accumulating. Qed.

Lemma acc_nrs4_kl_s2ij : accumulating CVHFnrs4_kl_s2ij.
Proof.
  unfold accumulating, CVHFnrs4_kl_s2ij. intros.
  destruct (jc <=? ic)%nat; [apply acc_nrs2kl_kl_s1ij_o0 | unfold zeros; ring].
Qed.

Lemma acc_nrs2ij_kl_s2ij : accumulating CVHFnrs2ij_kl_s2ij.
Proof.
  unfold accumulating, CVHFnrs2ij_kl_s2ij. intros.
  destruct (ic <? jc)%nat; [unfold zeros; ring | apply acc_nrs1_kl_s1ij].
Qed.

Lemma acc_nrs8_jk_s2il_o0 : accumulating CVHFnrs8_jk_s2il_o0.
Proof.
  unfold accumulating, CVHFnrs8_jk_s2il_o0. intros eri dm v n ic jc a.
  destruct (jc <? ic)%nat.
  { apply run_additive. prove_additive. }
  destruct (ic =? jc)%nat; [|unfold zeros; ring].
  match goal with
  | |- context [for_by ?fuel ?step ?hi ?k0 ?body (?c0, v)] =>
      assert (Hb : forall k, additive (body k)) by (intro; cbv beta; prove_additive);
      destruct (for_by_additive body Hb fuel step hi k0 c0) as (kf & c1 & d1 & H1);
      destruct (H1 v) as (Hk & Hc & Hw);
      destruct (H1 zeros) as (Hk' & Hc' & Hw');
      destruct (for_by fuel step hi k0 body (c0, v)) as [k [c w]];
      destruct (for_by fuel step hi k0 body (c0, zeros)) as [k' [c' w']]
  end.
  simpl in Hk, Hc, Hw, Hk', Hc', Hw'. subst k k' c c'. clear H1 Hb.
  match goal with
  | |- snd (?G (?F (c1, w))) a = _ =>
      assert (HF : additive F) by prove_additive;
      assert (HG : additive G) by prove_additive;
      destruct (HF c1) as (c2 & d2 & H2);
      destruct (H2 w) as (Hc2 & Hw2);
      destruct (H2 w') as (Hc2' & Hw2');
      destruct (F (c1, w)) as [c u];
      destruct (F (c1, w')) as [c' u'];
      simpl in Hc2, Hw2, Hc2', Hw2'; subst c c';
      destruct (HG c2) as (c3 & d3 & H3);
      destruct (H3 u) as (_ & Hu);
      destruct (H3 u') as (_ & Hu')
  end.
  rewrite Hu, Hu', Hw2, Hw2', Hw, Hw'. unfold zeros. ring.
Qed.

Lemma kernel_fn_accumulating k : accumulating (kernel_fn k).
Proof.
  destruct k; simpl;
    first
      [ exact acc_nrs8_ij_s2kl_o0 | exact acc_nrs4_ij_s2kl_o0
      | exact acc_nrs2kl_kl_s1ij_o0 | exact acc_nrs8_jk_s1il_o0
      | exact acc_nrs8_jk_s2il_o0 | exact acc_nrs4_jk_s1il_o0
      | exact acc_nrs4_jk_s2il_o0 | exact acc_nrs8_tridm_vj
      | exact acc_nrs1_ij_s1kl | exact acc_nrs1_kl_s1ij
      | exact acc_nrs1_jk_s1il | exact acc_nrs1_il_s1jk
      | exact acc_nrs2ij_ij_s1kl | exact acc_nrs2ij_jk_s1il
      | exact acc_nrs2ij_il_s1jk | exact acc_nrs2kl_ij_s2kl
      | exact acc_nrs2kl_jk_s1il | exact acc_nrs2kl_il_s1jk
      | exact acc_nrs4_kl_s2ij | exact acc_nrs2ij_kl_s2ij ].
Qed.

(** ** The parallel region *)

Lemma lsum_app l1 l2 f : lsum (l1 ++ l2) f = lsum l1 f + lsum l2 f.
Proof. induction l1 as [|x l1 IH]; simpl; [ring|]. rewrite IH. ring. Qed.

Lemma lsum_perm l1 l2 f : Permutation l1 l2 -> lsum l1 f = lsum l2 f.
Proof.
  induction 1 as [|x l1 l2 _ IH|x y l|l1 l2 l3 _ IH1 _ IH2]; simpl.
  - reflexivity.
  - rewrite IH. reflexivity.
  - ring.
  - rewrite IH1. exact IH2.
Qed.

Lemma lsum_seq lo len f : lsum (seq lo len) f = sum_n len (fun t => f (lo + t)%nat).
Proof.
  revert lo. induction len as [|len IH]; intros lo; [reflexivity|].
  rewrite seq_S, lsum_app, IH. simpl. ring.
Qed.

Lemma iterate_sum_fst (iter : nat -> accs -> accs) (Dj : nat -> buf) chunk pr a :
  (forall ij pr a, fst (iter ij pr) a = fst pr a + Dj ij a) ->
  fst (fold_left (fun priv ij => iter ij priv) chunk pr) a
    = fst pr a + lsum chunk (fun ij => Dj ij a).
Proof.
  intros H. revert pr. induction chunk as [|ij chunk IH]; intros pr; simpl.
  - ring.
  - rewrite IH, H. ring.
Qed.

Lemma iterate_sum_snd (iter : nat -> accs -> accs) (Dk : nat -> buf) chunk pr a :
  (forall ij pr a, snd (iter ij pr) a = snd pr a + Dk ij a) ->
  snd (fold_left (fun priv ij => iter ij priv) chunk pr) a
    = snd pr a + lsum chunk (fun ij => Dk ij a).
Proof.
  intros H. revert pr. induction chunk as [|ij chunk IH]; intros pr; simpl.
  - ring.
  - rewrite IH, H. ring.
Qed.

Lemma merge_upto m (sh pr : accs) a :
  fst (fold_left (fun sh i => (add_at (fst sh) i (fst pr i), add_at (snd sh) i (snd pr i)))
                 (seq 0 m) sh) a
    = fst sh a + (if (a <? m)%nat then fst pr a else 0)
  /\ snd (fold_left (fun sh i => (add_at (fst sh) i (fst pr i), add_at (snd sh) i (snd pr i)))
                    (seq 0 m) sh) a
    = snd sh a + (if (a <? m)%nat then snd pr a else 0).
Proof.
  induction m as [|m [IH1 IH2]].
  - simpl. split; ring.
  - rewrite seq_S, fold_left_app.
    match type of IH1 with fst ?Y a = _ => set (X := Y) in * end.
    simpl. unfold add_at. rewrite IH1, IH2.
    destruct (Nat.eqb_spec a m) as [->|Hne].
    + rewrite Nat.ltb_irrefl. destruct (Nat.ltb_spec m (S m)); [split; ring|lia].
    + destruct (Nat.ltb_spec a m), (Nat.ltb_spec a (S m)); try lia; split; ring.
Qed.

Lemma merge_spec n sh pr a :
  fst (merge n sh pr) a = fst sh a + (if (a <? n * n)%nat then fst pr a else 0)
  /\ snd (merge n sh pr) a = snd sh a + (if (a <? n * n)%nat then snd pr a else 0).
Proof. apply merge_upto. Qed.

(** The shared matrices after the region: the cleared cells hold the sum of
    the contributions of all iterations of the schedule. *)
Lemma omp_parallel_sum_fst n iter (Dj : nat -> buf) sched vj vk a :
  (forall ij pr a, fst (iter ij pr) a = fst pr a + Dj ij a) ->
  fst (omp_parallel n iter sched vj vk) a
    = (if (a <? n * n)%nat then lsum (concat sched) (fun ij => Dj ij a) else vj a).
Proof.
  intros Hj. unfold omp_parallel.
  assert (G : forall sh : accs,
    fst (fold_left (fun shared chunk => merge n shared (worker iter chunk)) sched sh) a
      = fst sh a + (if (a <? n * n)%nat then lsum (concat sched) (fun ij => Dj ij a) else 0)).
  { induction sched as [|chunk sched IH]; intros sh; cbn [fold_left concat].
    - simpl. destruct (a <? n * n)%nat; ring.
    - rewrite IH. destruct (merge_spec n sh (worker iter chunk) a) as [M _].
      rewrite M. unfold worker. rewrite (iterate_sum_fst iter Dj) by assumption.
      rewrite lsum_app. unfold zeros. simpl.
      destruct (a <? n * n)%nat; ring. }
  rewrite G. unfold memset0. simpl. destruct (a <? n * n)%nat; ring.
Qed.

Lemma omp_parallel_sum_snd n iter (Dk : nat -> buf) sched vj vk a :
  (forall ij pr a, snd (iter ij pr) a = snd pr a + Dk ij a) ->
  snd (omp_parallel n iter sched vj vk) a
    = (if (a <? n * n)%nat then lsum (concat sched) (fun ij => Dk ij a) else vk a).
Proof.
  intros Hk. unfold omp_parallel.
  assert (G : forall sh : accs,
    snd (fold_left (fun shared chunk => merge n shared (worker iter chunk)) sched sh) a
      = snd sh a + (if (a <? n * n)%nat then lsum (concat sched) (fun ij => Dk ij a) else 0)).
  { induction sched as [|chunk sched IH]; intros sh; cbn [fold_left concat].
    - simpl. destruct (a <? n * n)%nat; ring.
    - rewrite IH. destruct (merge_spec n sh (worker iter chunk) a) as [_ M].
      rewrite M. unfold worker. rewrite (iterate_sum_snd iter Dk) by assumption.
      rewrite lsum_app. unfold zeros. simpl.
      destruct (a <? n * n)%nat; ring. }
  rewrite G. unfold memset0. simpl. destruct (a <? n * n)%nat; ring.
Qed.

(** Whatever the kernels, the cleared cells do not depend on what the
    caller's buffers held. *)
Lemma omp_parallel_overwrites n iter sched vj vk vj' vk' a :
  (a < n * n)%nat ->
  fst (omp_parallel n iter sched vj vk) a = fst (omp_parallel n iter sched vj' vk') a
  /\ snd (omp_parallel n iter sched vj vk) a = snd (omp_parallel n iter sched vj' vk') a.
Proof.
  intros Ha. unfold omp_parallel.
  assert (G : forall sh sh' : accs, fst sh a = fst sh' a -> snd sh a = snd sh' a ->
    fst (fold_left (fun shared chunk => merge n shared (worker iter chunk)) sched sh) a
      = fst (fold_left (fun shared chunk => merge n shared (worker iter chunk)) sched sh') a
    /\ snd (fold_left (fun shared chunk => merge n shared (worker iter chunk)) sched sh) a
      = snd (fold_left (fun shared chunk => merge n shared (worker iter chunk)) sched sh') a).
  { induction sched as [|chunk sched IH]; intros sh sh' E1 E2; cbn [fold_left].
    - split; assumption.
    - apply IH.
      + destruct (merge_spec n sh (worker iter chunk) a) as [M _].
        destruct (merge_spec n sh' (worker iter chunk) a) as [M' _].
        rewrite M, M', E1. reflexivity.
      + destruct (merge_spec n sh (worker iter chunk) a) as [_ M].
        destruct (merge_spec n sh' (worker iter chunk) a) as [_ M'].
        rewrite M, M', E2. reflexivity. }
  apply G; unfold memset0; simpl; destruct (Nat.ltb_spec a (n * n)); try lia; reflexivity.
Qed.

(** Contribution of one iteration of each driver, for accumulating kernels. *)
Lemma nrs8_iter_acc eri dmj dmk n fvj fvk :
  accumulating fvj -> accumulating fvk ->
  (forall ij pr a, fst (nrs8_iter eri dmj dmk n fvj fvk ij pr) a
     = fst pr a + fst (nrs8_iter eri dmj dmk n fvj fvk ij (zeros, zeros)) a)
  /\ (forall ij pr a, snd (nrs8_iter eri dmj dmk n fvj fvk ij pr) a
     = snd pr a + snd (nrs8_iter eri dmj dmk n fvj fvk ij (zeros, zeros)) a).
Proof. intros Hj Hk. split; intros; unfold nrs8_iter; simpl; [apply Hj|apply Hk]. Qed.

Lemma nrs4_iter_acc eri dmj dmk n fvj fvk :
  accumulating fvj -> accumulating fvk ->
  (forall ij pr a, fst (nrs4_iter eri dmj dmk n fvj fvk ij pr) a
     = fst pr a + fst (nrs4_iter eri dmj dmk n fvj fvk ij (zeros, zeros)) a)
  /\ (forall ij pr a, snd (nrs4_iter eri dmj dmk n fvj fvk ij pr) a
     = snd pr a + snd (nrs4_iter eri dmj dmk n fvj fvk ij (zeros, zeros)) a).
Proof. intros Hj Hk. split; intros; unfold nrs4_iter; simpl; [apply Hj|apply Hk]. Qed.

Lemma nrs2ij_iter_acc eri dmj dmk n fvj fvk :
  accumulating fvj -> accumulating fvk ->
  (forall ij pr a, fst (nrs2ij_iter eri dmj dmk n fvj fvk ij pr) a
     = fst pr a + fst (nrs2ij_iter eri dmj dmk n fvj fvk ij (zeros, zeros)) a)
  /\ (forall ij pr a, snd (nrs2ij_iter eri dmj dmk n fvj fvk ij pr) a
     = snd pr a + snd (nrs2ij_iter eri dmj dmk n fvj fvk ij (zeros, zeros)) a).
Proof. intros Hj Hk. split; intros; unfold nrs2ij_iter; simpl; [apply Hj|apply Hk]. Qed.

Lemma nrs2kl_iter_acc eri dmj dmk n fvj fvk :
  accumulating fvj -> accumulating fvk ->
  (forall ij pr a, fst (nrs2kl_iter eri dmj dmk n fvj fvk ij pr) a
     = fst pr a + fst (nrs2kl_iter eri dmj dmk n fvj fvk ij (zeros, zeros)) a)
  /\ (forall ij pr a, snd (nrs2kl_iter eri dmj dmk n fvj fvk ij pr) a
     = snd pr a + snd (nrs2kl_iter eri dmj dmk n fvj fvk ij (zeros, zeros)) a).
Proof. intros Hj Hk. split; intros; unfold nrs2kl_iter; simpl; [apply Hj|apply Hk]. Qed.

Lemma nrs1_iter_acc eri dmj dmk n fvj fvk :
  accumulating fvj -> accumulating fvk ->
  (forall ij pr a, fst (nrs1_iter eri dmj dmk n fvj fvk ij pr) a
     = fst pr a + fst (nrs1_iter eri dmj dmk n fvj fvk ij (zeros, zeros)) a)
  /\ (forall ij pr a, snd (nrs1_iter eri dmj dmk n fvj fvk ij pr) a
     = snd pr a + snd (nrs1_iter eri dmj dmk n fvj fvk ij (zeros, zeros)) a).
Proof. intros Hj Hk. split; intros; unfold nrs1_iter; simpl; [apply Hj|apply Hk]. Qed.

(** Any schedule of the iterations leaves what the single pass leaves. *)
Lemma omp_parallel_schedule n iter count sched vj vk a :
  (forall ij pr a, fst (iter ij pr) a = fst pr a + fst (iter ij (zeros, zeros)) a) ->
  (forall ij pr a, snd (iter ij pr) a = snd pr a + snd (iter ij (zeros, zeros)) a) ->
  schedule_of count sched ->
  fst (omp_parallel n iter sched vj vk) a
    = fst (omp_parallel n iter [seq 0 count] vj vk) a
  /\ snd (omp_parallel n iter sched vj vk) a
    = snd (omp_parallel n iter [seq 0 count] vj vk) a.
Proof.
  intros Hj Hk Hs.
  rewrite (omp_parallel_sum_fst n iter _ sched vj vk a Hj).
  rewrite (omp_parallel_sum_fst n iter _ [seq 0 count] vj vk a Hj).
  rewrite (omp_parallel_sum_snd n iter _ sched vj vk a Hk).
  rewrite (omp_parallel_sum_snd n iter _ [seq 0 count] vj vk a Hk).
  simpl concat. rewrite app_nil_r.
  rewrite (lsum_perm _ _ (fun ij => fst (iter ij (zeros, zeros)) a) Hs).
  rewrite (lsum_perm _ _ (fun ij => snd (iter ij (zeros, zeros)) a) Hs).
  split; reflexivity.
Qed.

(** ** Folding a four-index sum onto the stored entries *)

Lemma tsum_ext n g h :
  (forall i j, (j <= i)%nat -> (i < n)%nat -> g i j = h i j) -> tsum n g = tsum n h.
Proof.
  intros H. unfold tsum. apply sum_n_ext. intros i Hi.
  apply sum_n_ext. intros j Hj. apply H; lia.
Qed.

Lemma tsum_add n g h :
  tsum n (fun i j => g i j + h i j) = tsum n g + tsum n h.
Proof.
  unfold tsum. rewrite <- sum_n_add. apply sum_n_ext. intros i _.
  apply sum_n_add.
Qed.

Lemma tsum_S n g : tsum (S n) g = tsum n g + sum_n (S n) (fun j => g n j).
Proof. reflexivity. Qed.

(** A sum over all pairs is the sum over [j <= i] of the folded function. *)
Lemma sum_fold2 n g :
  sum_n n (fun i => sum_n n (fun j => g i j)) = tsum n (sym2 g).
Proof.
  induction n as [|n IH]; [reflexivity|].
  rewrite tsum_S, <- IH. cbn [sum_n].
  rewrite sum_n_add.
  assert (E : sum_n n (fun j => sym2 g n j)
              = sum_n n (fun j => g n j) + sum_n n (fun i => g i n)).
  { rewrite <- sum_n_add. apply sum_n_ext. intros j Hj. unfold sym2.
    destruct (Nat.ltb_spec j n); [reflexivity|lia]. }
  rewrite E. unfold sym2. rewrite Nat.ltb_irrefl. ring.
Qed.

(** A sum over compound indices is the sum over the pairs they encode. *)
Lemma sum_tri n F : sum_n (tri n) F = tsum n (fun i j => F (tri i + j)%nat).
Proof.
  induction n as [|n IH]; [reflexivity|].
  rewrite tsum_S, tri_S, sum_n_app, IH. reflexivity.
Qed.

Lemma tsum_linear n G :
  tsum n G = sum_n (tri n) (fun t => G (fst (tri_dec t)) (snd (tri_dec t))).
Proof.
  rewrite sum_tri. apply tsum_ext. intros i j Hj _.
  rewrite tri_dec_tri by assumption. reflexivity.
Qed.

Lemma sum_fold4 n f :
  sum_n n (fun i => sum_n n (fun j => sum_n n (fun k => sum_n n (fun l => f i j k l))))
  = tsum n (fun i j => tsum n (fun k l => sym4 f i j k l)).
Proof.
  rewrite sum_fold2. apply tsum_ext. intros i j _ _.
  assert (R : forall k l, sym4 f i j k l
              = if (j <? i)%nat then sym2 (f i j) k l + sym2 (f j i) k l
                else sym2 (f i j) k l) by reflexivity.
  transitivity (tsum n (fun k l => if (j <? i)%nat
                                   then sym2 (f i j) k l + sym2 (f j i) k l
                                   else sym2 (f i j) k l));
    [|apply tsum_ext; intros; symmetry; apply R].
  unfold sym2 at 1. destruct (j <? i)%nat.
  - rewrite !sum_fold2, <- tsum_add. reflexivity.
  - apply sum_fold2.
Qed.

(** The full sum of [f] is the sum, over the outer pairs, of what the
    stored entries of each pair stand for. *)
Lemma sum_orbits n f :
  sum_n n (fun i => sum_n n (fun j => sum_n n (fun k => sum_n n (fun l => f i j k l))))
  = tsum n (orbit_sum f).
Proof.
  rewrite sum_fold4.
  set (H := fun t u => sym4 f (fst (tri_dec t)) (snd (tri_dec t))
                              (fst (tri_dec u)) (snd (tri_dec u))).
  transitivity (sum_n (tri n) (fun t => sum_n (tri n) (fun u => H t u))).
  { rewrite tsum_linear. apply sum_n_ext. intros t _.
    rewrite tsum_linear. reflexivity. }
  rewrite sum_fold2. unfold tsum at 1. rewrite sum_tri.
  apply tsum_ext. intros i j Hj Hi. cbn [sum_n].
  unfold orbit_sum. f_equal.
  - rewrite sum_n_app, sum_tri. f_equal.
    + apply tsum_ext. intros k l Hl Hk. unfold sym2.
      assert (Hlt : (tri k + l < tri i + j)%nat) by (apply tri_pair_lt; lia).
      destruct (Nat.ltb_spec (tri k + l) (tri i + j)); [|lia].
      unfold H. rewrite !tri_dec_tri by lia. reflexivity.
    + apply sum_n_ext. intros l Hl. unfold sym2.
      destruct (Nat.ltb_spec (tri i + l) (tri i + j)); [|lia].
      unfold H. rewrite !tri_dec_tri by lia. reflexivity.
  - unfold sym2. rewrite Nat.ltb_irrefl.
    unfold H. rewrite !tri_dec_tri by lia. reflexivity.
Qed.

(** ** Loop shapes shared by the kernels *)

Lemma delta_pair n p q r s :
  (q < n)%nat -> (s < n)%nat ->
  delta (p * n + q) (r * n + s) = delta p r * delta q s.
Proof.
  intros Hq Hs. unfold delta.
  destruct (Nat.eqb_spec p r) as [->|Hpr].
  - destruct (Nat.eqb_spec q s) as [->|Hqs].
    + rewrite Nat.eqb_refl. reflexivity.
    + destruct (Nat.eqb_spec (r * n + q) (r * n + s)); [lia|reflexivity].
  - destruct (Nat.eqb_spec (p * n + q) (r * n + s)) as [E|_]; [|ring].
    exfalso. apply Hpr.
    assert (p * n + q = r * n + s)%nat by exact E. nia.
Qed.

Lemma delta_refl a : delta a a = 1.
Proof. unfold delta. rewrite Nat.eqb_refl. reflexivity. Qed.

Lemma delta_neq a b : a <> b -> delta a b = 0.
Proof. unfold delta. intros H. destruct (Nat.eqb_spec a b); [contradiction|reflexivity]. Qed.

(** [for (l = 0; l < m; l++, kl++) { A(l) }] *)
Lemma hasd_row m (A : nat -> nat -> list (nat * Z)) c :
  hasd (for_ 0 m (fun l => upd (A l) ;; inc 1)) c (c + m)%nat
       (fun a => sum_n m (fun l => blk (A l (c + l)%nat) a)).
Proof.
  eapply hasd_weaken.
  - apply (hasd_for_inc m _ c (fun l a => blk (A l (c + l)%nat) a + 0)).
    intros l Hl. eapply hasd_weaken.
    + eapply hasd_seq; [apply hasd_upd | apply hasd_inc].
    + lia.
    + intros a. reflexivity.
  - reflexivity.
  - intros a. apply sum_n_ext. intros; ring.
Qed.

(** [for (k = 0, kl = 0; k < m; k++) { for (l = 0; l < k; l++, kl++)
    { A(k,l) }  B(k); kl++; }] *)
Lemma hasd_tri_loop m (A : nat -> nat -> nat -> list (nat * Z))
    (B : nat -> nat -> list (nat * Z)) :
  hasd (for_ 0 m (fun k => for_ 0 k (fun l => upd (A k l) ;; inc 1) ;;
                           upd (B k) ;; inc 1))
       0%nat (tri m)
       (fun a => sum_n m (fun k =>
          sum_n k (fun l => blk (A k l (tri k + l)%nat) a)
          + blk (B k (tri k + k)%nat) a)).
Proof.
  eapply hasd_weaken.
  - apply (hasd_for 0 m _ tri
             (fun k a => sum_n k (fun l => blk (A k l (tri k + l)%nat) a)
                         + blk (B k (tri k + k)%nat) a + 0)); [lia|].
    intros k Hk. eapply hasd_weaken.
    + eapply hasd_seq; [eapply hasd_seq; [apply hasd_row | apply hasd_upd] | apply hasd_inc].
    + rewrite tri_S. lia.
    + intros a. reflexivity.
  - reflexivity.
  - intros a. cbv beta. rewrite sum_range_0. apply sum_n_ext. intros; ring.
Qed.

(** The seven other orderings of a stored entry. *)
Lemma s8_orbit n T i j k l :
  s8_symmetric n T -> (i < n)%nat -> (j < n)%nat -> (k < n)%nat -> (l < n)%nat ->
  T j i k l = T i j k l /\ T i j l k = T i j k l /\ T j i l k = T i j k l /\
  T k l i j = T i j k l /\ T l k i j = T i j k l /\ T k l j i = T i j k l /\
  T l k j i = T i j k l.
Proof.
  intros H Hi Hj Hk Hl.
  destruct (H i j k l Hi Hj Hk Hl) as (A1 & A2 & A3).
  destruct (H j i k l Hj Hi Hk Hl) as (B1 & B2 & B3).
  destruct (H i j l k Hi Hj Hl Hk) as (C1 & C2 & C3).
  destruct (H j i l k Hj Hi Hl Hk) as (D1 & D2 & D3).
  repeat split; congruence.
Qed.

(** ** [CVHFnrs8_jk_s1il_o0]: one call adds the orbit of its stored entries *)

Ltac ltb_known :=
  repeat match goal with
    | |- context [(?x <? ?y)%nat] =>
        destruct (Nat.ltb_spec x y); [try lia | try lia]
    end.

Ltac use_orbit H :=
  let E1 := fresh "E" in let E2 := fresh "E" in let E3 := fresh "E" in
  let E4 := fresh "E" in let E5 := fresh "E" in let E6 := fresh "E" in
  let E7 := fresh "E" in
  destruct H as (E1 & E2 & E3 & E4 & E5 & E6 & E7);
  try rewrite E1; try rewrite E2; try rewrite E3; try rewrite E4;
  try rewrite E5; try rewrite E6; try rewrite E7;
  clear E1 E2 E3 E4 E5 E6 E7.

Lemma nrs8_jk_s1il_orbit n T dm eri ic jc p q v :
  s8_symmetric n T -> (jc <= ic)%nat -> (ic < n)%nat -> (p < n)%nat -> (q < n)%nat ->
  (forall k l, (l <= k)%nat -> (tri k + l <= tri ic + jc)%nat ->
     eri (tri k + l)%nat = T ic jc k l) ->
  CVHFnrs8_jk_s1il_o0 eri dm v n ic jc (p * n + q)%nat
  = v (p * n + q)%nat + orbit_sum (fK n T dm p q) ic jc.
Proof.
  intros Hsym Hjc Hic Hp Hq Heri. unfold CVHFnrs8_jk_s1il_o0.
  destruct (Nat.ltb_spec jc ic) as [Hlt|Hge].
  - match goal with |- run ?F v _ = _ =>
      assert (Hd : exists d, hasd F 0%nat (tri ic + jc)%nat d /\
                 d (p * n + q)%nat = orbit_sum (fK n T dm p q) ic jc)
    end.
    { eexists. split.
      - eapply hasd_weaken.
        + eapply hasd_seq; [eapply hasd_seq; [apply hasd_tri_loop | apply hasd_row] | apply hasd_upd].
        + reflexivity.
        + intros a. reflexivity.
      - cbv beta. unfold orbit_sum, tsum. f_equal; [f_equal|].
        + apply sum_n_ext. intros k Hk. cbn [sum_n]. f_equal.
          * apply sum_n_ext. intros l Hl.
            assert (Hkl : (tri k + l < tri ic + jc)%nat) by (apply tri_pair_lt; lia).
            rewrite (Heri k l) by lia.
            unfold sym4, sym2, fK. ltb_known.
            cbn [blk fold_right fst snd addto].
            rewrite !(delta_pair n) by lia.
            use_orbit (s8_orbit n T ic jc k l Hsym ltac:(lia) ltac:(lia) ltac:(lia) ltac:(lia)).
            ring.
          * assert (Hkl : (tri k + k < tri ic + jc)%nat) by (apply tri_pair_lt; lia).
            rewrite (Heri k k) by lia.
            unfold sym4, sym2, fK. ltb_known.
            cbn [blk fold_right fst snd addto].
            rewrite !(delta_pair n) by lia.
            use_orbit (s8_orbit n T ic jc k k Hsym ltac:(lia) ltac:(lia) ltac:(lia) ltac:(lia)).
            ring.
        + apply sum_n_ext. intros l Hl.
          rewrite (Heri ic l) by lia.
          unfold sym4, sym2, fK. ltb_known.
          cbn [blk fold_right fst snd addto].
          rewrite !(delta_pair n) by lia.
          use_orbit (s8_orbit n T ic jc ic l Hsym ltac:(lia) ltac:(lia) ltac:(lia) ltac:(lia)).
          ring.
        + rewrite (Heri ic jc) by lia.
          unfold sym4, sym2, fK. ltb_known.
          cbn [blk fold_right fst snd addto].
          rewrite !(delta_pair n) by lia.
          use_orbit (s8_orbit n T ic jc ic jc Hsym ltac:(lia) ltac:(lia) ltac:(lia) ltac:(lia)).
          ring. }
    destruct Hd as (d & Hd & Hval). destruct (Hd v) as [_ Hv].
    unfold run. rewrite Hv, Hval. reflexivity.
  - assert (jc = ic) by lia. subst jc. rewrite Nat.eqb_refl.
    match goal with |- run ?F v _ = _ =>
      assert (Hd : exists d, hasd F 0%nat (tri ic + ic)%nat d /\
                 d (p * n + q)%nat = orbit_sum (fK n T dm p q) ic ic)
    end.
    { eexists. split.
      - eapply hasd_weaken.
        + eapply hasd_seq; [eapply hasd_seq; [apply hasd_tri_loop | apply hasd_row] | apply hasd_upd].
        + reflexivity.
        + intros a. reflexivity.
      - cbv beta. unfold orbit_sum, tsum. f_equal; [f_equal|].
        + apply sum_n_ext. intros k Hk. cbn [sum_n]. f_equal.
          * apply sum_n_ext. intros l Hl.
            assert (Hkl : (tri k + l < tri ic + ic)%nat) by (apply tri_pair_lt; lia).
            rewrite (Heri k l) by lia.
            unfold sym4, sym2, fK. ltb_known.
            cbn [blk fold_right fst snd addto].
            rewrite !(delta_pair n) by lia.
            use_orbit (s8_orbit n T ic ic k l Hsym ltac:(lia) ltac:(lia) ltac:(lia) ltac:(lia)).
            ring.
          * assert (Hkl : (tri k + k < tri ic + ic)%nat) by (apply tri_pair_lt; lia).
            rewrite (Heri k k) by lia.
            unfold sym4, sym2, fK. ltb_known.
            cbn [blk fold_right fst snd addto].
            rewrite !(delta_pair n) by lia.
            use_orbit (s8_orbit n T ic ic k k Hsym ltac:(lia) ltac:(lia) ltac:(lia) ltac:(lia)).
            ring.
        + apply sum_n_ext. intros l Hl.
          rewrite (Heri ic l) by lia.
          unfold sym4, sym2, fK. ltb_known.
          cbn [blk fold_right fst snd addto].
          rewrite !(delta_pair n) by lia.
          use_orbit (s8_orbit n T ic ic ic l Hsym ltac:(lia) ltac:(lia) ltac:(lia) ltac:(lia)).
          ring.
        + rewrite (Heri ic ic) by lia.
          unfold sym4, sym2, fK. ltb_known.
          cbn [blk fold_right fst snd addto].
          rewrite !(delta_pair n) by lia.
          ring. }
    destruct Hd as (d & Hd & Hval). destruct (Hd v) as [_ Hv].
    unfold run. rewrite Hv, Hval. reflexivity.
Qed.

(** ** The [s8] driver, cell by cell *)

Lemma nrs8_iter_tri eri dmj dmk n fvj fvk i j pr :
  unfold_safe n -> (j <= i)%nat -> (i < n)%nat ->
  nrs8_iter eri dmj dmk n fvj fvk (tri i + j) pr
  = (fvj (shift eri (tri (tri i + j))) dmj (fst pr) n i j,
     fvk (shift eri (tri (tri i + j))) dmk (snd pr) n i j).
Proof.
  intros Hn Hj Hi. unfold nrs8_iter. cbv zeta.
  rewrite tril_row_tri by (unfold unfold_safe in Hn; lia).
  fold (tri i). fold (tri (tri i + j)).
  replace (tri i + j - tri i)%nat with j by lia. reflexivity.
Qed.

Lemma nrs8_drv_vj eri dmj vj dmk vk n fvj fvk a :
  unfold_safe n -> accumulating fvj -> (a < n * n)%nat ->
  fst (CVHFnrs8_incore_drv eri dmj vj dmk vk n fvj fvk) a
  = tsum n (fun i j => fvj (shift eri (tri (tri i + j))) dmj zeros n i j a).
Proof.
  intros Hn Hacc Ha. unfold CVHFnrs8_incore_drv, CVHFnrs8_incore_drv_omp. cbv zeta.
  rewrite (omp_parallel_sum_fst n _
             (fun ij => fst (nrs8_iter eri dmj dmk n fvj fvk ij (zeros, zeros)))).
  2:{ intros ij pr b. unfold nrs8_iter. simpl. apply Hacc. }
  destruct (Nat.ltb_spec a (n * n)); [|lia].
  cbn [concat]. rewrite app_nil_r, lsum_seq.
  change (n * (n + 1) / 2)%nat with (tri n).
  cbn [Nat.add]. rewrite sum_tri. apply tsum_ext. intros i j Hj Hi.
  rewrite nrs8_iter_tri by assumption. reflexivity.
Qed.

Lemma nrs8_drv_vk eri dmj vj dmk vk n fvj fvk a :
  unfold_safe n -> accumulating fvk -> (a < n * n)%nat ->
  snd (CVHFnrs8_incore_drv eri dmj vj dmk vk n fvj fvk) a
  = tsum n (fun i j => fvk (shift eri (tri (tri i + j))) dmk zeros n i j a).
Proof.
  intros Hn Hacc Ha. unfold CVHFnrs8_incore_drv, CVHFnrs8_incore_drv_omp. cbv zeta.
  rewrite (omp_parallel_sum_snd n _
             (fun ij => snd (nrs8_iter eri dmj dmk n fvj fvk ij (zeros, zeros)))).
  2:{ intros ij pr b. unfold nrs8_iter. simpl. apply Hacc. }
  destruct (Nat.ltb_spec a (n * n)); [|lia].
  cbn [concat]. rewrite app_nil_r, lsum_seq.
  change (n * (n + 1) / 2)%nat with (tri n).
  cbn [Nat.add]. rewrite sum_tri. apply tsum_ext. intros i j Hj Hi.
  rewrite nrs8_iter_tri by assumption. reflexivity.
Qed.

Lemma cell_lt n p q : (p < n)%nat -> (q < n)%nat -> (p * n + q < n * n)%nat.
Proof. intros. nia. Qed.

Lemma stored_s8_block n T eri i j :
  stored_s8 n T eri -> (j <= i)%nat -> (i < n)%nat ->
  forall k l, (l <= k)%nat -> (tri k + l <= tri i + j)%nat ->
    shift eri (tri (tri i + j)) (tri k + l)%nat = T i j k l.
Proof. intros H Hj Hi k l Hl Hkl. unfold shift. apply H; assumption. Qed.

(** The dense contractions as sums over all four indices. *)
Lemma fK_sum n T dm p q :
  (p < n)%nat -> (q < n)%nat ->
  sum_n n (fun i => sum_n n (fun j => sum_n n (fun k => sum_n n (fun l =>
    fK n T dm p q i j k l))))
  = dense_vk n T dm p q.
Proof.
  intros Hp Hq. unfold fK, dense_vk.
  transitivity (sum_n n (fun i => delta p i *
    sum_n n (fun j => sum_n n (fun k => T i j k q * dm (j * n + k)%nat)))).
  - apply sum_n_ext. intros i _. rewrite <- sum_n_mul_l.
    apply sum_n_ext. intros j _. rewrite <- sum_n_mul_l.
    apply sum_n_ext. intros k _.
    transitivity (delta p i * sum_n n (fun l => delta q l * (T i j k l * dm (j * n + k)%nat))).
    + rewrite <- sum_n_mul_l. apply sum_n_ext. intros; ring.
    + rewrite (sum_n_delta n q (fun l => T i j k l * dm (j * n + k)%nat)) by assumption.
      reflexivity.
  - rewrite (sum_n_delta n p) by assumption. reflexivity.
Qed.

Lemma fJ_sum n T dm p q :
  (p < n)%nat -> (q < n)%nat ->
  sum_n n (fun i => sum_n n (fun j => sum_n n (fun k => sum_n n (fun l =>
    fJ n T dm p q i j k l))))
  = dense_vj n T dm p q.
Proof.
  intros Hp Hq. unfold fJ, dense_vj.
  transitivity (sum_n n (fun i => delta p i *
    sum_n n (fun j => delta q j *
      sum_n n (fun k => sum_n n (fun l => T i j k l * dm (k * n + l)%nat))))).
  - apply sum_n_ext. intros i _. rewrite <- sum_n_mul_l.
    apply sum_n_ext. intros j _. rewrite <- !sum_n_mul_l.
    apply sum_n_ext. intros k _. rewrite <- !sum_n_mul_l.
    apply sum_n_ext. intros; ring.
  - rewrite (sum_n_delta n p) by assumption.
    rewrite (sum_n_delta n q) by assumption. reflexivity.
Qed.

(** ** [CVHFnrs8_ij_s2kl_o0]: the lower triangle of the orbit *)

Ltac crunch_delta :=
  unfold delta;
  repeat match goal with
    | |- context [Nat.eqb ?a ?b] =>
        destruct (Nat.eqb_spec a b); try (exfalso; lia)
    end;
  first [ ring | exfalso; lia ].

Lemma nrs8_ij_s2kl_orbit n T dm eri ic jc p q v :
  s8_symmetric n T -> (jc <= ic)%nat -> (ic < n)%nat -> (q <= p)%nat -> (p < n)%nat ->
  (forall k l, (l <= k)%nat -> (tri k + l <= tri ic + jc)%nat ->
     eri (tri k + l)%nat = T ic jc k l) ->
  CVHFnrs8_ij_s2kl_o0 eri dm v n ic jc (p * n + q)%nat
  = v (p * n + q)%nat + orbit_sum (fJ n T dm p q) ic jc.
Proof.
  intros Hsym Hjc Hic Hq Hp Heri. unfold CVHFnrs8_ij_s2kl_o0.
  destruct (Nat.ltb_spec jc ic) as [Hlt|Hge].
  - cbv iota. unfold nrs8_ij_s2kl_loops.
    match goal with |- run ?F v _ = _ =>
      assert (Hd : exists d, hasd F 0%nat (tri ic + jc)%nat d /\
                 d (p * n + q)%nat = orbit_sum (fJ n T dm p q) ic jc)
    end.
    { eexists. split.
      - eapply hasd_weaken.
        + eapply hasd_seq; [eapply hasd_seq; [apply hasd_tri_loop | apply hasd_row] | apply hasd_upd].
        + reflexivity.
        + intros a. reflexivity.
      - cbv beta. unfold orbit_sum, tsum. f_equal; [f_equal|].
        + apply sum_n_ext. intros k Hk. cbn [sum_n]. f_equal.
          * apply sum_n_ext. intros l Hl.
            assert (Hkl : (tri k + l < tri ic + jc)%nat) by (apply tri_pair_lt; lia).
            rewrite (Heri k l) by lia.
            unfold sym4, sym2, fJ. ltb_known.
            cbn [blk fold_right fst snd addto].
            rewrite !(delta_pair n) by lia.
            use_orbit (s8_orbit n T ic jc k l Hsym ltac:(lia) ltac:(lia) ltac:(lia) ltac:(lia)).
            crunch_delta.
          * assert (Hkl : (tri k + k < tri ic + jc)%nat) by (apply tri_pair_lt; lia).
            rewrite (Heri k k) by lia.
            unfold sym4, sym2, fJ. ltb_known.
            cbn [blk fold_right fst snd addto].
            rewrite !(delta_pair n) by lia.
            use_orbit (s8_orbit n T ic jc k k Hsym ltac:(lia) ltac:(lia) ltac:(lia) ltac:(lia)).
            crunch_delta.
        + apply sum_n_ext. intros l Hl.
          rewrite (Heri ic l) by lia.
          unfold sym4, sym2, fJ. ltb_known.
          cbn [blk fold_right fst snd addto].
          rewrite !(delta_pair n) by lia.
          use_orbit (s8_orbit n T ic jc ic l Hsym ltac:(lia) ltac:(lia) ltac:(lia) ltac:(lia)).
          crunch_delta.
        + rewrite (Heri ic jc) by lia.
          unfold sym4, sym2, fJ. ltb_known.
          cbn [blk fold_right fst snd addto].
          rewrite !(delta_pair n) by lia.
          use_orbit (s8_orbit n T ic jc ic jc Hsym ltac:(lia) ltac:(lia) ltac:(lia) ltac:(lia)).
          crunch_delta. }
    destruct Hd as (d & Hd & Hval). destruct (Hd v) as [_ Hv].
    unfold run. rewrite Hv, Hval. reflexivity.
  - assert (jc = ic) by lia. subst jc. rewrite Nat.eqb_refl.
    cbv iota. unfold nrs8_ij_s2kl_loops.
    match goal with |- run ?F v _ = _ =>
      assert (Hd : exists d, hasd F 0%nat (tri ic + ic)%nat d /\
                 d (p * n + q)%nat = orbit_sum (fJ n T dm p q) ic ic)
    end.
    { eexists. split.
      - eapply hasd_weaken.
        + eapply hasd_seq; [eapply hasd_seq; [apply hasd_tri_loop | apply hasd_row] | apply hasd_upd].
        + reflexivity.
        + intros a. reflexivity.
      - cbv beta. unfold orbit_sum, tsum. f_equal; [f_equal|].
        + apply sum_n_ext. intros k Hk. cbn [sum_n]. f_equal.
          * apply sum_n_ext. intros l Hl.
            assert (Hkl : (tri k + l < tri ic + ic)%nat) by (apply tri_pair_lt; lia).
            rewrite (Heri k l) by lia.
            unfold sym4, sym2, fJ. ltb_known.
            cbn [blk fold_right fst snd addto].
            rewrite !(delta_pair n) by lia.
            use_orbit (s8_orbit n T ic ic k l Hsym ltac:(lia) ltac:(lia) ltac:(lia) ltac:(lia)).
            crunch_delta.
          * assert (Hkl : (tri k + k < tri ic + ic)%nat) by (apply tri_pair_lt; lia).
            rewrite (Heri k k) by lia.
            unfold sym4, sym2, fJ. ltb_known.
            cbn [blk fold_right fst snd addto].
            rewrite !(delta_pair n) by lia.
            use_orbit (s8_orbit n T ic ic k k Hsym ltac:(lia) ltac:(lia) ltac:(lia) ltac:(lia)).
            crunch_delta.
        + apply sum_n_ext. intros l Hl.
          rewrite (Heri ic l) by lia.
          unfold sym4, sym2, fJ. ltb_known.
          cbn [blk fold_right fst snd addto].
          rewrite !(delta_pair n) by lia.
          use_orbit (s8_orbit n T ic ic ic l Hsym ltac:(lia) ltac:(lia) ltac:(lia) ltac:(lia)).
          crunch_delta.
        + rewrite (Heri ic ic) by lia.
          unfold sym4, sym2, fJ. ltb_known.
          cbn [blk fold_right fst snd addto].
          rewrite !(delta_pair n) by lia.
          crunch_delta. }
    destruct Hd as (d & Hd & Hval). destruct (Hd v) as [_ Hv].
    unfold run. rewrite Hv, Hval. reflexivity.
Qed.

(** ** Loop shapes of [CVHFnrs8_jk_s2il_o0] *)

Lemma hasd_start F c0 c0' c1 d : c0 = c0' -> hasd F c0' c1 d -> hasd F c0 c1 d.
Proof. intros ->. exact (fun H => H). Qed.

(** [for (l = lo; l < hi; l++) { A(l) }], the [eri] pointer not moving. *)
Lemma hasd_row_fixed lo hi (A : nat -> nat -> list (nat * Z)) c :
  (lo <= hi)%nat ->
  hasd (for_ lo hi (fun l => upd (A l))) c c
       (fun a => sum_range lo hi (fun l => blk (A l c) a)).
Proof.
  intros H.
  apply (hasd_for lo hi _ (fun _ => c) (fun l => blk (A l c))); [assumption|].
  intros l _. apply hasd_upd.
Qed.

Lemma hasd_row_fixed0 hi (A : nat -> nat -> list (nat * Z)) c :
  hasd (for_ 0 hi (fun l => upd (A l))) c c
       (fun a => sum_n hi (fun l => blk (A l c) a)).
Proof.
  eapply hasd_weaken.
  - apply (hasd_row_fixed 0 hi A c). lia.
  - reflexivity.
  - intros a. apply sum_range_0.
Qed.

Lemma sum_n_split3 n m f :
  (m < n)%nat -> sum_n n f = sum_n m f + f m + sum_range (S m) n f.
Proof.
  intros H. rewrite (sum_n_split n m) by lia.
  rewrite sum_range_first by lia. ring.
Qed.

Lemma sum_n_pairs m f :
  sum_n (2 * m) f = sum_n m (fun t => f (2 * t)%nat + f (2 * t + 1)%nat).
Proof.
  induction m as [|m IH]; [reflexivity|].
  replace (2 * S m)%nat with (S (S (2 * m))) by lia.
  cbn [sum_n]. rewrite IH.
  replace (S (2 * m)) with (2 * m + 1)%nat by lia. ring.
Qed.

Lemma fold_seq_shift {S : Type} (g : nat -> S -> S) lo len s :
  fold_left (fun s t => g t s) (seq (1 + lo) len) s
  = fold_left (fun s t => g (1 + t)%nat s) (seq lo len) s.
Proof.
  revert lo s. induction len as [|len IH]; intros lo s; [reflexivity|].
  cbn [seq fold_left]. rewrite <- IH. reflexivity.
Qed.

(** The loop with stride 2 runs [m] times when [m] is the first iteration
    count at which its test fails, and leaves [k = k0 + 2*m]. *)
Lemma for_by_two m : forall fuel hi k0 body s,
  (m <= fuel)%nat ->
  (forall t, (t < m)%nat -> (k0 + 2 * t < hi)%nat) ->
  ~ (k0 + 2 * m < hi)%nat ->
  for_by fuel 2 hi k0 body s
  = ((k0 + 2 * m)%nat, fold_left (fun s t => body (k0 + 2 * t)%nat s) (seq 0 m) s).
Proof.
  induction m as [|m IH]; intros fuel hi k0 body s Hf Hlt Hge.
  - replace (k0 + 2 * 0)%nat with k0 in * by lia.
    destruct fuel as [|fuel]; cbn [for_by]; [reflexivity|].
    destruct (Nat.ltb_spec k0 hi); [lia|reflexivity].
  - destruct fuel as [|fuel]; [lia|]. cbn [for_by].
    destruct (Nat.ltb_spec k0 hi) as [_|Hc];
      [|specialize (Hlt 0%nat ltac:(lia)); lia].
    rewrite (IH fuel hi (k0 + 2)%nat body (body k0 s)).
    + f_equal; [lia|].
      cbn [seq fold_left]. replace (k0 + 2 * 0)%nat with k0 by lia.
      rewrite (fold_seq_shift (fun t s => body (k0 + 2 * t)%nat s) 0 m).
      cbv beta.
      assert (E : forall l (s0 : st),
        fold_left (fun s1 t => body (k0 + 2 + 2 * t)%nat s1) l s0
        = fold_left (fun s1 t => body (k0 + 2 * (1 + t))%nat s1) l s0).
      { induction l as [|x l IHl]; intros s0; [reflexivity|]. cbn [fold_left].
        rewrite IHl. replace (k0 + 2 + 2 * x)%nat with (k0 + 2 * (1 + x))%nat by lia.
        reflexivity. }
      apply E.
    + lia.
    + intros t Ht. specialize (Hlt (S t) ltac:(lia)). lia.
    + lia.
Qed.

Lemma half_bounds ic : (2 * (ic / 2) <= ic)%nat /\ (ic < 2 * (ic / 2) + 2)%nat.
Proof.
  pose proof (Nat.div_mod_eq ic 2). pose proof (Nat.mod_upper_bound ic 2). lia.
Qed.

Lemma for_by_half ic body s :
  for_by ic 2 (ic - 1) 0 body s
  = ((2 * (ic / 2))%nat, for_ 0 (ic / 2) (fun t => body (2 * t)%nat) s).
Proof.
  pose proof (half_bounds ic) as [H1 H2].
  rewrite (for_by_two (ic / 2)) by (try intros t Ht; lia).
  unfold for_. rewrite Nat.sub_0_r. reflexivity.
Qed.

(** ** [CVHFnrs8_jk_s2il_o0]: the lower triangle of the orbit *)

Ltac hasd_step :=
  lazymatch goal with
  | |- hasd (seqc _ _) _ _ _ => eapply hasd_seq; [hasd_step | hasd_step]
  | |- hasd (upd _) _ _ _ => apply hasd_upd
  | |- hasd (inc _) _ _ _ => apply hasd_inc
  | |- hasd (for_ 0 _ (fun l => upd (@?A l))) _ _ _ => apply hasd_row_fixed0
  | |- hasd (for_ _ _ (fun l => upd (@?A l))) _ _ _ => apply hasd_row_fixed; lia
  | |- hasd (for_ 0 _ _) _ _ _ =>
      eapply (hasd_for 0 _ _ tri);
      [ lia
      | intros ? ?; eapply hasd_weaken;
        [ hasd_step | rewrite tri_S; lia | intros ?; reflexivity ] ]
  | |- hasd (for_ (?j + 1) _ _) _ _ _ =>
      eapply (hasd_start _ _ (tri (j + 1)));
      [ replace (j + 1)%nat with (S j) by lia; rewrite tri_S; lia
      | eapply (hasd_for (j + 1) _ _ tri);
        [ lia
        | intros ? ?; eapply hasd_weaken;
          [ hasd_step | rewrite tri_S; lia | intros ?; reflexivity ] ] ]
  end.

Lemma add4 (A B C D A' B' C' D' : Z) :
  A = A' -> B = B' -> C = C' -> D = D' ->
  A + B + (C + D + 0) = A' + B' + C' + D'.
Proof. intros. subst. ring. Qed.

Ltac orbit_term fdef n T ic jc k l Hsym Heri :=
  let Hkl := fresh "Hkl" in
  assert (Hkl : (tri k + l <= tri ic + jc)%nat)
    by (first [lia | apply Nat.lt_le_incl, tri_pair_lt; lia]);
  rewrite ?(Heri k l) by lia;
  unfold sym4, sym2, fdef; ltb_known;
  cbn [blk fold_right fst snd addto];
  rewrite !(delta_pair n) by lia;
  use_orbit (s8_orbit n T ic jc k l Hsym ltac:(lia) ltac:(lia) ltac:(lia) ltac:(lia));
  crunch_delta.

Lemma add6 (A B C D E F A' B' C' D' E' F' : Z) :
  A = A' -> B = B' -> C = C' -> D = D' -> E = E' -> F = F' ->
  A + B + C + D + E + F = A' + (B' + C') + D' + E' + F'.
Proof. intros. subst. ring. Qed.

Lemma nrs8_jk_s2il_orbit n T dm eri ic jc p q v :
  s8_symmetric n T -> (jc <= ic)%nat -> (ic < n)%nat -> (q <= p)%nat -> (p < n)%nat ->
  (forall k l, (l <= k)%nat -> (tri k + l <= tri ic + jc)%nat ->
     eri (tri k + l)%nat = T ic jc k l) ->
  CVHFnrs8_jk_s2il_o0 eri dm v n ic jc (p * n + q)%nat
  = v (p * n + q)%nat + orbit_sum (fK n T dm p q) ic jc.
Proof.
  intros Hsym Hjc Hic Hq Hp Heri. unfold CVHFnrs8_jk_s2il_o0.
  destruct (Nat.ltb_spec jc ic) as [Hlt|Hge].
  - match goal with |- run ?F v _ = _ =>
      assert (Hd : exists d, hasd F 0%nat (tri ic + (jc + 1))%nat d /\
                 d (p * n + q)%nat = orbit_sum (fK n T dm p q) ic jc)
    end.
    { eexists. split.
      - eapply hasd_weaken.
        + hasd_step.
        + reflexivity.
        + intros a. reflexivity.
      - cbv beta. unfold orbit_sum, tsum.
        rewrite (sum_n_split3 ic jc) by lia.
        rewrite sum_range_0, !Z.add_0_r.
        replace (jc + 1)%nat with (S jc) by lia.
        cbn [sum_n]. apply add6.
        + apply sum_n_ext. intros k Hk. rewrite Z.add_0_r. f_equal.
          * apply sum_n_ext. intros l Hl.
            orbit_term fK n T ic jc k l Hsym Heri.
          * orbit_term fK n T ic jc k k Hsym Heri.
        + apply sum_n_ext. intros l Hl. orbit_term fK n T ic jc jc l Hsym Heri.
        + orbit_term fK n T ic jc jc jc Hsym Heri.
        + apply sum_range_ext. intros k Hk. rewrite Z.add_0_r.
          rewrite (sum_n_split3 k jc) by lia.
          f_equal; [f_equal; [f_equal|]|].
          * apply sum_n_ext. intros l Hl. orbit_term fK n T ic jc k l Hsym Heri.
          * orbit_term fK n T ic jc k jc Hsym Heri.
          * apply sum_range_ext. intros l Hl. orbit_term fK n T ic jc k l Hsym Heri.
          * orbit_term fK n T ic jc k k Hsym Heri.
        + apply sum_n_ext. intros l Hl. orbit_term fK n T ic jc ic l Hsym Heri.
        + orbit_term fK n T ic jc ic jc Hsym Heri. }
    destruct Hd as (d & Hd & Hval). destruct (Hd v) as [_ Hv].
    unfold run. rewrite Hv, Hval. reflexivity.
  - assert (jc = ic) by lia. subst jc. rewrite Nat.eqb_refl.
    rewrite for_by_half. cbv iota zeta beta.
    pose proof (half_bounds ic) as [Hh1 Hh2].
    rewrite (Nat.max_r _ _ Hh1).
    match goal with |- snd (?G (?F2 (?F1 (0%nat, v)))) _ = _ =>
      change (run (seqc (seqc F1 F2) G) v (p * n + q)%nat
              = v (p * n + q)%nat + orbit_sum (fK n T dm p q) ic ic);
      assert (Hd : exists d, hasd (seqc (seqc F1 F2) G) 0%nat (tri ic + (ic + 1))%nat d /\
                 d (p * n + q)%nat = orbit_sum (fK n T dm p q) ic ic)
    end.
    { eexists. split.
      - eapply hasd_weaken.
        + eapply hasd_seq; [eapply hasd_seq|].
          * eapply (hasd_for 0 (ic / 2) _ (fun t => tri (2 * t))); [lia|].
            intros t Ht. eapply hasd_weaken.
            -- hasd_step.
            -- replace (2 * S t)%nat with (S (S (2 * t))) by lia.
               rewrite !tri_S. lia.
            -- intros a. reflexivity.
          * eapply (hasd_for (2 * (ic / 2)) ic _ tri); [lia|].
            intros k Hk. eapply hasd_weaken.
            -- hasd_step.
            -- rewrite tri_S. lia.
            -- intros a. reflexivity.
          * hasd_step.
        + reflexivity.
        + intros a. reflexivity.
      - cbv beta. unfold orbit_sum, tsum.
        match goal with |- _ = sum_n ic ?X + _ + _ =>
          rewrite (sum_n_split ic (2 * (ic / 2)) X) by lia;
          rewrite (sum_n_pairs (ic / 2) X)
        end.
        rewrite sum_range_0. apply add4.
        + apply sum_n_ext. intros t Ht.
          replace (2 * t + 1)%nat with (S (2 * t)) by lia.
          set (k := (2 * t)%nat) in *.
          assert (Hk : (S k < ic)%nat) by lia.
          cbn [sum_n]. rewrite !Z.add_0_r.
          match goal with
          | |- sum_n k ?a + ?b + ?c = sum_n k ?g + ?gk + (sum_n k ?g' + ?g'k + ?g'k') =>
              assert (H1 : sum_n k a = sum_n k g + sum_n k g');
              [|assert (H2 : b = gk);
                [|assert (H3 : c = g'k + g'k'); [|rewrite H1, H2, H3; ring]]]
          end.
          * rewrite <- sum_n_add. apply sum_n_ext. intros l Hl.
            replace (tri k + (l + k + 1))%nat with (tri (S k) + l)%nat
              by (rewrite tri_S; lia).
            replace (ic * n + k + 1)%nat with (ic * n + S k)%nat by lia.
            assert (Hkl : (tri (S k) + l < tri ic + ic)%nat) by (apply tri_pair_lt; lia).
            assert (Hkl' : (tri k + l < tri ic + ic)%nat) by (apply tri_pair_lt; lia).
            rewrite (Heri k l), (Heri (S k) l) by lia.
            unfold sym4, sym2, fK. ltb_known.
            cbn [blk fold_right fst snd addto].
            rewrite !(delta_pair n) by lia.
            use_orbit (s8_orbit n T ic ic k l Hsym ltac:(lia) ltac:(lia) ltac:(lia) ltac:(lia)).
            use_orbit (s8_orbit n T ic ic (S k) l Hsym ltac:(lia) ltac:(lia) ltac:(lia) ltac:(lia)).
            crunch_delta.
          * orbit_term fK n T ic ic k k Hsym Heri.
          * replace (tri k + S k + k)%nat with (tri (S k) + k)%nat
              by (rewrite tri_S; lia).
            replace (tri k + S k + S k)%nat with (tri (S k) + S k)%nat
              by (rewrite tri_S; lia).
            replace (ic * n + k + 1)%nat with (ic * n + S k)%nat by lia.
            assert (Hkl : (tri (S k) + S k < tri ic + ic)%nat) by (apply tri_pair_lt; lia).
            rewrite (Heri (S k) k), (Heri (S k) (S k)) by lia.
            unfold sym4, sym2, fK. ltb_known.
            cbn [blk fold_right fst snd addto].
            rewrite !(delta_pair n) by lia.
            use_orbit (s8_orbit n T ic ic (S k) k Hsym ltac:(lia) ltac:(lia) ltac:(lia) ltac:(lia)).
            use_orbit (s8_orbit n T ic ic (S k) (S k) Hsym ltac:(lia) ltac:(lia) ltac:(lia) ltac:(lia)).
            crunch_delta.
        + apply sum_range_ext. intros k Hk. cbn [sum_n]. rewrite Z.add_0_r. f_equal.
          * apply sum_n_ext. intros l Hl. orbit_term fK n T ic ic k l Hsym Heri.
          * orbit_term fK n T ic ic k k Hsym Heri.
        + apply sum_n_ext. intros l Hl. orbit_term fK n T ic ic ic l Hsym Heri.
        + orbit_term fK n T ic ic ic ic Hsym Heri. }
    destruct Hd as (d & Hd & Hval). destruct (Hd v) as [_ Hv].
    unfold run. rewrite Hv, Hval. reflexivity.
Qed.

(** For a symmetric [dm] the dense exchange matrix is symmetric. *)
Lemma dense_vk_sym n T dm p q :
  s8_symmetric n T -> hermitian n dm -> (p < n)%nat -> (q < n)%nat ->
  dense_vk n T dm p q = dense_vk n T dm q p.
Proof.
  intros Hsym Hdm Hp Hq. unfold dense_vk.
  rewrite (sum_n_swap n n (fun j k => T q j k p * dm (j * n + k)%nat)).
  apply sum_n_ext. intros j Hj. apply sum_n_ext. intros k Hk.
  rewrite (Hdm k j Hk Hj).
  destruct (s8_orbit n T p j k q Hsym Hp Hj Hk Hq) as (_ & _ & _ & _ & _ & _ & E).
  rewrite E. reflexivity.
Qed.

(** ** Frame of [CVHFnrs8_jk_s1il_o0] *)

Ltac blk_zero n :=
  cbn [blk fold_right fst snd addto];
  rewrite !(delta_pair n) by lia;
  crunch_delta.

(** ** The [s1] driver with [CVHFnrs1_kl_s1ij] *)

Lemma sum_rect m n F :
  sum_n (m * n) F = sum_n m (fun i => sum_n n (fun j => F (i * n + j)%nat)).
Proof.
  induction m as [|m IH]; [reflexivity|].
  replace (S m * n)%nat with (m * n + n)%nat by lia.
  rewrite sum_n_app, IH. reflexivity.
Qed.

Lemma fold_left_sum_n n f :
  fold_left (fun acc i => acc + f i) (seq 0 n) 0 = sum_n n f.
Proof.
  induction n as [|n IH]; [reflexivity|].
  rewrite seq_S, fold_left_app, IH. reflexivity.
Qed.

Lemma ddot_sum n dx dy :
  ddot_ n dx 1 dy 1 = sum_n n (fun t => dx t * dy t).
Proof.
  unfold ddot_. rewrite fold_left_sum_n. apply sum_n_ext.
  intros t _. rewrite Nat.mul_1_r. reflexivity.
Qed.

Lemma nrs1_iter_cell eri dmj dmk n fvj fvk i j pr :
  (j < n)%nat ->
  nrs1_iter eri dmj dmk n fvj fvk (i * n + j) pr
  = (fvj (shift eri ((i * n + j) * n * n)) dmj (fst pr) n i j,
     fvk (shift eri ((i * n + j) * n * n)) dmk (snd pr) n i j).
Proof.
  intros Hj. unfold nrs1_iter. cbv zeta.
  assert (E : ((i * n + j) / n = i)%nat).
  { rewrite Nat.div_add_l by lia. rewrite Nat.div_small by lia. lia. }
  rewrite E. replace (i * n + j - i * n)%nat with j by lia. reflexivity.
Qed.

Lemma nrs1_drv_vj eri dmj vj dmk vk n fvj fvk a :
  accumulating fvj -> (a < n * n)%nat ->
  fst (CVHFnrs1_incore_drv eri dmj vj dmk vk n fvj fvk) a
  = sum_n n (fun i => sum_n n (fun j =>
      fvj (shift eri ((i * n + j) * n * n)) dmj zeros n i j a)).
Proof.
  intros Hacc Ha. unfold CVHFnrs1_incore_drv, CVHFnrs1_incore_drv_omp.
  rewrite (omp_parallel_sum_fst n _
             (fun ij => fst (nrs1_iter eri dmj dmk n fvj fvk ij (zeros, zeros)))).
  2:{ intros ij pr b. unfold nrs1_iter. simpl. apply Hacc. }
  destruct (Nat.ltb_spec a (n * n)); [|lia].
  cbn [concat]. rewrite app_nil_r, lsum_seq. cbn [Nat.add].
  rewrite sum_rect. apply sum_n_ext. intros i Hi. apply sum_n_ext. intros j Hj.
  rewrite nrs1_iter_cell by assumption. reflexivity.
Qed.

Lemma nrs1_kl_s1ij_cell eri dm v n ic jc a :
  CVHFnrs1_kl_s1ij eri dm v n ic jc a
  = v a + delta a (ic * n + jc) * sum_n (n * n) (fun t => eri t * dm t).
Proof.
  unfold CVHFnrs1_kl_s1ij. cbv zeta.
  match goal with |- run (upd ?f) v a = _ =>
    destruct (hasd_upd f 0%nat v) as [_ H]; unfold run; rewrite H
  end.
  cbn [blk fold_right fst snd addto].
  rewrite ddot_sum. ring.
Qed.

Lemma nrs1_kl_s1ij_dense n T eri dmj vj dmk vk fvk p q :
  stored_s1 n T eri -> (p < n)%nat -> (q < n)%nat ->
  fst (CVHFnrs1_incore_drv eri dmj vj dmk vk n CVHFnrs1_kl_s1ij fvk) (p * n + q)%nat
  = dense_vj n T dmj p q.
Proof.
  intros Hst Hp Hq.
  rewrite nrs1_drv_vj; [|exact acc_nrs1_kl_s1ij|apply cell_lt; assumption].
  transitivity (sum_n n (fun i => delta p i * sum_n n (fun j => delta q j *
                  dense_vj n T dmj i j))).
  - apply sum_n_ext. intros i Hi. rewrite <- sum_n_mul_l.
    apply sum_n_ext. intros j Hj.
    rewrite nrs1_kl_s1ij_cell, (delta_pair n) by assumption.
    unfold zeros, dense_vj. rewrite sum_rect.
    assert (E : sum_n n (fun k => sum_n n (fun l =>
                  shift eri ((i * n + j) * n * n) (k * n + l)%nat * dmj (k * n + l)%nat))
              = sum_n n (fun k => sum_n n (fun l => T i j k l * dmj (k * n + l)%nat))).
    { apply sum_n_ext. intros k Hk. apply sum_n_ext. intros l Hl.
      unfold shift. rewrite (Hst i j k l) by assumption. reflexivity. }
    rewrite E. ring.
  - rewrite (sum_n_delta n p) by assumption.
    rewrite (sum_n_delta n q) by assumption. reflexivity.
Qed.

Lemma identity_cell n k l :
  (k < n)%nat -> (l < n)%nat -> identity n (k * n + l)%nat = delta l k.
Proof.
  intros Hk Hl. unfold identity, delta.
  rewrite Nat.div_add_l by lia. rewrite Nat.div_small by lia.
  rewrite Nat.add_0_r.
  rewrite Nat.add_comm, Nat.Div0.mod_add, Nat.mod_small by lia.
  rewrite Nat.eqb_sym. reflexivity.
Qed.

Lemma dense_vj_identity n T i j :
  dense_vj n T (identity n) i j = sum_n n (fun k => T i j k k).
Proof.
  unfold dense_vj. apply sum_n_ext. intros k Hk.
  transitivity (sum_n n (fun l => delta k l * T i j k l)).
  - apply sum_n_ext. intros l Hl. rewrite identity_cell by assumption.
    unfold delta. rewrite Nat.eqb_sym. ring.
  - apply sum_n_delta. assumption.
Qed.

(** ** Example data *)

Lemma pack_s8_stored n T : stored_s8 n T (pack_s8 T).
Proof.
  intros i j k l Hj Hi Hl Hkl. unfold pack_s8.
  rewrite tri_dec_tri by assumption.
  rewrite !tri_dec_tri by assumption. reflexivity.
Qed.

Lemma ex_T_symmetric n : s8_symmetric n ex_T.
Proof.
  intros i j k l _ _ _ _. unfold ex_T.
  repeat split; f_equal; f_equal; lia.
Qed.

Lemma pack_s1_stored n T : stored_s1 n T (pack_s1 n T).
Proof.
  intros i j k l Hi Hj Hk Hl. unfold pack_s1.
  assert (Hkl : (k * n + l < n * n)%nat) by nia.
  assert (E1 : (((i * n + j) * n * n + (k * n + l)) / (n * n) = i * n + j)%nat).
  { replace ((i * n + j) * n * n)%nat with ((i * n + j) * (n * n))%nat by lia.
    rewrite Nat.div_add_l by lia. rewrite Nat.div_small by lia. lia. }
  assert (E2 : (((i * n + j) * n * n + (k * n + l)) mod (n * n) = k * n + l)%nat).
  { replace ((i * n + j) * n * n)%nat with ((i * n + j) * (n * n))%nat by lia.
    rewrite Nat.add_comm, Nat.Div0.mod_add. apply Nat.mod_small. lia. }
  assert (E3 : (((i * n + j) * n * n + (k * n + l)) mod n = l)%nat).
  { replace ((i * n + j) * n * n + (k * n + l))%nat
      with (l + ((i * n + j) * n + k) * n)%nat by lia.
    rewrite Nat.Div0.mod_add. apply Nat.mod_small. lia. }
  rewrite E1, E2, E3.
  rewrite Nat.div_add_l by lia. rewrite (Nat.div_small j n) by lia.
  rewrite (Nat.add_comm (i * n) j), Nat.Div0.mod_add, (Nat.mod_small j n) by lia.
  rewrite Nat.div_add_l by lia. rewrite (Nat.div_small l n) by lia.
  rewrite !Nat.add_0_r. reflexivity.
Qed.

(** * The claims *)

(** C1: for every size [n] on which the unfolding is exact, every
    [s8]-symmetric tensor [T] stored in the compact [s8] layout and every
    density matrix, the [vj] left by [CVHFnrs8_incore_drv] with J-kernel
    [CVHFnrs8_ij_s2kl] is, on every cell [i >= j], the dense contraction
    [sum_{k,l} T[i,j,k,l] * dm[k,l]]. *)
Theorem nrs8_vj_is_dense_einsum :
  forall n T eri dmj vj dmk vk (fvk : kernel) i j,
    unfold_safe n -> s8_symmetric n T -> stored_s8 n T eri ->
    (j <= i)%nat -> (i < n)%nat ->
    fst (CVHFnrs8_incore_drv eri dmj vj dmk vk n CVHFnrs8_ij_s2kl fvk) (i * n + j)%nat
    = dense_vj n T dmj i j.
Proof.
  intros n T eri dmj vj dmk vk fvk p q Hn Hsym Hst Hq Hp.
  rewrite nrs8_drv_vj; [|assumption|exact acc_nrs8_ij_s2kl_o0|apply cell_lt; lia].
  rewrite <- fJ_sum by lia. rewrite sum_orbits.
  apply tsum_ext. intros i j Hj Hi. unfold CVHFnrs8_ij_s2kl.
  rewrite (nrs8_ij_s2kl_orbit n T dmj _ i j p q zeros Hsym Hj Hi Hq Hp
             (stored_s8_block n T eri i j Hst Hj Hi)).
  unfold zeros. ring.
Qed.

Lemma nrs8_vj_is_dense_einsum_witness :
  fst (CVHFnrs8_incore_drv (pack_s8 ex_T) ex_dm zeros ex_dm zeros 3
         CVHFnrs8_ij_s2kl CVHFnrs8_jk_s1il) (2 * 3 + 1)%nat
  = dense_vj 3 ex_T ex_dm 2 1.
Proof.
  apply (nrs8_vj_is_dense_einsum 3 ex_T (pack_s8 ex_T)).
  - unfold unfold_safe. simpl. lia.
  - apply ex_T_symmetric.
  - apply pack_s8_stored.
  - lia.
  - lia.
Defined.

(** C2: under the same assumptions, the [vk] left by
    [CVHFnrs8_incore_drv] with K-kernel [CVHFnrs8_jk_s1il] is, on every
    cell, the dense contraction [sum_{j,k} T[i,j,k,l] * dm[j,k]]: every
    stored entry reaches each of its symmetry-equivalent orderings exactly
    once, diagonal cases included. *)
Theorem nrs8_vk_s1il_is_dense_einsum :
  forall n T eri dmj vj dmk vk (fvj : kernel) i l,
    unfold_safe n -> s8_symmetric n T -> stored_s8 n T eri ->
    (i < n)%nat -> (l < n)%nat ->
    snd (CVHFnrs8_incore_drv eri dmj vj dmk vk n fvj CVHFnrs8_jk_s1il) (i * n + l)%nat
    = dense_vk n T dmk i l.
Proof.
  intros n T eri dmj vj dmk vk fvj p q Hn Hsym Hst Hp Hq.
  rewrite nrs8_drv_vk; [|assumption|exact acc_nrs8_jk_s1il_o0|apply cell_lt; assumption].
  rewrite <- fK_sum by assumption. rewrite sum_orbits.
  apply tsum_ext. intros i j Hj Hi. unfold CVHFnrs8_jk_s1il.
  rewrite (nrs8_jk_s1il_orbit n T dmk _ i j p q zeros Hsym Hj Hi Hp Hq
             (stored_s8_block n T eri i j Hst Hj Hi)).
  unfold zeros. ring.
Qed.

Lemma nrs8_vk_s1il_is_dense_einsum_witness :
  snd (CVHFnrs8_incore_drv (pack_s8 ex_T) ex_dm zeros ex_dm zeros 3
         CVHFnrs8_ij_s2kl CVHFnrs8_jk_s1il) (1 * 3 + 2)%nat
  = dense_vk 3 ex_T ex_dm 1 2.
Proof.
  apply (nrs8_vk_s1il_is_dense_einsum 3 ex_T (pack_s8 ex_T)).
  - unfold unfold_safe. simpl. lia.
  - apply ex_T_symmetric.
  - apply pack_s8_stored.
  - lia.
  - lia.
Defined.

(** C3, as the spec states it, fails: with [CVHFnrs8_jk_s2il] the driver
    fills the lower triangle only.  For [n = 2], the all-ones tensor and
    the identity density matrix, [vk[1,0]] is 2 and [vk[0,1]] is 0. *)
Lemma nrs8_vk_s2il_not_symmetric :
  s8_symmetric 2 (fun _ _ _ _ => 1)
  /\ stored_s8 2 (fun _ _ _ _ => 1) (fun _ => 1)
  /\ hermitian 2 (identity 2)
  /\ snd (CVHFnrs8_incore_drv (fun _ => 1) (identity 2) zeros (identity 2) zeros 2
            CVHFnrs8_ij_s2kl CVHFnrs8_jk_s2il) (1 * 2 + 0)%nat
     <> snd (CVHFnrs8_incore_drv (fun _ => 1) (identity 2) zeros (identity 2) zeros 2
            CVHFnrs8_ij_s2kl CVHFnrs8_jk_s2il) (0 * 2 + 1)%nat.
Proof.
  split; [|split; [|split]].
  - intros i j k l _ _ _ _. repeat split.
  - intros i j k l _ _ _ _. reflexivity.
  - intros i j Hi Hj.
    destruct i as [|[|i]]; try lia; destruct j as [|[|j]]; try lia; reflexivity.
  - vm_compute. discriminate.
Qed.

(** C3, amended: for a symmetric [dm], the [vk] left by
    [CVHFnrs8_incore_drv] with K-kernel [CVHFnrs8_jk_s2il] holds, on every
    cell [i >= j] of the lower triangle, the entry of the dense exchange
    matrix [sum_{j',k} T[i,j',k,j] * dm[j',k]], which is exactly symmetric
    (it is also the dense entry [j,i]); the cells above the diagonal are
    left to the caller. *)
Theorem nrs8_vk_s2il_lower_triangle :
  forall n T eri dmj vj dmk vk (fvj : kernel) i j,
    unfold_safe n -> s8_symmetric n T -> stored_s8 n T eri -> hermitian n dmk ->
    (j <= i)%nat -> (i < n)%nat ->
    snd (CVHFnrs8_incore_drv eri dmj vj dmk vk n fvj CVHFnrs8_jk_s2il) (i * n + j)%nat
    = dense_vk n T dmk i j
    /\ dense_vk n T dmk i j = dense_vk n T dmk j i.
Proof.
  intros n T eri dmj vj dmk vk fvj p q Hn Hsym Hst Hdm Hq Hp. split.
  - rewrite nrs8_drv_vk; [|assumption|exact acc_nrs8_jk_s2il_o0|apply cell_lt; lia].
    rewrite <- fK_sum by lia. rewrite sum_orbits.
    apply tsum_ext. intros i j Hj Hi. unfold CVHFnrs8_jk_s2il.
    rewrite (nrs8_jk_s2il_orbit n T dmk _ i j p q zeros Hsym Hj Hi Hq Hp
               (stored_s8_block n T eri i j Hst Hj Hi)).
    unfold zeros. ring.
  - apply dense_vk_sym; try assumption; lia.
Qed.

Lemma nrs8_vk_s2il_lower_triangle_witness :
  snd (CVHFnrs8_incore_drv (pack_s8 ex_T) ex_dm zeros (identity 3) zeros 3
         CVHFnrs8_ij_s2kl CVHFnrs8_jk_s2il) (2 * 3 + 1)%nat
  = dense_vk 3 ex_T (identity 3) 2 1
  /\ dense_vk 3 ex_T (identity 3) 2 1 = dense_vk 3 ex_T (identity 3) 1 2.
Proof.
  apply (nrs8_vk_s2il_lower_triangle 3 ex_T (pack_s8 ex_T)).
  - unfold unfold_safe. simpl. lia.
  - apply ex_T_symmetric.
  - apply pack_s8_stored.
  - intros i j Hi Hj.
    destruct i as [|[|[|i]]]; try lia; destruct j as [|[|[|j]]]; try lia; reflexivity.
  - lia.
  - lia.
Defined.

(** C4: over exact arithmetic, for each of the five drivers and every pair
    of kernels of this file, any distribution of the outer-pair iterations
    over workers with private accumulators, visited and merged in any
    order, leaves the same [vj] and [vk] as the single sequential pass. *)
Theorem drivers_schedule_independent :
  forall (kj kk : kernel_name) eri dmj vj dmk vk n sched_tri sched_sq a,
    schedule_of (n * (n + 1) / 2) sched_tri ->
    schedule_of (n * n) sched_sq ->
    let fvj := kernel_fn kj in
    let fvk := kernel_fn kk in
    (fst (CVHFnrs8_incore_drv_omp sched_tri eri dmj vj dmk vk n fvj fvk) a
       = fst (CVHFnrs8_incore_drv eri dmj vj dmk vk n fvj fvk) a
     /\ snd (CVHFnrs8_incore_drv_omp sched_tri eri dmj vj dmk vk n fvj fvk) a
       = snd (CVHFnrs8_incore_drv eri dmj vj dmk vk n fvj fvk) a)
    /\ (fst (CVHFnrs4_incore_drv_omp sched_tri eri dmj vj dmk vk n fvj fvk) a
       = fst (CVHFnrs4_incore_drv eri dmj vj dmk vk n fvj fvk) a
     /\ snd (CVHFnrs4_incore_drv_omp sched_tri eri dmj vj dmk vk n fvj fvk) a
       = snd (CVHFnrs4_incore_drv eri dmj vj dmk vk n fvj fvk) a)
    /\ (fst (CVHFnrs2ij_incore_drv_omp sched_tri eri dmj vj dmk vk n fvj fvk) a
       = fst (CVHFnrs2ij_incore_drv eri dmj vj dmk vk n fvj fvk) a
     /\ snd (CVHFnrs2ij_incore_drv_omp sched_tri eri dmj vj dmk vk n fvj fvk) a
       = snd (CVHFnrs2ij_incore_drv eri dmj vj dmk vk n fvj fvk) a)
    /\ (fst (CVHFnrs2kl_incore_drv_omp sched_sq eri dmj vj dmk vk n fvj fvk) a
       = fst (CVHFnrs2kl_incore_drv eri dmj vj dmk vk n fvj fvk) a
     /\ snd (CVHFnrs2kl_incore_drv_omp sched_sq eri dmj vj dmk vk n fvj fvk) a
       = snd (CVHFnrs2kl_incore_drv eri dmj vj dmk vk n fvj fvk) a)
    /\ (fst (CVHFnrs1_incore_drv_omp sched_sq eri dmj vj dmk vk n fvj fvk) a
       = fst (CVHFnrs1_incore_drv eri dmj vj dmk vk n fvj fvk) a
     /\ snd (CVHFnrs1_incore_drv_omp sched_sq eri dmj vj dmk vk n fvj fvk) a
       = snd (CVHFnrs1_incore_drv eri dmj vj dmk vk n fvj fvk) a).
Proof.
  intros kj kk eri dmj vj dmk vk n sched_tri sched_sq a Htri Hsq fvj fvk.
  assert (Hj : accumulating fvj) by apply kernel_fn_accumulating.
  assert (Hk : accumulating fvk) by apply kernel_fn_accumulating.
  repeat split.
  - apply omp_parallel_schedule; [apply nrs8_iter_acc | apply nrs8_iter_acc |]; assumption.
  - apply omp_parallel_schedule; [apply nrs8_iter_acc | apply nrs8_iter_acc |]; assumption.
  - apply omp_parallel_schedule; [apply nrs4_iter_acc | apply nrs4_iter_acc |]; assumption.
  - apply omp_parallel_schedule; [apply nrs4_iter_acc | apply nrs4_iter_acc |]; assumption.
  - apply omp_parallel_schedule; [apply nrs2ij_iter_acc | apply nrs2ij_iter_acc |]; assumption.
  - apply omp_parallel_schedule; [apply nrs2ij_iter_acc | apply nrs2ij_iter_acc |]; assumption.
  - apply omp_parallel_schedule; [apply nrs2kl_iter_acc | apply nrs2kl_iter_acc |]; assumption.
  - apply omp_parallel_schedule; [apply nrs2kl_iter_acc | apply nrs2kl_iter_acc |]; assumption.
  - apply omp_parallel_schedule; [apply nrs1_iter_acc | apply nrs1_iter_acc |]; assumption.
  - apply omp_parallel_schedule; [apply nrs1_iter_acc | apply nrs1_iter_acc |]; assumption.
Qed.

Lemma drivers_schedule_independent_witness :
  schedule_of (2 * (2 + 1) / 2) [[2; 0]; [1]]%nat
  /\ schedule_of (2 * 2) [[3; 1]; []; [0; 2]]%nat
  /\ fst (CVHFnrs8_incore_drv_omp [[2; 0]; [1]]%nat (pack_s8 ex_T) ex_dm zeros ex_dm zeros 2
            (kernel_fn nrs8_ij_s2kl) (kernel_fn nrs8_jk_s2il)) 2%nat
     = fst (CVHFnrs8_incore_drv (pack_s8 ex_T) ex_dm zeros ex_dm zeros 2
            (kernel_fn nrs8_ij_s2kl) (kernel_fn nrs8_jk_s2il)) 2%nat.
Proof.
  assert (H1 : schedule_of (2 * (2 + 1) / 2) [[2; 0]; [1]]%nat).
  { unfold schedule_of. simpl.
    apply perm_trans with [0; 2; 1]%nat; [apply perm_swap|].
    apply perm_skip, perm_swap. }
  assert (H2 : schedule_of (2 * 2) [[3; 1]; []; [0; 2]]%nat).
  { unfold schedule_of. simpl.
    apply perm_trans with [1; 3; 0; 2]%nat; [apply perm_swap|].
    apply perm_trans with [1; 0; 3; 2]%nat; [apply perm_skip, perm_swap|].
    apply perm_trans with [0; 1; 3; 2]%nat; [apply perm_swap|].
    apply perm_skip, perm_skip, perm_swap. }
  split; [exact H1|split; [exact H2|]].
  exact (proj1 (proj1 (drivers_schedule_independent nrs8_ij_s2kl nrs8_jk_s2il
                         (pack_s8 ex_T) ex_dm zeros ex_dm zeros 2
                         [[2; 0]; [1]]%nat [[3; 1]; []; [0; 2]]%nat 2%nat H1 H2))).
Defined.

(** Read over exact reals, the unfolding recovers the unique triangular
    pair on every size up to 9999999. *)
Lemma tril_row_recovers_pair :
  forall n idx,
    unfold_safe n -> (idx < n * (n + 1) / 2)%nat ->
    let ic := tril_row idx in
    let jc := (idx - ic * (ic + 1) / 2)%nat in
    (ic * (ic + 1) / 2 + jc = idx)%nat /\ (jc <= ic)%nat /\ (ic < n)%nat
    /\ forall i j, (j <= i)%nat -> (i * (i + 1) / 2 + j = idx)%nat -> i = ic /\ j = jc.
Proof.
  intros n idx Hn Hidx. cbv zeta.
  change (idx < tri n)%nat in Hidx.
  destruct (tri_decompose n idx Hidx) as (i & j & Hj & Hi & ->).
  rewrite tril_row_tri by (unfold unfold_safe in Hn; lia).
  fold (tri i). replace (tri i + j - tri i)%nat with j by lia.
  split; [lia|split; [lia|split; [lia|]]].
  intros i0 j0 Hj0 H0. fold (tri i0) in H0.
  assert (i0 = i).
  { destruct (Nat.lt_trichotomy i0 i) as [Hlt|[Heq|Hgt]]; [|assumption|].
    - assert (tri i0 + j0 < tri i + j)%nat by (apply tri_pair_lt; lia). lia.
    - assert (tri i + j < tri i0 + j0)%nat by (apply tri_pair_lt; lia). lia. }
  subst i0. lia.
Qed.

(** C5: in IEEE binary64 arithmetic, for every size [n] up to [2^23 - 1]
    and every compound index [idx < n*(n+1)/2], the drivers' unfolding
    [ic = (int)(sqrt(2*idx + .25) - .5 + 1e-7)], [jc = idx - ic*(ic+1)/2]
    recovers the unique triangular pair: [ic*(ic+1)/2 + jc = idx] with
    [0 <= jc <= ic < n]; and whenever [n*(n+1)] fits the [int] in which
    the drivers compute [npair] ([n <= 46340]), the [int] and [size_t]
    operations of line 621 give this [jc] without wrapping. *)
Theorem tril_unfolding_recovers_pair :
  forall n idx,
    unfold_safe_f64 n -> (idx < n * (n + 1) / 2)%nat ->
    let ic := tril_row_f64 (Z.of_nat idx) in
    let jc := Z.of_nat idx - ic * (ic + 1) / 2 in
    ic * (ic + 1) / 2 + jc = Z.of_nat idx /\ 0 <= jc <= ic /\ ic < Z.of_nat n
    /\ (forall i j, 0 <= j <= i -> i * (i + 1) / 2 + j = Z.of_nat idx ->
          i = ic /\ j = jc)
    /\ (Z.of_nat n <= 46340 -> tril_unfold (Z.of_nat idx) = (ic, jc)).
Proof.
  unfold unfold_safe_f64. intros n idx Hn Hidx. cbv zeta.
  change (idx < tri n)%nat in Hidx.
  destruct (tri_decompose n idx Hidx) as (i & j & Hj & Hi & ->).
  rewrite tril_row_f64_tri by lia. rewrite tri_Z.
  replace (Z.of_nat (tri i + j) - Z.of_nat (tri i)) with (Z.of_nat j) by lia.
  split; [lia|split; [lia|split; [lia|split]]].
  - intros i' j' Hj' H. apply (tri_Z_unique i j); assumption.
  - intros Hint. apply tril_unfold_tri; lia.
Qed.

Lemma tril_unfolding_recovers_pair_witness :
  let ic := tril_row_f64 (Z.of_nat 7) in
  let jc := Z.of_nat 7 - ic * (ic + 1) / 2 in
  ic * (ic + 1) / 2 + jc = Z.of_nat 7 /\ 0 <= jc <= ic /\ ic < Z.of_nat 4
  /\ (forall i j, 0 <= j <= i -> i * (i + 1) / 2 + j = Z.of_nat 7 ->
        i = ic /\ j = jc)
  /\ (Z.of_nat 4 <= 46340 -> tril_unfold (Z.of_nat 7) = (ic, jc)).
Proof.
  apply (tril_unfolding_recovers_pair 4 7).
  - unfold unfold_safe_f64. simpl. lia.
  - simpl. lia.
Defined.

(** C6: every kernel of a triangular outer-pair class that branches on the
    outer pair leaves the accumulator unchanged when called with
    [ic < jc]. *)
Theorem upper_pair_is_noop :
  forall eri dm v n ic jc,
    (ic < jc)%nat ->
    CVHFnrs8_ij_s2kl_o0 eri dm v n ic jc = v
    /\ CVHFnrs4_ij_s2kl_o0 eri dm v n ic jc = v
    /\ CVHFnrs8_jk_s1il_o0 eri dm v n ic jc = v
    /\ CVHFnrs8_jk_s2il_o0 eri dm v n ic jc = v
    /\ CVHFnrs4_jk_s1il_o0 eri dm v n ic jc = v
    /\ CVHFnrs4_jk_s2il_o0 eri dm v n ic jc = v
    /\ CVHFnrs2ij_ij_s1kl eri dm v n ic jc = v
    /\ CVHFnrs2ij_jk_s1il eri dm v n ic jc = v
    /\ CVHFnrs2ij_il_s1jk eri dm v n ic jc = v
    /\ CVHFnrs2ij_kl_s2ij eri dm v n ic jc = v
    /\ CVHFnrs4_kl_s2ij eri dm v n ic jc = v.
Proof.
  intros eri dm v n ic jc H.
  assert (E1 : (jc <? ic)%nat = false) by (apply Nat.ltb_ge; lia).
  assert (E2 : (ic =? jc)%nat = false) by (apply Nat.eqb_neq; lia).
  assert (E3 : (ic <? jc)%nat = true) by (apply Nat.ltb_lt; lia).
  assert (E4 : (jc <=? ic)%nat = false) by (apply Nat.leb_gt; lia).
  unfold CVHFnrs8_ij_s2kl_o0, CVHFnrs4_ij_s2kl_o0, CVHFnrs8_jk_s1il_o0,
    CVHFnrs8_jk_s2il_o0, CVHFnrs4_jk_s1il_o0, CVHFnrs4_jk_s2il_o0,
    CVHFnrs2ij_ij_s1kl, CVHFnrs2ij_jk_s1il, CVHFnrs2ij_il_s1jk,
    CVHFnrs2ij_kl_s2ij, CVHFnrs4_kl_s2ij.
  rewrite E1, E2, E3, E4. repeat split.
Qed.

Lemma upper_pair_is_noop_witness :
  CVHFnrs8_ij_s2kl_o0 (pack_s8 ex_T) ex_dm ex_dm 3 0 2 = ex_dm
  /\ CVHFnrs4_ij_s2kl_o0 (pack_s8 ex_T) ex_dm ex_dm 3 0 2 = ex_dm
  /\ CVHFnrs8_jk_s1il_o0 (pack_s8 ex_T) ex_dm ex_dm 3 0 2 = ex_dm
  /\ CVHFnrs8_jk_s2il_o0 (pack_s8 ex_T) ex_dm ex_dm 3 0 2 = ex_dm
  /\ CVHFnrs4_jk_s1il_o0 (pack_s8 ex_T) ex_dm ex_dm 3 0 2 = ex_dm
  /\ CVHFnrs4_jk_s2il_o0 (pack_s8 ex_T) ex_dm ex_dm 3 0 2 = ex_dm
  /\ CVHFnrs2ij_ij_s1kl (pack_s8 ex_T) ex_dm ex_dm 3 0 2 = ex_dm
  /\ CVHFnrs2ij_jk_s1il (pack_s8 ex_T) ex_dm ex_dm 3 0 2 = ex_dm
  /\ CVHFnrs2ij_il_s1jk (pack_s8 ex_T) ex_dm ex_dm 3 0 2 = ex_dm
  /\ CVHFnrs2ij_kl_s2ij (pack_s8 ex_T) ex_dm ex_dm 3 0 2 = ex_dm
  /\ CVHFnrs4_kl_s2ij (pack_s8 ex_T) ex_dm ex_dm 3 0 2 = ex_dm.
Proof.
  apply (upper_pair_is_noop (pack_s8 ex_T) ex_dm ex_dm 3 0 2). lia.
Defined.

(** C7: the alias kernels are their targets: on every input,
    [CVHFnrs4_il_s1jk] leaves what [CVHFnrs4_jk_s1il] leaves and
    [CVHFnrs4_il_s2jk] leaves what [CVHFnrs4_jk_s2il] leaves. *)
Theorem alias_kernels_equal_targets :
  forall eri dm vk n ic jc,
    CVHFnrs4_il_s1jk eri dm vk n ic jc = CVHFnrs4_jk_s1il eri dm vk n ic jc
    /\ CVHFnrs4_il_s2jk eri dm vk n ic jc = CVHFnrs4_jk_s2il eri dm vk n ic jc.
Proof. intros. split; reflexivity. Qed.

(** C8: for each of the five drivers and whatever kernels it is given, two
    runs on the same [eri], [dmj], [dmk] and [n] that start from different
    contents of the caller's [vj] and [vk] leave the same value in every
    cell of the two [n*n] matrices. *)
Theorem drivers_overwrite_outputs :
  forall (fvj fvk : kernel) eri dmj dmk n vj vk vj' vk' a,
    (a < n * n)%nat ->
    (fst (CVHFnrs8_incore_drv eri dmj vj dmk vk n fvj fvk) a
       = fst (CVHFnrs8_incore_drv eri dmj vj' dmk vk' n fvj fvk) a
     /\ snd (CVHFnrs8_incore_drv eri dmj vj dmk vk n fvj fvk) a
       = snd (CVHFnrs8_incore_drv eri dmj vj' dmk vk' n fvj fvk) a)
    /\ (fst (CVHFnrs4_incore_drv eri dmj vj dmk vk n fvj fvk) a
       = fst (CVHFnrs4_incore_drv eri dmj vj' dmk vk' n fvj fvk) a
     /\ snd (CVHFnrs4_incore_drv eri dmj vj dmk vk n fvj fvk) a
       = snd (CVHFnrs4_incore_drv eri dmj vj' dmk vk' n fvj fvk) a)
    /\ (fst (CVHFnrs2ij_incore_drv eri dmj vj dmk vk n fvj fvk) a
       = fst (CVHFnrs2ij_incore_drv eri dmj vj' dmk vk' n fvj fvk) a
     /\ snd (CVHFnrs2ij_incore_drv eri dmj vj dmk vk n fvj fvk) a
       = snd (CVHFnrs2ij_incore_drv eri dmj vj' dmk vk' n fvj fvk) a)
    /\ (fst (CVHFnrs2kl_incore_drv eri dmj vj dmk vk n fvj fvk) a
       = fst (CVHFnrs2kl_incore_drv eri dmj vj' dmk vk' n fvj fvk) a
     /\ snd (CVHFnrs2kl_incore_drv eri dmj vj dmk vk n fvj fvk) a
       = snd (CVHFnrs2kl_incore_drv eri dmj vj' dmk vk' n fvj fvk) a)
    /\ (fst (CVHFnrs1_incore_drv eri dmj vj dmk vk n fvj fvk) a
       = fst (CVHFnrs1_incore_drv eri dmj vj' dmk vk' n fvj fvk) a
     /\ snd (CVHFnrs1_incore_drv eri dmj vj dmk vk n fvj fvk) a
       = snd (CVHFnrs1_incore_drv eri dmj vj' dmk vk' n fvj fvk) a).
Proof.
  intros fvj fvk eri dmj dmk n vj vk vj' vk' a Ha.
  repeat apply conj; apply omp_parallel_overwrites; assumption.
Qed.

Lemma drivers_overwrite_outputs_witness :
  fst (CVHFnrs8_incore_drv (pack_s8 ex_T) ex_dm zeros ex_dm ex_dm 2
         CVHFnrs8_ij_s2kl CVHFnrs8_jk_s1il) 3%nat
  = fst (CVHFnrs8_incore_drv (pack_s8 ex_T) ex_dm ex_dm ex_dm zeros 2
         CVHFnrs8_ij_s2kl CVHFnrs8_jk_s1il) 3%nat.
Proof.
  refine (proj1 (proj1 (drivers_overwrite_outputs CVHFnrs8_ij_s2kl CVHFnrs8_jk_s1il
                          (pack_s8 ex_T) ex_dm ex_dm 2 zeros ex_dm ex_dm zeros 3%nat _))).
  simpl. lia.
Defined.

(** C9: for every [n > 0] (in particular [n = 3]), a dense tensor [T] in
    the [s1] layout and the identity density matrix, the [vj] left by
    [CVHFnrs1_incore_drv] with J-kernel [CVHFnrs1_kl_s1ij] holds
    [sum_k T[i,j,k,k]] in every cell [(i,j)]. *)
Theorem nrs1_vj_identity_is_trace :
  forall n T eri vj dmk vk (fvk : kernel) i j,
    stored_s1 n T eri -> (i < n)%nat -> (j < n)%nat ->
    fst (CVHFnrs1_incore_drv eri (identity n) vj dmk vk n CVHFnrs1_kl_s1ij fvk)
        (i * n + j)%nat
    = sum_n n (fun k => T i j k k).
Proof.
  intros n T eri vj dmk vk fvk i j Hst Hi Hj.
  rewrite (nrs1_kl_s1ij_dense n T) by assumption.
  apply dense_vj_identity.
Qed.

Lemma nrs1_vj_identity_is_trace_witness :
  fst (CVHFnrs1_incore_drv (pack_s1 3 ex_T1) (identity 3) ex_dm ex_dm zeros 3
         CVHFnrs1_kl_s1ij CVHFnrs1_jk_s1il) (2 * 3 + 1)%nat
  = sum_n 3 (fun k => ex_T1 2%nat 1%nat k k).
Proof.
  apply (nrs1_vj_identity_is_trace 3 ex_T1 (pack_s1 3 ex_T1)).
  - apply pack_s1_stored.
  - lia.
  - lia.
Defined.

(** C10: one call of [CVHFnrs8_jk_s1il_o0] with [ic, jc < n] changes no
    cell [vk[a,b]] whose row [a] and column [b] both differ from [ic] and
    from [jc]. *)
Theorem nrs8_jk_s1il_touches_only_pair_rows_cols :
  forall eri dm vk n ic jc a b,
    (ic < n)%nat -> (jc < n)%nat -> (b < n)%nat ->
    a <> ic -> a <> jc -> b <> ic -> b <> jc ->
    CVHFnrs8_jk_s1il_o0 eri dm vk n ic jc (a * n + b)%nat = vk (a * n + b)%nat.
Proof.
  intros eri dm vk n ic jc a b Hic Hjc Hb Ha1 Ha2 Hb1 Hb2. unfold CVHFnrs8_jk_s1il_o0.
  destruct (Nat.ltb_spec jc ic) as [Hlt|Hge];
    [|destruct (Nat.eqb_spec ic jc) as [Heq|Hne]; [subst jc|reflexivity]].
  - match goal with |- run ?F vk _ = _ =>
      assert (Hd : exists d, hasd F 0%nat (tri ic + jc)%nat d /\ d (a * n + b)%nat = 0)
    end.
    { eexists. split.
      - eapply hasd_weaken.
        + eapply hasd_seq; [eapply hasd_seq; [apply hasd_tri_loop | apply hasd_row] | apply hasd_upd].
        + reflexivity.
        + intros c. reflexivity.
      - cbv beta.
        rewrite (sum_n_zero ic), (sum_n_zero jc).
        + blk_zero n.
        + intros l Hl. blk_zero n.
        + intros k Hk. rewrite (sum_n_zero k).
          * blk_zero n.
          * intros l Hl. blk_zero n. }
    destruct Hd as (d & Hd & Hval). destruct (Hd vk) as [_ Hv].
    unfold run. rewrite Hv, Hval. ring.
  - match goal with |- run ?F vk _ = _ =>
      assert (Hd : exists d, hasd F 0%nat (tri ic + ic)%nat d /\ d (a * n + b)%nat = 0)
    end.
    { eexists. split.
      - eapply hasd_weaken.
        + eapply hasd_seq; [eapply hasd_seq; [apply hasd_tri_loop | apply hasd_row] | apply hasd_upd].
        + reflexivity.
        + intros c. reflexivity.
      - cbv beta.
        rewrite (sum_n_zero ic).
        + rewrite (sum_n_zero ic).
          * blk_zero n.
          * intros l Hl. blk_zero n.
        + intros k Hk. rewrite (sum_n_zero k).
          * blk_zero n.
          * intros l Hl. blk_zero n. }
    destruct Hd as (d & Hd & Hval). destruct (Hd vk) as [_ Hv].
    unfold run. rewrite Hv, Hval. ring.
Qed.

Lemma nrs8_jk_s1il_touches_only_pair_rows_cols_witness :
  CVHFnrs8_jk_s1il_o0 (pack_s8 ex_T) ex_dm ex_dm 4 3 1 (2 * 4 + 0)%nat
  = ex_dm (2 * 4 + 0)%nat.
Proof.
  apply (nrs8_jk_s1il_touches_only_pair_rows_cols (pack_s8 ex_T) ex_dm ex_dm 4 3 1 2 0);
    lia.
Defined.

(** * Further properties of the kernels and drivers *)

(** ** Tools *)

Ltac by_delta derive finish :=
  lazymatch goal with
  | |- run ?F ?v ?a = ?v ?a + ?tgt =>
      let Hd := fresh "Hd" in
      assert (Hd : exists c d, hasd F 0%nat c d /\ d a = tgt);
      [ eexists; eexists; split; [ derive | cbv beta; finish ]
      | let c := fresh "c" in let d := fresh "d" in
        let Hh := fresh "Hh" in let Hval := fresh "Hval" in
        let Hv := fresh "Hv" in
        destruct Hd as (c & d & Hh & Hval); destruct (Hh v) as [_ Hv];
        unfold run; rewrite Hv, Hval; reflexivity ]
  end.

(** [for (k = 0, kl = 0; k < m; k++) for (l = 0; l < n; l++, kl++) { A(k,l) }] *)
Lemma hasd_rect m n (A : nat -> nat -> nat -> list (nat * Z)) :
  hasd (for_ 0 m (fun k => for_ 0 n (fun l => upd (A k l) ;; inc 1)))
       0%nat (m * n)%nat
       (fun a => sum_n m (fun k => sum_n n (fun l => blk (A k l (k * n + l)%nat) a))).
Proof.
  eapply hasd_weaken.
  - apply (hasd_for 0 m _ (fun k => (k * n)%nat)
             (fun k a => sum_n n (fun l => blk (A k l (k * n + l)%nat) a))); [lia|].
    intros k Hk. eapply hasd_weaken.
    + apply hasd_row.
    + lia.
    + intros a. reflexivity.
  - reflexivity.
  - intros a. cbv beta. apply sum_range_0.
Qed.

(** [for (i = 0; i < n*n; i++) { A(i) }] read as a double loop. *)
Lemma hasd_flat n (A : nat -> nat -> list (nat * Z)) c :
  hasd (for_ 0 (n * n) (fun i => upd (A i))) c c
       (fun a => sum_n n (fun k => sum_n n (fun l => blk (A (k * n + l)%nat c) a))).
Proof.
  eapply hasd_weaken.
  - apply hasd_row_fixed0.
  - reflexivity.
  - intros a. cbv beta. apply sum_rect.
Qed.

Lemma fI_sum n T dm p q :
  (p < n)%nat -> (q < n)%nat ->
  sum_n n (fun i => sum_n n (fun j => sum_n n (fun k => sum_n n (fun l =>
    fI n T dm p q i j k l))))
  = dense_ij_kl n T dm p q.
Proof.
  intros Hp Hq. unfold fI, dense_ij_kl.
  apply sum_n_ext. intros i _. apply sum_n_ext. intros j _.
  transitivity (sum_n n (fun k => delta p k *
                  sum_n n (fun l => delta q l * (T i j k l * dm (i * n + j)%nat)))).
  - apply sum_n_ext. intros k _. rewrite <- sum_n_mul_l.
    apply sum_n_ext. intros; ring.
  - rewrite (sum_n_delta n p) by assumption.
    rewrite (sum_n_delta n q) by assumption. reflexivity.
Qed.

Lemma fL_sum n T dm p q :
  (p < n)%nat -> (q < n)%nat ->
  sum_n n (fun i => sum_n n (fun j => sum_n n (fun k => sum_n n (fun l =>
    fL n T dm p q i j k l))))
  = dense_il_jk n T dm p q.
Proof.
  intros Hp Hq. unfold fL, dense_il_jk.
  apply sum_n_ext. intros i _.
  transitivity (sum_n n (fun j => delta p j *
                  sum_n n (fun k => delta q k *
                    sum_n n (fun l => T i j k l * dm (i * n + l)%nat)))).
  - apply sum_n_ext. intros j _. rewrite <- sum_n_mul_l.
    apply sum_n_ext. intros k _. rewrite <- !sum_n_mul_l.
    apply sum_n_ext. intros; ring.
  - rewrite (sum_n_delta n p) by assumption.
    rewrite (sum_n_delta n q) by assumption. reflexivity.
Qed.

(** ** The [s1] driver *)

Lemma nrs1_drv_vk eri dmj vj dmk vk n fvj fvk a :
  accumulating fvk -> (a < n * n)%nat ->
  snd (CVHFnrs1_incore_drv eri dmj vj dmk vk n fvj fvk) a
  = sum_n n (fun i => sum_n n (fun j =>
      fvk (shift eri ((i * n + j) * n * n)) dmk zeros n i j a)).
Proof.
  intros Hacc Ha. unfold CVHFnrs1_incore_drv, CVHFnrs1_incore_drv_omp.
  rewrite (omp_parallel_sum_snd n _
             (fun ij => snd (nrs1_iter eri dmj dmk n fvj fvk ij (zeros, zeros)))).
  2:{ intros ij pr b. unfold nrs1_iter. simpl. apply Hacc. }
  destruct (Nat.ltb_spec a (n * n)); [|lia].
  cbn [concat]. rewrite app_nil_r, lsum_seq. cbn [Nat.add].
  rewrite sum_rect. apply sum_n_ext. intros i Hi. apply sum_n_ext. intros j Hj.
  rewrite nrs1_iter_cell by assumption. reflexivity.
Qed.

Lemma stored_s1_block n T eri i j :
  stored_s1 n T eri -> (i < n)%nat -> (j < n)%nat ->
  forall k l, (k < n)%nat -> (l < n)%nat ->
    shift eri ((i * n + j) * n * n) (k * n + l)%nat = T i j k l.
Proof. intros H Hi Hj k l Hk Hl. unfold shift. apply H; assumption. Qed.

Ltac rect_term n :=
  cbn [blk fold_right fst snd addto];
  rewrite ?(delta_pair n) by lia;
  crunch_delta.

Lemma nrs1_jk_s1il_cell n T dm eri ic jc p q v :
  (ic < n)%nat -> (jc < n)%nat -> (p < n)%nat -> (q < n)%nat ->
  (forall k l, (k < n)%nat -> (l < n)%nat -> eri (k * n + l)%nat = T ic jc k l) ->
  CVHFnrs1_jk_s1il eri dm v n ic jc (p * n + q)%nat
  = v (p * n + q)%nat
    + sum_n n (fun k => sum_n n (fun l => fK n T dm p q ic jc k l)).
Proof.
  intros Hic Hjc Hp Hq Heri. unfold CVHFnrs1_jk_s1il.
  by_delta ltac:(apply hasd_rect)
           ltac:(apply sum_n_ext; intros k Hk; apply sum_n_ext; intros l Hl;
                 rewrite (Heri k l) by lia; unfold fK; rect_term n).
Qed.

Lemma nrs1_il_s1jk_cell n T dm eri ic jc p q v :
  (ic < n)%nat -> (jc < n)%nat -> (p < n)%nat -> (q < n)%nat ->
  (forall k l, (k < n)%nat -> (l < n)%nat -> eri (k * n + l)%nat = T ic jc k l) ->
  CVHFnrs1_il_s1jk eri dm v n ic jc (p * n + q)%nat
  = v (p * n + q)%nat
    + sum_n n (fun k => sum_n n (fun l => fL n T dm p q ic jc k l)).
Proof.
  intros Hic Hjc Hp Hq Heri. unfold CVHFnrs1_il_s1jk.
  by_delta ltac:(apply hasd_rect)
           ltac:(apply sum_n_ext; intros k Hk; apply sum_n_ext; intros l Hl;
                 rewrite (Heri k l) by lia; unfold fL; rect_term n).
Qed.

Lemma nrs1_ij_s1kl_cell n T dm eri ic jc p q v :
  (ic < n)%nat -> (jc < n)%nat -> (p < n)%nat -> (q < n)%nat ->
  (forall k l, (k < n)%nat -> (l < n)%nat -> eri (k * n + l)%nat = T ic jc k l) ->
  CVHFnrs1_ij_s1kl eri dm v n ic jc (p * n + q)%nat
  = v (p * n + q)%nat
    + sum_n n (fun k => sum_n n (fun l => fI n T dm p q ic jc k l)).
Proof.
  intros Hic Hjc Hp Hq Heri. unfold CVHFnrs1_ij_s1kl. cbv zeta.
  by_delta ltac:(apply hasd_flat)
           ltac:(apply sum_n_ext; intros k Hk; apply sum_n_ext; intros l Hl;
                 rewrite (Heri k l) by lia; unfold fI; rect_term n).
Qed.

(** ** The [s1] driver computes the dense contractions *)

(** X1: on a dense tensor in the [s1] layout, [CVHFnrs1_incore_drv] with
    J-kernel [CVHFnrs1_ij_s1kl] leaves [sum_{i,j} T[i,j,k,l]*dm[i,j]] in
    every cell [(k,l)] of [vj]. *)
Theorem nrs1_vj_ij_s1kl_is_dense :
  forall n T eri dmj vj dmk vk (fvk : kernel) p q,
    stored_s1 n T eri -> (p < n)%nat -> (q < n)%nat ->
    fst (CVHFnrs1_incore_drv eri dmj vj dmk vk n CVHFnrs1_ij_s1kl fvk) (p * n + q)%nat
    = dense_ij_kl n T dmj p q.
Proof.
  intros n T eri dmj vj dmk vk fvk p q Hst Hp Hq.
  rewrite nrs1_drv_vj; [|exact acc_nrs1_ij_s1kl|apply cell_lt; assumption].
  rewrite <- fI_sum by assumption.
  apply sum_n_ext. intros i Hi. apply sum_n_ext. intros j Hj.
  rewrite (nrs1_ij_s1kl_cell n T dmj _ i j p q zeros Hi Hj Hp Hq
             (stored_s1_block n T eri i j Hst Hi Hj)).
  unfold zeros. ring.
Qed.

Lemma nrs1_vj_ij_s1kl_is_dense_witness :
  fst (CVHFnrs1_incore_drv (pack_s1 3 ex_T1) ex_dm zeros ex_dm zeros 3
         CVHFnrs1_ij_s1kl CVHFnrs1_jk_s1il) (1 * 3 + 2)%nat
  = dense_ij_kl 3 ex_T1 ex_dm 1 2.
Proof.
  apply (nrs1_vj_ij_s1kl_is_dense 3 ex_T1 (pack_s1 3 ex_T1)).
  - apply pack_s1_stored.
  - lia.
  - lia.
Defined.

(** X2: on a dense tensor in the [s1] layout, [CVHFnrs1_incore_drv] with
    J-kernel [CVHFnrs1_kl_s1ij] leaves [sum_{k,l} T[i,j,k,l]*dm[k,l]] in
    every cell [(i,j)] of [vj], for any density matrix. *)
Theorem nrs1_vj_kl_s1ij_is_dense :
  forall n T eri dmj vj dmk vk (fvk : kernel) p q,
    stored_s1 n T eri -> (p < n)%nat -> (q < n)%nat ->
    fst (CVHFnrs1_incore_drv eri dmj vj dmk vk n CVHFnrs1_kl_s1ij fvk) (p * n + q)%nat
    = dense_vj n T dmj p q.
Proof.
  intros n T eri dmj vj dmk vk fvk p q Hst Hp Hq.
  apply nrs1_kl_s1ij_dense; assumption.
Qed.

Lemma nrs1_vj_kl_s1ij_is_dense_witness :
  fst (CVHFnrs1_incore_drv (pack_s1 3 ex_T1) ex_dm zeros ex_dm zeros 3
         CVHFnrs1_kl_s1ij CVHFnrs1_jk_s1il) (1 * 3 + 2)%nat
  = dense_vj 3 ex_T1 ex_dm 1 2.
Proof.
  apply (nrs1_vj_kl_s1ij_is_dense 3 ex_T1 (pack_s1 3 ex_T1)).
  - apply pack_s1_stored.
  - lia.
  - lia.
Defined.

(** X3: on a dense tensor in the [s1] layout, [CVHFnrs1_incore_drv] with
    K-kernel [CVHFnrs1_jk_s1il] leaves [sum_{j,k} T[i,j,k,l]*dm[j,k]] in
    every cell [(i,l)] of [vk]. *)
Theorem nrs1_vk_jk_s1il_is_dense :
  forall n T eri dmj vj dmk vk (fvj : kernel) p q,
    stored_s1 n T eri -> (p < n)%nat -> (q < n)%nat ->
    snd (CVHFnrs1_incore_drv eri dmj vj dmk vk n fvj CVHFnrs1_jk_s1il) (p * n + q)%nat
    = dense_vk n T dmk p q.
Proof.
  intros n T eri dmj vj dmk vk fvj p q Hst Hp Hq.
  rewrite nrs1_drv_vk; [|exact acc_nrs1_jk_s1il|apply cell_lt; assumption].
  rewrite <- fK_sum by assumption.
  apply sum_n_ext. intros i Hi. apply sum_n_ext. intros j Hj.
  rewrite (nrs1_jk_s1il_cell n T dmk _ i j p q zeros Hi Hj Hp Hq
             (stored_s1_block n T eri i j Hst Hi Hj)).
  unfold zeros. ring.
Qed.

Lemma nrs1_vk_jk_s1il_is_dense_witness :
  snd (CVHFnrs1_incore_drv (pack_s1 3 ex_T1) ex_dm zeros ex_dm zeros 3
         CVHFnrs1_ij_s1kl CVHFnrs1_jk_s1il) (2 * 3 + 0)%nat
  = dense_vk 3 ex_T1 ex_dm 2 0.
Proof.
  apply (nrs1_vk_jk_s1il_is_dense 3 ex_T1 (pack_s1 3 ex_T1)).
  - apply pack_s1_stored.
  - lia.
  - lia.
Defined.

(** X4: on a dense tensor in the [s1] layout, [CVHFnrs1_incore_drv] with
    K-kernel [CVHFnrs1_il_s1jk] leaves [sum_{i,l} T[i,j,k,l]*dm[i,l]] in
    every cell [(j,k)] of [vk]. *)
Theorem nrs1_vk_il_s1jk_is_dense :
  forall n T eri dmj vj dmk vk (fvj : kernel) p q,
    stored_s1 n T eri -> (p < n)%nat -> (q < n)%nat ->
    snd (CVHFnrs1_incore_drv eri dmj vj dmk vk n fvj CVHFnrs1_il_s1jk) (p * n + q)%nat
    = dense_il_jk n T dmk p q.
Proof.
  intros n T eri dmj vj dmk vk fvj p q Hst Hp Hq.
  rewrite nrs1_drv_vk; [|exact acc_nrs1_il_s1jk|apply cell_lt; assumption].
  rewrite <- fL_sum by assumption.
  apply sum_n_ext. intros i Hi. apply sum_n_ext. intros j Hj.
  rewrite (nrs1_il_s1jk_cell n T dmk _ i j p q zeros Hi Hj Hp Hq
             (stored_s1_block n T eri i j Hst Hi Hj)).
  unfold zeros. ring.
Qed.

Lemma nrs1_vk_il_s1jk_is_dense_witness :
  snd (CVHFnrs1_incore_drv (pack_s1 3 ex_T1) ex_dm zeros ex_dm zeros 3
         CVHFnrs1_ij_s1kl CVHFnrs1_il_s1jk) (2 * 3 + 0)%nat
  = dense_il_jk 3 ex_T1 ex_dm 2 0.
Proof.
  apply (nrs1_vk_il_s1jk_is_dense 3 ex_T1 (pack_s1 3 ex_T1)).
  - apply pack_s1_stored.
  - lia.
  - lia.
Defined.

(** ** The [s2kl] driver *)

(** [for (i = 0, ij = 0; i < m; i++) for (j = 0; j <= i; j++, ij++) { A(i,j) }] *)
Lemma hasd_tri_full m (A : nat -> nat -> nat -> list (nat * Z)) :
  hasd (for_ 0 m (fun i => for_ 0 (i + 1) (fun j => upd (A i j) ;; inc 1)))
       0%nat (tri m)
       (fun a => tsum m (fun i j => blk (A i j (tri i + j)%nat) a)).
Proof.
  eapply hasd_weaken.
  - apply (hasd_for 0 m _ tri
             (fun i a => sum_n (i + 1) (fun j => blk (A i j (tri i + j)%nat) a))); [lia|].
    intros i Hi. eapply hasd_weaken.
    + apply hasd_row.
    + rewrite tri_S. lia.
    + intros a. reflexivity.
  - reflexivity.
  - intros a. cbv beta. rewrite sum_range_0. unfold tsum.
    apply sum_n_ext. intros i _. rewrite Nat.add_1_r. reflexivity.
Qed.

Lemma nrs2kl_iter_cell eri dmj dmk n fvj fvk i j pr :
  (j < n)%nat ->
  nrs2kl_iter eri dmj dmk n fvj fvk (i * n + j) pr
  = (fvj (shift eri ((i * n + j) * tri n)) dmj (fst pr) n i j,
     fvk (shift eri ((i * n + j) * tri n)) dmk (snd pr) n i j).
Proof.
  intros Hj. unfold nrs2kl_iter. cbv zeta.
  assert (E : ((i * n + j) / n = i)%nat).
  { rewrite Nat.div_add_l by lia. rewrite Nat.div_small by lia. lia. }
  rewrite E. replace (i * n + j - i * n)%nat with j by lia. reflexivity.
Qed.

Lemma nrs2kl_drv_vj eri dmj vj dmk vk n fvj fvk a :
  accumulating fvj -> (a < n * n)%nat ->
  fst (CVHFnrs2kl_incore_drv eri dmj vj dmk vk n fvj fvk) a
  = sum_n n (fun i => sum_n n (fun j =>
      fvj (shift eri ((i * n + j) * tri n)) dmj zeros n i j a)).
Proof.
  intros Hacc Ha. unfold CVHFnrs2kl_incore_drv, CVHFnrs2kl_incore_drv_omp.
  rewrite (omp_parallel_sum_fst n _
             (fun ij => fst (nrs2kl_iter eri dmj dmk n fvj fvk ij (zeros, zeros)))).
  2:{ intros ij pr b. unfold nrs2kl_iter. simpl. apply Hacc. }
  destruct (Nat.ltb_spec a (n * n)); [|lia].
  cbn [concat]. rewrite app_nil_r, lsum_seq. cbn [Nat.add].
  rewrite sum_rect. apply sum_n_ext. intros i Hi. apply sum_n_ext. intros j Hj.
  rewrite nrs2kl_iter_cell by assumption. reflexivity.
Qed.

Lemma nrs2kl_drv_vk eri dmj vj dmk vk n fvj fvk a :
  accumulating fvk -> (a < n * n)%nat ->
  snd (CVHFnrs2kl_incore_drv eri dmj vj dmk vk n fvj fvk) a
  = sum_n n (fun i => sum_n n (fun j =>
      fvk (shift eri ((i * n + j) * tri n)) dmk zeros n i j a)).
Proof.
  intros Hacc Ha. unfold CVHFnrs2kl_incore_drv, CVHFnrs2kl_incore_drv_omp.
  rewrite (omp_parallel_sum_snd n _
             (fun ij => snd (nrs2kl_iter eri dmj dmk n fvj fvk ij (zeros, zeros)))).
  2:{ intros ij pr b. unfold nrs2kl_iter. simpl. apply Hacc. }
  destruct (Nat.ltb_spec a (n * n)); [|lia].
  cbn [concat]. rewrite app_nil_r, lsum_seq. cbn [Nat.add].
  rewrite sum_rect. apply sum_n_ext. intros i Hi. apply sum_n_ext. intros j Hj.
  rewrite nrs2kl_iter_cell by assumption. reflexivity.
Qed.

Lemma stored_s2kl_block n T eri i j :
  stored_s2kl n T eri -> (i < n)%nat -> (j < n)%nat ->
  forall k l, (l <= k)%nat -> (k < n)%nat ->
    shift eri ((i * n + j) * tri n) (tri k + l)%nat = T i j k l.
Proof. intros H Hi Hj k l Hl Hk. unfold shift. apply H; assumption. Qed.

(** A sum over all [(k,l)] folded onto [k >= l], under an outer pair. *)
Lemma sum_fold_kl n (f : nat -> nat -> nat -> nat -> Z) :
  sum_n n (fun i => sum_n n (fun j => sum_n n (fun k => sum_n n (fun l => f i j k l))))
  = sum_n n (fun i => sum_n n (fun j => tsum n (sym2 (f i j)))).
Proof.
  apply sum_n_ext. intros i _. apply sum_n_ext. intros j _. apply sum_fold2.
Qed.

(** One term of a kernel running over the stored pairs [k >= l] of an
    [s2kl] block. *)
Ltac s2kl_term fdef n T ic jc k l Hsym Heri :=
  rewrite ?(Heri k l) by lia;
  unfold sym2, fdef; ltb_known;
  cbn [blk fold_right fst snd addto];
  rewrite ?(delta_pair n) by lia;
  try rewrite <- (Hsym ic jc k l) by lia;
  crunch_delta.

Ltac s2kl_kernel fdef n T ic jc Hsym Heri :=
  by_delta ltac:(apply hasd_tri_loop)
           ltac:(unfold tsum; apply sum_n_ext; intros k Hk; cbn [sum_n]; f_equal;
                 [ apply sum_n_ext; intros l Hl; s2kl_term fdef n T ic jc k l Hsym Heri
                 | s2kl_term fdef n T ic jc k k Hsym Heri ]).

Lemma nrs2kl_jk_s1il_cell n T dm eri ic jc p q v :
  s2kl_symmetric n T ->
  (ic < n)%nat -> (jc < n)%nat -> (p < n)%nat -> (q < n)%nat ->
  (forall k l, (l <= k)%nat -> (k < n)%nat -> eri (tri k + l)%nat = T ic jc k l) ->
  CVHFnrs2kl_jk_s1il eri dm v n ic jc (p * n + q)%nat
  = v (p * n + q)%nat + tsum n (sym2 (fK n T dm p q ic jc)).
Proof.
  intros Hsym Hic Hjc Hp Hq Heri. unfold CVHFnrs2kl_jk_s1il.
  s2kl_kernel fK n T ic jc Hsym Heri.
Qed.

Lemma nrs2kl_il_s1jk_cell n T dm eri ic jc p q v :
  s2kl_symmetric n T ->
  (ic < n)%nat -> (jc < n)%nat -> (p < n)%nat -> (q < n)%nat ->
  (forall k l, (l <= k)%nat -> (k < n)%nat -> eri (tri k + l)%nat = T ic jc k l) ->
  CVHFnrs2kl_il_s1jk eri dm v n ic jc (p * n + q)%nat
  = v (p * n + q)%nat + tsum n (sym2 (fL n T dm p q ic jc)).
Proof.
  intros Hsym Hic Hjc Hp Hq Heri. unfold CVHFnrs2kl_il_s1jk.
  s2kl_kernel fL n T ic jc Hsym Heri.
Qed.

Lemma nrs2kl_kl_s1ij_cell n T dm eri ic jc p q v :
  s2kl_symmetric n T ->
  (ic < n)%nat -> (jc < n)%nat -> (p < n)%nat -> (q < n)%nat ->
  (forall k l, (l <= k)%nat -> (k < n)%nat -> eri (tri k + l)%nat = T ic jc k l) ->
  CVHFnrs2kl_kl_s1ij_o0 eri dm v n ic jc (p * n + q)%nat
  = v (p * n + q)%nat + tsum n (sym2 (fJ n T dm p q ic jc)).
Proof.
  intros Hsym Hic Hjc Hp Hq Heri. unfold CVHFnrs2kl_kl_s1ij_o0.
  s2kl_kernel fJ n T ic jc Hsym Heri.
Qed.

Lemma nrs2kl_ij_s2kl_cell n T dm eri ic jc p q v :
  (ic < n)%nat -> (jc < n)%nat -> (q <= p)%nat -> (p < n)%nat ->
  (forall k l, (l <= k)%nat -> (k < n)%nat -> eri (tri k + l)%nat = T ic jc k l) ->
  CVHFnrs2kl_ij_s2kl eri dm v n ic jc (p * n + q)%nat
  = v (p * n + q)%nat + tsum n (sym2 (fI n T dm p q ic jc)).
Proof.
  intros Hic Hjc Hq Hp Heri. unfold CVHFnrs2kl_ij_s2kl. cbv zeta.
  by_delta ltac:(apply hasd_tri_full)
           ltac:(apply tsum_ext; intros k l Hl Hk;
                 rewrite ?(Heri k l) by lia;
                 unfold sym2, fI; ltb_known;
                 cbn [blk fold_right fst snd addto];
                 rewrite ?(delta_pair n) by lia;
                 crunch_delta).
Qed.

Lemma tri_pair_bound n k l : (l <= k)%nat -> (k < n)%nat -> (tri k + l < tri n)%nat.
Proof.
  intros Hl Hk. assert (tri (S k) <= tri n)%nat by (apply tri_mono; lia).
  rewrite tri_S in *. lia.
Qed.

Lemma pack_s2kl_stored n T : stored_s2kl n T (pack_s2kl n T).
Proof.
  intros i j k l Hi Hj Hl Hk. unfold pack_s2kl.
  pose proof (tri_pair_bound n k l Hl Hk) as Hb.
  assert (E1 : (((i * n + j) * tri n + (tri k + l)) / tri n = i * n + j)%nat).
  { rewrite Nat.div_add_l by lia. rewrite Nat.div_small by lia. lia. }
  assert (E2 : (((i * n + j) * tri n + (tri k + l)) mod tri n = tri k + l)%nat).
  { rewrite Nat.add_comm, Nat.Div0.mod_add. apply Nat.mod_small. lia. }
  rewrite E1, E2, tri_dec_tri by assumption.
  rewrite Nat.div_add_l by lia. rewrite (Nat.div_small j n) by lia.
  rewrite (Nat.add_comm (i * n) j), Nat.Div0.mod_add, (Nat.mod_small j n) by lia.
  rewrite Nat.add_0_r. reflexivity.
Qed.

Lemma ex_Tkl_symmetric n : s2kl_symmetric n ex_Tkl.
Proof. intros i j k l _ _ _ _. unfold ex_Tkl. f_equal. f_equal. lia. Qed.

(** X5: on a tensor in the [s2kl] layout, [CVHFnrs2kl_incore_drv] with
    J-kernel [CVHFnrs2kl_ij_s2kl] leaves [sum_{i,j} T[i,j,k,l]*dm[i,j]] in
    every cell [(k,l)], [k >= l], of [vj]. *)
Theorem nrs2kl_vj_ij_s2kl_is_dense :
  forall n T eri dmj vj dmk vk (fvk : kernel) p q,
    stored_s2kl n T eri -> (q <= p)%nat -> (p < n)%nat ->
    fst (CVHFnrs2kl_incore_drv eri dmj vj dmk vk n CVHFnrs2kl_ij_s2kl fvk) (p * n + q)%nat
    = dense_ij_kl n T dmj p q.
Proof.
  intros n T eri dmj vj dmk vk fvk p q Hst Hq Hp.
  rewrite nrs2kl_drv_vj; [|exact acc_nrs2kl_ij_s2kl|apply cell_lt; lia].
  rewrite <- fI_sum by lia. rewrite sum_fold_kl.
  apply sum_n_ext. intros i Hi. apply sum_n_ext. intros j Hj.
  rewrite (nrs2kl_ij_s2kl_cell n T dmj _ i j p q zeros Hi Hj Hq Hp
             (stored_s2kl_block n T eri i j Hst Hi Hj)).
  unfold zeros. ring.
Qed.

Lemma nrs2kl_vj_ij_s2kl_is_dense_witness :
  fst (CVHFnrs2kl_incore_drv (pack_s2kl 3 ex_Tkl) ex_dm zeros ex_dm zeros 3
         CVHFnrs2kl_ij_s2kl CVHFnrs2kl_jk_s1il) (2 * 3 + 1)%nat
  = dense_ij_kl 3 ex_Tkl ex_dm 2 1.
Proof.
  apply (nrs2kl_vj_ij_s2kl_is_dense 3 ex_Tkl (pack_s2kl 3 ex_Tkl)).
  - apply pack_s2kl_stored.
  - lia.
  - lia.
Defined.

(** X6: for a tensor symmetric in [(k,l)] in the [s2kl] layout,
    [CVHFnrs2kl_incore_drv] with J-kernel [CVHFnrs2kl_kl_s1ij] leaves
    [sum_{k,l} T[i,j,k,l]*dm[k,l]] in every cell [(i,j)] of [vj]. *)
Theorem nrs2kl_vj_kl_s1ij_is_dense :
  forall n T eri dmj vj dmk vk (fvk : kernel) p q,
    s2kl_symmetric n T -> stored_s2kl n T eri -> (p < n)%nat -> (q < n)%nat ->
    fst (CVHFnrs2kl_incore_drv eri dmj vj dmk vk n CVHFnrs2kl_kl_s1ij fvk) (p * n + q)%nat
    = dense_vj n T dmj p q.
Proof.
  intros n T eri dmj vj dmk vk fvk p q Hsym Hst Hp Hq.
  rewrite nrs2kl_drv_vj; [|exact acc_nrs2kl_kl_s1ij_o0|apply cell_lt; lia].
  rewrite <- fJ_sum by lia. rewrite sum_fold_kl.
  apply sum_n_ext. intros i Hi. apply sum_n_ext. intros j Hj.
  unfold CVHFnrs2kl_kl_s1ij.
  rewrite (nrs2kl_kl_s1ij_cell n T dmj _ i j p q zeros Hsym Hi Hj Hp Hq
             (stored_s2kl_block n T eri i j Hst Hi Hj)).
  unfold zeros. ring.
Qed.

Lemma nrs2kl_vj_kl_s1ij_is_dense_witness :
  fst (CVHFnrs2kl_incore_drv (pack_s2kl 3 ex_Tkl) ex_dm zeros ex_dm zeros 3
         CVHFnrs2kl_kl_s1ij CVHFnrs2kl_jk_s1il) (1 * 3 + 2)%nat
  = dense_vj 3 ex_Tkl ex_dm 1 2.
Proof.
  apply (nrs2kl_vj_kl_s1ij_is_dense 3 ex_Tkl (pack_s2kl 3 ex_Tkl)).
  - apply ex_Tkl_symmetric.
  - apply pack_s2kl_stored.
  - lia.
  - lia.
Defined.

(** X7: for a tensor symmetric in [(k,l)] in the [s2kl] layout,
    [CVHFnrs2kl_incore_drv] with K-kernel [CVHFnrs2kl_jk_s1il] leaves
    [sum_{j,k} T[i,j,k,l]*dm[j,k]] in every cell [(i,l)] of [vk]. *)
Theorem nrs2kl_vk_jk_s1il_is_dense :
  forall n T eri dmj vj dmk vk (fvj : kernel) p q,
    s2kl_symmetric n T -> stored_s2kl n T eri -> (p < n)%nat -> (q < n)%nat ->
    snd (CVHFnrs2kl_incore_drv eri dmj vj dmk vk n fvj CVHFnrs2kl_jk_s1il) (p * n + q)%nat
    = dense_vk n T dmk p q.
Proof.
  intros n T eri dmj vj dmk vk fvj p q Hsym Hst Hp Hq.
  rewrite nrs2kl_drv_vk; [|exact acc_nrs2kl_jk_s1il|apply cell_lt; lia].
  rewrite <- fK_sum by lia. rewrite sum_fold_kl.
  apply sum_n_ext. intros i Hi. apply sum_n_ext. intros j Hj.
  rewrite (nrs2kl_jk_s1il_cell n T dmk _ i j p q zeros Hsym Hi Hj Hp Hq
             (stored_s2kl_block n T eri i j Hst Hi Hj)).
  unfold zeros. ring.
Qed.

Lemma nrs2kl_vk_jk_s1il_is_dense_witness :
  snd (CVHFnrs2kl_incore_drv (pack_s2kl 3 ex_Tkl) ex_dm zeros ex_dm zeros 3
         CVHFnrs2kl_kl_s1ij CVHFnrs2kl_jk_s1il) (1 * 3 + 2)%nat
  = dense_vk 3 ex_Tkl ex_dm 1 2.
Proof.
  apply (nrs2kl_vk_jk_s1il_is_dense 3 ex_Tkl (pack_s2kl 3 ex_Tkl)).
  - apply ex_Tkl_symmetric.
  - apply pack_s2kl_stored.
  - lia.
  - lia.
Defined.

(** X8: for a tensor symmetric in [(k,l)] in the [s2kl] layout,
    [CVHFnrs2kl_incore_drv] with K-kernel [CVHFnrs2kl_il_s1jk] leaves
    [sum_{i,l} T[i,j,k,l]*dm[i,l]] in every cell [(j,k)] of [vk]. *)
Theorem nrs2kl_vk_il_s1jk_is_dense :
  forall n T eri dmj vj dmk vk (fvj : kernel) p q,
    s2kl_symmetric n T -> stored_s2kl n T eri -> (p < n)%nat -> (q < n)%nat ->
    snd (CVHFnrs2kl_incore_drv eri dmj vj dmk vk n fvj CVHFnrs2kl_il_s1jk) (p * n + q)%nat
    = dense_il_jk n T dmk p q.
Proof.
  intros n T eri dmj vj dmk vk fvj p q Hsym Hst Hp Hq.
  rewrite nrs2kl_drv_vk; [|exact acc_nrs2kl_il_s1jk|apply cell_lt; lia].
  rewrite <- fL_sum by lia. rewrite sum_fold_kl.
  apply sum_n_ext. intros i Hi. apply sum_n_ext. intros j Hj.
  rewrite (nrs2kl_il_s1jk_cell n T dmk _ i j p q zeros Hsym Hi Hj Hp Hq
             (stored_s2kl_block n T eri i j Hst Hi Hj)).
  unfold zeros. ring.
Qed.

Lemma nrs2kl_vk_il_s1jk_is_dense_witness :
  snd (CVHFnrs2kl_incore_drv (pack_s2kl 3 ex_Tkl) ex_dm zeros ex_dm zeros 3
         CVHFnrs2kl_kl_s1ij CVHFnrs2kl_il_s1jk) (1 * 3 + 2)%nat
  = dense_il_jk 3 ex_Tkl ex_dm 1 2.
Proof.
  apply (nrs2kl_vk_il_s1jk_is_dense 3 ex_Tkl (pack_s2kl 3 ex_Tkl)).
  - apply ex_Tkl_symmetric.
  - apply pack_s2kl_stored.
  - lia.
  - lia.
Defined.

(** ** The [s2ij] driver *)

Lemma nrs2ij_iter_tri eri dmj dmk n fvj fvk i j pr :
  unfold_safe n -> (j <= i)%nat -> (i < n)%nat ->
  nrs2ij_iter eri dmj dmk n fvj fvk (tri i + j) pr
  = (fvj (shift eri ((tri i + j) * n * n)) dmj (fst pr) n i j,
     fvk (shift eri ((tri i + j) * n * n)) dmk (snd pr) n i j).
Proof.
  intros Hn Hj Hi. unfold nrs2ij_iter. cbv zeta.
  rewrite tril_row_tri by (unfold unfold_safe in Hn; lia).
  fold (tri i). replace (tri i + j - tri i)%nat with j by lia. reflexivity.
Qed.

Lemma nrs2ij_drv_vj eri dmj vj dmk vk n fvj fvk a :
  unfold_safe n -> accumulating fvj -> (a < n * n)%nat ->
  fst (CVHFnrs2ij_incore_drv eri dmj vj dmk vk n fvj fvk) a
  = tsum n (fun i j => fvj (shift eri ((tri i + j) * n * n)) dmj zeros n i j a).
Proof.
  intros Hn Hacc Ha. unfold CVHFnrs2ij_incore_drv, CVHFnrs2ij_incore_drv_omp. cbv zeta.
  rewrite (omp_parallel_sum_fst n _
             (fun ij => fst (nrs2ij_iter eri dmj dmk n fvj fvk ij (zeros, zeros)))).
  2:{ intros ij pr b. unfold nrs2ij_iter. simpl. apply Hacc. }
  destruct (Nat.ltb_spec a (n * n)); [|lia].
  cbn [concat]. rewrite app_nil_r, lsum_seq.
  change (n * (n + 1) / 2)%nat with (tri n).
  cbn [Nat.add]. rewrite sum_tri. apply tsum_ext. intros i j Hj Hi.
  rewrite nrs2ij_iter_tri by assumption. reflexivity.
Qed.

Lemma nrs2ij_drv_vk eri dmj vj dmk vk n fvj fvk a :
  unfold_safe n -> accumulating fvk -> (a < n * n)%nat ->
  snd (CVHFnrs2ij_incore_drv eri dmj vj dmk vk n fvj fvk) a
  = tsum n (fun i j => fvk (shift eri ((tri i + j) * n * n)) dmk zeros n i j a).
Proof.
  intros Hn Hacc Ha. unfold CVHFnrs2ij_incore_drv, CVHFnrs2ij_incore_drv_omp. cbv zeta.
  rewrite (omp_parallel_sum_snd n _
             (fun ij => snd (nrs2ij_iter eri dmj dmk n fvj fvk ij (zeros, zeros)))).
  2:{ intros ij pr b. unfold nrs2ij_iter. simpl. apply Hacc. }
  destruct (Nat.ltb_spec a (n * n)); [|lia].
  cbn [concat]. rewrite app_nil_r, lsum_seq.
  change (n * (n + 1) / 2)%nat with (tri n).
  cbn [Nat.add]. rewrite sum_tri. apply tsum_ext. intros i j Hj Hi.
  rewrite nrs2ij_iter_tri by assumption. reflexivity.
Qed.

Lemma stored_s2ij_block n T eri i j :
  stored_s2ij n T eri -> (j <= i)%nat -> (i < n)%nat ->
  forall k l, (k < n)%nat -> (l < n)%nat ->
    shift eri ((tri i + j) * n * n) (k * n + l)%nat = T i j k l.
Proof. intros H Hj Hi k l Hk Hl. unfold shift. apply H; assumption. Qed.

(** A sum over all [(i,j)] folded onto [i >= j], over an inner pair. *)
Lemma sum_fold_ij n (f : nat -> nat -> nat -> nat -> Z) :
  sum_n n (fun i => sum_n n (fun j => sum_n n (fun k => sum_n n (fun l => f i j k l))))
  = tsum n (fun i j =>
      sum_n n (fun k => sum_n n (fun l => sym2 (fun i j => f i j k l) i j))).
Proof.
  rewrite sum_fold2. apply tsum_ext. intros i j _ _.
  unfold sym2. destruct (j <? i)%nat; [|reflexivity].
  rewrite <- sum_n_add. apply sum_n_ext. intros k _. symmetry. apply sum_n_add.
Qed.

Ltac s2ij_term fdef n T ic jc k l Hsym Heri :=
  rewrite ?(Heri k l) by lia;
  unfold sym2, fdef; ltb_known;
  cbn [blk fold_right fst snd addto];
  rewrite ?(delta_pair n) by lia;
  try rewrite <- (Hsym ic jc k l) by lia;
  crunch_delta.

Lemma nrs2ij_jk_s1il_cell n T dm eri ic jc p q v :
  s2ij_symmetric n T ->
  (jc <= ic)%nat -> (ic < n)%nat -> (p < n)%nat -> (q < n)%nat ->
  (forall k l, (k < n)%nat -> (l < n)%nat -> eri (k * n + l)%nat = T ic jc k l) ->
  CVHFnrs2ij_jk_s1il eri dm v n ic jc (p * n + q)%nat
  = v (p * n + q)%nat
    + sum_n n (fun k => sum_n n (fun l => sym2 (fun i j => fK n T dm p q i j k l) ic jc)).
Proof.
  intros Hsym Hjc Hic Hp Hq Heri. unfold CVHFnrs2ij_jk_s1il.
  destruct (Nat.ltb_spec jc ic) as [Hlt|Hge].
  - by_delta ltac:(apply hasd_rect)
             ltac:(apply sum_n_ext; intros k Hk; apply sum_n_ext; intros l Hl;
                   s2ij_term fK n T ic jc k l Hsym Heri).
  - assert (jc = ic) by lia. subst jc. rewrite Nat.eqb_refl.
    by_delta ltac:(apply hasd_rect)
             ltac:(apply sum_n_ext; intros k Hk; apply sum_n_ext; intros l Hl;
                   s2ij_term fK n T ic ic k l Hsym Heri).
Qed.

Lemma nrs2ij_il_s1jk_cell n T dm eri ic jc p q v :
  s2ij_symmetric n T ->
  (jc <= ic)%nat -> (ic < n)%nat -> (p < n)%nat -> (q < n)%nat ->
  (forall k l, (k < n)%nat -> (l < n)%nat -> eri (k * n + l)%nat = T ic jc k l) ->
  CVHFnrs2ij_il_s1jk eri dm v n ic jc (p * n + q)%nat
  = v (p * n + q)%nat
    + sum_n n (fun k => sum_n n (fun l => sym2 (fun i j => fL n T dm p q i j k l) ic jc)).
Proof.
  intros Hsym Hjc Hic Hp Hq Heri. unfold CVHFnrs2ij_il_s1jk.
  destruct (Nat.ltb_spec jc ic) as [Hlt|Hge].
  - by_delta ltac:(apply hasd_rect)
             ltac:(apply sum_n_ext; intros k Hk; apply sum_n_ext; intros l Hl;
                   s2ij_term fL n T ic jc k l Hsym Heri).
  - assert (jc = ic) by lia. subst jc. rewrite Nat.eqb_refl.
    by_delta ltac:(apply hasd_rect)
             ltac:(apply sum_n_ext; intros k Hk; apply sum_n_ext; intros l Hl;
                   s2ij_term fL n T ic ic k l Hsym Heri).
Qed.

Lemma nrs2ij_ij_s1kl_cell n T dm eri ic jc p q v :
  s2ij_symmetric n T ->
  (jc <= ic)%nat -> (ic < n)%nat -> (p < n)%nat -> (q < n)%nat ->
  (forall k l, (k < n)%nat -> (l < n)%nat -> eri (k * n + l)%nat = T ic jc k l) ->
  CVHFnrs2ij_ij_s1kl eri dm v n ic jc (p * n + q)%nat
  = v (p * n + q)%nat
    + sum_n n (fun k => sum_n n (fun l => sym2 (fun i j => fI n T dm p q i j k l) ic jc)).
Proof.
  intros Hsym Hjc Hic Hp Hq Heri. unfold CVHFnrs2ij_ij_s1kl.
  destruct (Nat.ltb_spec jc ic) as [Hlt|Hge].
  - cbv iota.
    by_delta ltac:(apply hasd_flat)
             ltac:(apply sum_n_ext; intros k Hk; apply sum_n_ext; intros l Hl;
                   s2ij_term fI n T ic jc k l Hsym Heri).
  - assert (jc = ic) by lia. subst jc. rewrite Nat.eqb_refl. cbv iota.
    by_delta ltac:(apply hasd_flat)
             ltac:(apply sum_n_ext; intros k Hk; apply sum_n_ext; intros l Hl;
                   s2ij_term fI n T ic ic k l Hsym Heri).
Qed.

Lemma nrs2ij_kl_s2ij_cell n T dm eri ic jc p q v :
  (jc <= ic)%nat -> (ic < n)%nat -> (q <= p)%nat -> (p < n)%nat ->
  (forall k l, (k < n)%nat -> (l < n)%nat -> eri (k * n + l)%nat = T ic jc k l) ->
  CVHFnrs2ij_kl_s2ij eri dm v n ic jc (p * n + q)%nat
  = v (p * n + q)%nat
    + sum_n n (fun k => sum_n n (fun l => sym2 (fun i j => fJ n T dm p q i j k l) ic jc)).
Proof.
  intros Hjc Hic Hq Hp Heri. unfold CVHFnrs2ij_kl_s2ij.
  destruct (Nat.ltb_spec ic jc) as [Hc|_]; [lia|].
  rewrite nrs1_kl_s1ij_cell, sum_rect, (delta_pair n) by lia. f_equal.
  rewrite <- sum_n_mul_l. apply sum_n_ext. intros k Hk.
  rewrite <- sum_n_mul_l. apply sum_n_ext. intros l Hl.
  rewrite (Heri k l) by lia. unfold sym2, fJ. ltb_known; crunch_delta.
Qed.

Lemma pack_s2ij_stored n T : stored_s2ij n T (pack_s2ij n T).
Proof.
  intros i j k l Hj Hi Hk Hl. unfold pack_s2ij.
  assert (Hkl : (k * n + l < n * n)%nat) by nia.
  assert (E1 : (((tri i + j) * n * n + (k * n + l)) / (n * n) = tri i + j)%nat).
  { replace ((tri i + j) * n * n)%nat with ((tri i + j) * (n * n))%nat by lia.
    rewrite Nat.div_add_l by lia. rewrite Nat.div_small by lia. lia. }
  assert (E2 : (((tri i + j) * n * n + (k * n + l)) mod (n * n) = k * n + l)%nat).
  { replace ((tri i + j) * n * n)%nat with ((tri i + j) * (n * n))%nat by lia.
    rewrite Nat.add_comm, Nat.Div0.mod_add. apply Nat.mod_small. lia. }
  assert (E3 : (((tri i + j) * n * n + (k * n + l)) mod n = l)%nat).
  { replace ((tri i + j) * n * n + (k * n + l))%nat
      with (l + ((tri i + j) * n + k) * n)%nat by lia.
    rewrite Nat.Div0.mod_add. apply Nat.mod_small. lia. }
  rewrite E1, E2, E3, tri_dec_tri by assumption.
  rewrite Nat.div_add_l by lia. rewrite (Nat.div_small l n) by lia.
  rewrite Nat.add_0_r. reflexivity.
Qed.

Lemma ex_Tij_symmetric n : s2ij_symmetric n ex_Tij.
Proof. intros i j k l _ _ _ _. unfold ex_Tij. f_equal. f_equal. lia. Qed.

(** X9: for a tensor symmetric in [(i,j)] in the [s2ij] layout,
    [CVHFnrs2ij_incore_drv] with J-kernel [CVHFnrs2ij_ij_s1kl] leaves
    [sum_{i,j} T[i,j,k,l]*dm[i,j]] in every cell [(k,l)] of [vj]. *)
Theorem nrs2ij_vj_ij_s1kl_is_dense :
  forall n T eri dmj vj dmk vk (fvk : kernel) p q,
    unfold_safe n -> s2ij_symmetric n T -> stored_s2ij n T eri ->
    (p < n)%nat -> (q < n)%nat ->
    fst (CVHFnrs2ij_incore_drv eri dmj vj dmk vk n CVHFnrs2ij_ij_s1kl fvk) (p * n + q)%nat
    = dense_ij_kl n T dmj p q.
Proof.
  intros n T eri dmj vj dmk vk fvk p q Hn Hsym Hst Hp Hq.
  rewrite nrs2ij_drv_vj; [|assumption|exact acc_nrs2ij_ij_s1kl|apply cell_lt; lia].
  rewrite <- fI_sum by lia. rewrite sum_fold_ij.
  apply tsum_ext. intros i j Hj Hi.
  rewrite (nrs2ij_ij_s1kl_cell n T dmj _ i j p q zeros Hsym Hj Hi Hp Hq
             (stored_s2ij_block n T eri i j Hst Hj Hi)).
  unfold zeros. ring.
Qed.

Lemma nrs2ij_vj_ij_s1kl_is_dense_witness :
  fst (CVHFnrs2ij_incore_drv (pack_s2ij 3 ex_Tij) ex_dm zeros ex_dm zeros 3
         CVHFnrs2ij_ij_s1kl CVHFnrs2ij_jk_s1il) (1 * 3 + 2)%nat
  = dense_ij_kl 3 ex_Tij ex_dm 1 2.
Proof.
  apply (nrs2ij_vj_ij_s1kl_is_dense 3 ex_Tij (pack_s2ij 3 ex_Tij)).
  - unfold unfold_safe. simpl. lia.
  - apply ex_Tij_symmetric.
  - apply pack_s2ij_stored.
  - lia.
  - lia.
Defined.

(** X10: on a tensor in the [s2ij] layout, [CVHFnrs2ij_incore_drv] with
    J-kernel [CVHFnrs2ij_kl_s2ij] leaves [sum_{k,l} T[i,j,k,l]*dm[k,l]] in
    every cell [(i,j)], [i >= j], of [vj]. *)
Theorem nrs2ij_vj_kl_s2ij_is_dense :
  forall n T eri dmj vj dmk vk (fvk : kernel) p q,
    unfold_safe n -> stored_s2ij n T eri -> (q <= p)%nat -> (p < n)%nat ->
    fst (CVHFnrs2ij_incore_drv eri dmj vj dmk vk n CVHFnrs2ij_kl_s2ij fvk) (p * n + q)%nat
    = dense_vj n T dmj p q.
Proof.
  intros n T eri dmj vj dmk vk fvk p q Hn Hst Hq Hp.
  rewrite nrs2ij_drv_vj; [|assumption|exact acc_nrs2ij_kl_s2ij|apply cell_lt; lia].
  rewrite <- fJ_sum by lia. rewrite sum_fold_ij.
  apply tsum_ext. intros i j Hj Hi.
  rewrite (nrs2ij_kl_s2ij_cell n T dmj _ i j p q zeros Hj Hi Hq Hp
             (stored_s2ij_block n T eri i j Hst Hj Hi)).
  unfold zeros. ring.
Qed.

Lemma nrs2ij_vj_kl_s2ij_is_dense_witness :
  fst (CVHFnrs2ij_incore_drv (pack_s2ij 3 ex_Tij) ex_dm zeros ex_dm zeros 3
         CVHFnrs2ij_kl_s2ij CVHFnrs2ij_jk_s1il) (2 * 3 + 1)%nat
  = dense_vj 3 ex_Tij ex_dm 2 1.
Proof.
  apply (nrs2ij_vj_kl_s2ij_is_dense 3 ex_Tij (pack_s2ij 3 ex_Tij)).
  - unfold unfold_safe. simpl. lia.
  - apply pack_s2ij_stored.
  - lia.
  - lia.
Defined.

(** X11: for a tensor symmetric in [(i,j)] in the [s2ij] layout,
    [CVHFnrs2ij_incore_drv] with K-kernel [CVHFnrs2ij_jk_s1il] leaves
    [sum_{j,k} T[i,j,k,l]*dm[j,k]] in every cell [(i,l)] of [vk]. *)
Theorem nrs2ij_vk_jk_s1il_is_dense :
  forall n T eri dmj vj dmk vk (fvj : kernel) p q,
    unfold_safe n -> s2ij_symmetric n T -> stored_s2ij n T eri ->
    (p < n)%nat -> (q < n)%nat ->
    snd (CVHFnrs2ij_incore_drv eri dmj vj dmk vk n fvj CVHFnrs2ij_jk_s1il) (p * n + q)%nat
    = dense_vk n T dmk p q.
Proof.
  intros n T eri dmj vj dmk vk fvj p q Hn Hsym Hst Hp Hq.
  rewrite nrs2ij_drv_vk; [|assumption|exact acc_nrs2ij_jk_s1il|apply cell_lt; lia].
  rewrite <- fK_sum by lia. rewrite sum_fold_ij.
  apply tsum_ext. intros i j Hj Hi.
  rewrite (nrs2ij_jk_s1il_cell n T dmk _ i j p q zeros Hsym Hj Hi Hp Hq
             (stored_s2ij_block n T eri i j Hst Hj Hi)).
  unfold zeros. ring.
Qed.

Lemma nrs2ij_vk_jk_s1il_is_dense_witness :
  snd (CVHFnrs2ij_incore_drv (pack_s2ij 3 ex_Tij) ex_dm zeros ex_dm zeros 3
         CVHFnrs2ij_ij_s1kl CVHFnrs2ij_jk_s1il) (1 * 3 + 2)%nat
  = dense_vk 3 ex_Tij ex_dm 1 2.
Proof.
  apply (nrs2ij_vk_jk_s1il_is_dense 3 ex_Tij (pack_s2ij 3 ex_Tij)).
  - unfold unfold_safe. simpl. lia.
  - apply ex_Tij_symmetric.
  - apply pack_s2ij_stored.
  - lia.
  - lia.
Defined.

(** X12: for a tensor symmetric in [(i,j)] in the [s2ij] layout,
    [CVHFnrs2ij_incore_drv] with K-kernel [CVHFnrs2ij_il_s1jk] leaves
    [sum_{i,l} T[i,j,k,l]*dm[i,l]] in every cell [(j,k)] of [vk]. *)
Theorem nrs2ij_vk_il_s1jk_is_dense :
  forall n T eri dmj vj dmk vk (fvj : kernel) p q,
    unfold_safe n -> s2ij_symmetric n T -> stored_s2ij n T eri ->
    (p < n)%nat -> (q < n)%nat ->
    snd (CVHFnrs2ij_incore_drv eri dmj vj dmk vk n fvj CVHFnrs2ij_il_s1jk) (p * n + q)%nat
    = dense_il_jk n T dmk p q.
Proof.
  intros n T eri dmj vj dmk vk fvj p q Hn Hsym Hst Hp Hq.
  rewrite nrs2ij_drv_vk; [|assumption|exact acc_nrs2ij_il_s1jk|apply cell_lt; lia].
  rewrite <- fL_sum by lia. rewrite sum_fold_ij.
  apply tsum_ext. intros i j Hj Hi.
  rewrite (nrs2ij_il_s1jk_cell n T dmk _ i j p q zeros Hsym Hj Hi Hp Hq
             (stored_s2ij_block n T eri i j Hst Hj Hi)).
  unfold zeros. ring.
Qed.

Lemma nrs2ij_vk_il_s1jk_is_dense_witness :
  snd (CVHFnrs2ij_incore_drv (pack_s2ij 3 ex_Tij) ex_dm zeros ex_dm zeros 3
         CVHFnrs2ij_ij_s1kl CVHFnrs2ij_il_s1jk) (1 * 3 + 2)%nat
  = dense_il_jk 3 ex_Tij ex_dm 1 2.
Proof.
  apply (nrs2ij_vk_il_s1jk_is_dense 3 ex_Tij (pack_s2ij 3 ex_Tij)).
  - unfold unfold_safe. simpl. lia.
  - apply ex_Tij_symmetric.
  - apply pack_s2ij_stored.
  - lia.
  - lia.
Defined.

(** ** The [s4] driver *)

Lemma nrs4_iter_tri eri dmj dmk n fvj fvk i j pr :
  unfold_safe n -> (j <= i)%nat -> (i < n)%nat ->
  nrs4_iter eri dmj dmk n fvj fvk (tri i + j) pr
  = (fvj (shift eri ((tri i + j) * tri n)) dmj (fst pr) n i j,
     fvk (shift eri ((tri i + j) * tri n)) dmk (snd pr) n i j).
Proof.
  intros Hn Hj Hi. unfold nrs4_iter. cbv zeta.
  rewrite tril_row_tri by (unfold unfold_safe in Hn; lia).
  fold (tri i). fold (tri n).
  replace (tri i + j - tri i)%nat with j by lia. reflexivity.
Qed.

Lemma nrs4_drv_vj eri dmj vj dmk vk n fvj fvk a :
  unfold_safe n -> accumulating fvj -> (a < n * n)%nat ->
  fst (CVHFnrs4_incore_drv eri dmj vj dmk vk n fvj fvk) a
  = tsum n (fun i j => fvj (shift eri ((tri i + j) * tri n)) dmj zeros n i j a).
Proof.
  intros Hn Hacc Ha. unfold CVHFnrs4_incore_drv, CVHFnrs4_incore_drv_omp. cbv zeta.
  rewrite (omp_parallel_sum_fst n _
             (fun ij => fst (nrs4_iter eri dmj dmk n fvj fvk ij (zeros, zeros)))).
  2:{ intros ij pr b. unfold nrs4_iter. simpl. apply Hacc. }
  destruct (Nat.ltb_spec a (n * n)); [|lia].
  cbn [concat]. rewrite app_nil_r, lsum_seq.
  change (n * (n + 1) / 2)%nat with (tri n).
  cbn [Nat.add]. rewrite sum_tri. apply tsum_ext. intros i j Hj Hi.
  rewrite nrs4_iter_tri by assumption. reflexivity.
Qed.

Lemma nrs4_drv_vk eri dmj vj dmk vk n fvj fvk a :
  unfold_safe n -> accumulating fvk -> (a < n * n)%nat ->
  snd (CVHFnrs4_incore_drv eri dmj vj dmk vk n fvj fvk) a
  = tsum n (fun i j => fvk (shift eri ((tri i + j) * tri n)) dmk zeros n i j a).
Proof.
  intros Hn Hacc Ha. unfold CVHFnrs4_incore_drv, CVHFnrs4_incore_drv_omp. cbv zeta.
  rewrite (omp_parallel_sum_snd n _
             (fun ij => snd (nrs4_iter eri dmj dmk n fvj fvk ij (zeros, zeros)))).
  2:{ intros ij pr b. unfold nrs4_iter. simpl. apply Hacc. }
  destruct (Nat.ltb_spec a (n * n)); [|lia].
  cbn [concat]. rewrite app_nil_r, lsum_seq.
  change (n * (n + 1) / 2)%nat with (tri n).
  cbn [Nat.add]. rewrite sum_tri. apply tsum_ext. intros i j Hj Hi.
  rewrite nrs4_iter_tri by assumption. reflexivity.
Qed.

Lemma stored_s4_block n T eri i j :
  stored_s4 n T eri -> (j <= i)%nat -> (i < n)%nat ->
  forall k l, (l <= k)%nat -> (k < n)%nat ->
    shift eri ((tri i + j) * tri n) (tri k + l)%nat = T i j k l.
Proof. intros H Hj Hi k l Hl Hk. unfold shift. apply H; assumption. Qed.

(** The three other orderings of an entry of an [s4] tensor. *)
Lemma s4_orbit n T i j k l :
  s4_symmetric n T -> (i < n)%nat -> (j < n)%nat -> (k < n)%nat -> (l < n)%nat ->
  T j i k l = T i j k l /\ T i j l k = T i j k l /\ T j i l k = T i j k l.
Proof.
  intros H Hi Hj Hk Hl.
  destruct (H i j k l Hi Hj Hk Hl) as (A1 & A2).
  destruct (H j i k l Hj Hi Hk Hl) as (B1 & B2).
  repeat split; congruence.
Qed.

Ltac use_s4 H :=
  let E1 := fresh "E" in let E2 := fresh "E" in let E3 := fresh "E" in
  destruct H as (E1 & E2 & E3);
  try rewrite E1; try rewrite E2; try rewrite E3;
  clear E1 E2 E3.

Ltac s4_term fdef n T ic jc k l Hsym Heri :=
  rewrite ?(Heri k l) by lia;
  unfold sym4, sym2, fdef; ltb_known;
  cbn [blk fold_right fst snd addto];
  rewrite ?(delta_pair n) by lia;
  use_s4 (s4_orbit n T ic jc k l Hsym ltac:(lia) ltac:(lia) ltac:(lia) ltac:(lia));
  crunch_delta.

Ltac s4_tri_kernel fdef n T ic jc Hsym Heri :=
  by_delta ltac:(apply hasd_tri_loop)
           ltac:(unfold tsum; apply sum_n_ext; intros k Hk; cbn [sum_n]; f_equal;
                 [ apply sum_n_ext; intros l Hl; s4_term fdef n T ic jc k l Hsym Heri
                 | s4_term fdef n T ic jc k k Hsym Heri ]).

Lemma nrs4_jk_s1il_cell n T dm eri ic jc p q v :
  s4_symmetric n T ->
  (jc <= ic)%nat -> (ic < n)%nat -> (p < n)%nat -> (q < n)%nat ->
  (forall k l, (l <= k)%nat -> (k < n)%nat -> eri (tri k + l)%nat = T ic jc k l) ->
  CVHFnrs4_jk_s1il_o0 eri dm v n ic jc (p * n + q)%nat
  = v (p * n + q)%nat + tsum n (fun k l => sym4 (fK n T dm p q) ic jc k l).
Proof.
  intros Hsym Hjc Hic Hp Hq Heri. unfold CVHFnrs4_jk_s1il_o0.
  destruct (Nat.ltb_spec jc ic) as [Hlt|Hge].
  - s4_tri_kernel fK n T ic jc Hsym Heri.
  - assert (jc = ic) by lia. subst jc. rewrite Nat.eqb_refl.
    s4_tri_kernel fK n T ic ic Hsym Heri.
Qed.

Lemma nrs4_kl_s2ij_cell n T dm eri ic jc p q v :
  s4_symmetric n T ->
  (jc <= ic)%nat -> (ic < n)%nat -> (q <= p)%nat -> (p < n)%nat ->
  (forall k l, (l <= k)%nat -> (k < n)%nat -> eri (tri k + l)%nat = T ic jc k l) ->
  CVHFnrs4_kl_s2ij eri dm v n ic jc (p * n + q)%nat
  = v (p * n + q)%nat + tsum n (fun k l => sym4 (fJ n T dm p q) ic jc k l).
Proof.
  intros Hsym Hjc Hic Hq Hp Heri. unfold CVHFnrs4_kl_s2ij.
  destruct (Nat.leb_spec jc ic) as [_|Hc]; [|lia].
  unfold CVHFnrs2kl_kl_s1ij_o0.
  s4_tri_kernel fJ n T ic jc Hsym Heri.
Qed.

Lemma nrs4_ij_s2kl_cell n T dm eri ic jc p q v :
  s4_symmetric n T ->
  (jc <= ic)%nat -> (ic < n)%nat -> (q <= p)%nat -> (p < n)%nat ->
  (forall k l, (l <= k)%nat -> (k < n)%nat -> eri (tri k + l)%nat = T ic jc k l) ->
  CVHFnrs4_ij_s2kl_o0 eri dm v n ic jc (p * n + q)%nat
  = v (p * n + q)%nat + tsum n (fun k l => sym4 (fI n T dm p q) ic jc k l).
Proof.
  intros Hsym Hjc Hic Hq Hp Heri. unfold CVHFnrs4_ij_s2kl_o0.
  destruct (Nat.ltb_spec jc ic) as [Hlt|Hge].
  - cbv iota.
    by_delta ltac:(apply hasd_tri_full)
             ltac:(apply tsum_ext; intros k l Hl Hk;
                   s4_term fI n T ic jc k l Hsym Heri).
  - assert (jc = ic) by lia. subst jc. rewrite Nat.eqb_refl. cbv iota.
    by_delta ltac:(apply hasd_tri_full)
             ltac:(apply tsum_ext; intros k l Hl Hk;
                   s4_term fI n T ic ic k l Hsym Heri).
Qed.

(** ** [CVHFnrs4_jk_s2il_o0]: the lower triangle *)

(** [for (l = lo; l < hi; l++, eri++) { A(l) }] entered with [eri] at
    [b + lo]. *)
Lemma hasd_row_from lo hi (A : nat -> nat -> list (nat * Z)) b :
  (lo <= hi)%nat ->
  hasd (for_ lo hi (fun l => upd (A l) ;; inc 1)) (b + lo)%nat (b + hi)%nat
       (fun a => sum_range lo hi (fun l => blk (A l (b + l)%nat) a)).
Proof.
  intros H. eapply hasd_weaken.
  - apply (hasd_for lo hi _ (fun l => (b + l)%nat)
             (fun l a => blk (A l (b + l)%nat) a + 0)); [assumption|].
    intros l Hl. eapply hasd_weaken.
    + eapply hasd_seq; [apply hasd_upd | apply hasd_inc].
    + lia.
    + intros a. reflexivity.
  - reflexivity.
  - intros a. apply sum_range_ext. intros; ring.
Qed.

(** A loop whose body sets the [eri] offset itself before using it. *)
Lemma hasd_for_reset lo hi body (e : nat -> nat) d c0 :
  (lo <= hi)%nat ->
  (forall k c, (lo <= k < hi)%nat -> hasd (body k) c (e k) (d k)) ->
  hasd (for_ lo hi body) c0 (if (lo <? hi)%nat then e (hi - 1)%nat else c0)
       (fun a => sum_range lo hi (fun k => d k a)).
Proof.
  intros Hle H.
  pose (cnt := fun k => if (lo <? k)%nat then e (k - 1)%nat else c0).
  eapply hasd_weaken; [eapply hasd_start | | ].
  2:{ apply (hasd_for lo hi body cnt d Hle).
      intros k Hk. eapply hasd_weaken.
      - apply (H k (cnt k) Hk).
      - unfold cnt. destruct (Nat.ltb_spec lo (S k)); [|lia].
        f_equal. lia.
      - intros a. reflexivity. }
  - unfold cnt. rewrite Nat.ltb_irrefl. reflexivity.
  - unfold cnt. reflexivity.
  - intros a. reflexivity.
Qed.

Ltac hasd_rows :=
  lazymatch goal with
  | |- hasd (seqc _ _) _ _ _ => eapply hasd_seq; [hasd_rows | hasd_rows]
  | |- hasd (upd _) _ _ _ => apply hasd_upd
  | |- hasd (inc _) _ _ _ => apply hasd_inc
  | |- hasd (setc _) _ _ _ => apply hasd_setc
  | |- hasd (for_ 0 _ (fun l => upd (@?A l) ;; inc 1)) _ _ _ => apply hasd_row
  | |- hasd (for_ _ _ (fun l => upd (@?A l) ;; inc 1)) _ _ _ =>
      apply hasd_row_from; lia
  end.

Lemma sum_n_three n a b f :
  (a <= b)%nat -> (b <= n)%nat ->
  sum_n n f = sum_n a f + sum_range a b f + sum_range b n f.
Proof.
  intros Ha Hb. rewrite (sum_n_split n b) by lia.
  rewrite (sum_n_split b a) by lia. reflexivity.
Qed.

Lemma sum_range_zero lo hi f :
  (forall k, (lo <= k < hi)%nat -> f k = 0) -> sum_range lo hi f = 0.
Proof.
  intros H. rewrite (sum_range_ext lo hi f (fun _ => 0)) by assumption.
  unfold sum_range. apply sum_n_zero. reflexivity.
Qed.

Ltac s4_lower_derive ic jc :=
  eapply hasd_seq; [eapply hasd_seq|];
  [ apply hasd_tri_loop
  | eapply (hasd_start _ _ (tri (jc + 1))); [reflexivity|];
    eapply (hasd_for (jc + 1) (ic + 1) _ tri); [lia|];
    intros ? ?; eapply hasd_weaken;
    [ hasd_rows | rewrite tri_S; lia | intros ?; reflexivity ]
  | eapply hasd_for_reset; [lia|];
    intros ? ? ?; hasd_rows ].

Lemma nrs4_jk_s2il_cell n T dm eri ic jc p q v :
  s4_symmetric n T ->
  (jc <= ic)%nat -> (ic < n)%nat -> (q <= p)%nat -> (p < n)%nat ->
  (forall k l, (l <= k)%nat -> (k < n)%nat -> eri (tri k + l)%nat = T ic jc k l) ->
  CVHFnrs4_jk_s2il_o0 eri dm v n ic jc (p * n + q)%nat
  = v (p * n + q)%nat + tsum n (fun k l => sym4 (fK n T dm p q) ic jc k l).
Proof.
  intros Hsym Hjc Hic Hq Hp Heri. unfold CVHFnrs4_jk_s2il_o0.
  destruct (Nat.ltb_spec jc ic) as [Hlt|Hge].
  - by_delta ltac:(s4_lower_derive ic jc) ltac:(idtac).
    unfold tsum. rewrite (sum_n_three n (jc + 1) (ic + 1)) by lia.
    f_equal; [f_equal|].
    + apply sum_n_ext. intros k Hk. cbn [sum_n]. f_equal.
      * apply sum_n_ext. intros l Hl. s4_term fK n T ic jc k l Hsym Heri.
      * s4_term fK n T ic jc k k Hsym Heri.
    + apply sum_range_ext. intros k Hk. rewrite Z.add_0_r.
      cbn [sum_n]. rewrite (sum_n_split k (jc + 1)) by lia.
      f_equal; [f_equal|].
      * apply sum_n_ext. intros l Hl. s4_term fK n T ic jc k l Hsym Heri.
      * apply sum_range_ext. intros l Hl. s4_term fK n T ic jc k l Hsym Heri.
      * s4_term fK n T ic jc k k Hsym Heri.
    + apply sum_range_ext. intros k Hk. rewrite Z.add_0_l.
      change (k * (k + 1) / 2)%nat with (tri k).
      rewrite (sum_n_three (S k) (jc + 1) (ic + 1)) by lia.
      rewrite (sum_range_zero (ic + 1) (S k)), Z.add_0_r.
      * f_equal.
        -- apply sum_n_ext. intros l Hl. s4_term fK n T ic jc k l Hsym Heri.
        -- apply sum_range_ext. intros l Hl. s4_term fK n T ic jc k l Hsym Heri.
      * intros l Hl. s4_term fK n T ic jc k l Hsym Heri.
  - assert (jc = ic) by lia. subst jc. rewrite Nat.eqb_refl.
    by_delta
      ltac:(eapply hasd_seq;
            [ apply hasd_tri_loop
            | eapply hasd_for_reset; [lia|]; intros ? ? ?; hasd_rows ])
      ltac:(idtac).
    unfold tsum. rewrite (sum_n_split n (ic + 1)) by lia.
    f_equal.
    + apply sum_n_ext. intros k Hk. cbn [sum_n]. f_equal.
      * apply sum_n_ext. intros l Hl. s4_term fK n T ic ic k l Hsym Heri.
      * s4_term fK n T ic ic k k Hsym Heri.
    + apply sum_range_ext. intros k Hk. rewrite Z.add_0_l.
      change (k * (k + 1) / 2)%nat with (tri k).
      rewrite (sum_n_split (S k) (ic + 1)) by lia.
      rewrite (sum_range_zero (ic + 1) (S k)), Z.add_0_r.
      * apply sum_n_ext. intros l Hl. s4_term fK n T ic ic k l Hsym Heri.
      * intros l Hl. s4_term fK n T ic ic k l Hsym Heri.
Qed.

Lemma pack_s4_stored n T : stored_s4 n T (pack_s4 n T).
Proof.
  intros i j k l Hj Hi Hl Hk. unfold pack_s4.
  pose proof (tri_pair_bound n k l Hl Hk) as Hb.
  assert (E1 : (((tri i + j) * tri n + (tri k + l)) / tri n = tri i + j)%nat).
  { rewrite Nat.div_add_l by lia. rewrite Nat.div_small by lia. lia. }
  assert (E2 : (((tri i + j) * tri n + (tri k + l)) mod tri n = tri k + l)%nat).
  { rewrite Nat.add_comm, Nat.Div0.mod_add. apply Nat.mod_small. lia. }
  rewrite E1, E2, !tri_dec_tri by assumption. reflexivity.
Qed.

Lemma ex_T4_symmetric n : s4_symmetric n ex_T4.
Proof.
  intros i j k l _ _ _ _. unfold ex_T4. split; f_equal; f_equal; nia.
Qed.

(** X13: for a tensor with the 4-fold symmetry in the [s4] layout,
    [CVHFnrs4_incore_drv] with J-kernel [CVHFnrs4_ij_s2kl] leaves
    [sum_{i,j} T[i,j,k,l]*dm[i,j]] in every cell [(k,l)], [k >= l], of
    [vj]; [dm] need not be symmetric. *)
Theorem nrs4_vj_ij_s2kl_is_dense :
  forall n T eri dmj vj dmk vk (fvk : kernel) p q,
    unfold_safe n -> s4_symmetric n T -> stored_s4 n T eri ->
    (q <= p)%nat -> (p < n)%nat ->
    fst (CVHFnrs4_incore_drv eri dmj vj dmk vk n CVHFnrs4_ij_s2kl fvk) (p * n + q)%nat
    = dense_ij_kl n T dmj p q.
Proof.
  intros n T eri dmj vj dmk vk fvk p q Hn Hsym Hst Hq Hp.
  rewrite nrs4_drv_vj; [|assumption|exact acc_nrs4_ij_s2kl_o0|apply cell_lt; lia].
  rewrite <- fI_sum by lia. rewrite sum_fold4.
  apply tsum_ext. intros i j Hj Hi. unfold CVHFnrs4_ij_s2kl.
  rewrite (nrs4_ij_s2kl_cell n T dmj _ i j p q zeros Hsym Hj Hi Hq Hp
             (stored_s4_block n T eri i j Hst Hj Hi)).
  unfold zeros. ring.
Qed.

Lemma nrs4_vj_ij_s2kl_is_dense_witness :
  fst (CVHFnrs4_incore_drv (pack_s4 3 ex_T4) ex_dm zeros ex_dm zeros 3
         CVHFnrs4_ij_s2kl CVHFnrs4_jk_s1il) (2 * 3 + 1)%nat
  = dense_ij_kl 3 ex_T4 ex_dm 2 1.
Proof.
  apply (nrs4_vj_ij_s2kl_is_dense 3 ex_T4 (pack_s4 3 ex_T4)).
  - unfold unfold_safe. simpl. lia.
  - apply ex_T4_symmetric.
  - apply pack_s4_stored.
  - lia.
  - lia.
Defined.

(** X14: for a tensor with the 4-fold symmetry in the [s4] layout,
    [CVHFnrs4_incore_drv] with J-kernel [CVHFnrs4_kl_s2ij] leaves
    [sum_{k,l} T[i,j,k,l]*dm[k,l]] in every cell [(i,j)], [i >= j], of
    [vj]; [dm] need not be symmetric. *)
Theorem nrs4_vj_kl_s2ij_is_dense :
  forall n T eri dmj vj dmk vk (fvk : kernel) p q,
    unfold_safe n -> s4_symmetric n T -> stored_s4 n T eri ->
    (q <= p)%nat -> (p < n)%nat ->
    fst (CVHFnrs4_incore_drv eri dmj vj dmk vk n CVHFnrs4_kl_s2ij fvk) (p * n + q)%nat
    = dense_vj n T dmj p q.
Proof.
  intros n T eri dmj vj dmk vk fvk p q Hn Hsym Hst Hq Hp.
  rewrite nrs4_drv_vj; [|assumption|exact acc_nrs4_kl_s2ij|apply cell_lt; lia].
  rewrite <- fJ_sum by lia. rewrite sum_fold4.
  apply tsum_ext. intros i j Hj Hi.
  rewrite (nrs4_kl_s2ij_cell n T dmj _ i j p q zeros Hsym Hj Hi Hq Hp
             (stored_s4_block n T eri i j Hst Hj Hi)).
  unfold zeros. ring.
Qed.

Lemma nrs4_vj_kl_s2ij_is_dense_witness :
  fst (CVHFnrs4_incore_drv (pack_s4 3 ex_T4) ex_dm zeros ex_dm zeros 3
         CVHFnrs4_kl_s2ij CVHFnrs4_jk_s1il) (2 * 3 + 1)%nat
  = dense_vj 3 ex_T4 ex_dm 2 1.
Proof.
  apply (nrs4_vj_kl_s2ij_is_dense 3 ex_T4 (pack_s4 3 ex_T4)).
  - unfold unfold_safe. simpl. lia.
  - apply ex_T4_symmetric.
  - apply pack_s4_stored.
  - lia.
  - lia.
Defined.

(** X15: for a tensor with the 4-fold symmetry in the [s4] layout,
    [CVHFnrs4_incore_drv] with K-kernel [CVHFnrs4_jk_s1il] leaves
    [sum_{j,k} T[i,j,k,l]*dm[j,k]] in every cell [(i,l)] of [vk], for any
    [dm]. *)
Theorem nrs4_vk_jk_s1il_is_dense :
  forall n T eri dmj vj dmk vk (fvj : kernel) p q,
    unfold_safe n -> s4_symmetric n T -> stored_s4 n T eri ->
    (p < n)%nat -> (q < n)%nat ->
    snd (CVHFnrs4_incore_drv eri dmj vj dmk vk n fvj CVHFnrs4_jk_s1il) (p * n + q)%nat
    = dense_vk n T dmk p q.
Proof.
  intros n T eri dmj vj dmk vk fvj p q Hn Hsym Hst Hp Hq.
  rewrite nrs4_drv_vk; [|assumption|exact acc_nrs4_jk_s1il_o0|apply cell_lt; lia].
  rewrite <- fK_sum by lia. rewrite sum_fold4.
  apply tsum_ext. intros i j Hj Hi. unfold CVHFnrs4_jk_s1il.
  rewrite (nrs4_jk_s1il_cell n T dmk _ i j p q zeros Hsym Hj Hi Hp Hq
             (stored_s4_block n T eri i j Hst Hj Hi)).
  unfold zeros. ring.
Qed.

Lemma nrs4_vk_jk_s1il_is_dense_witness :
  snd (CVHFnrs4_incore_drv (pack_s4 3 ex_T4) ex_dm zeros ex_dm zeros 3
         CVHFnrs4_ij_s2kl CVHFnrs4_jk_s1il) (1 * 3 + 2)%nat
  = dense_vk 3 ex_T4 ex_dm 1 2.
Proof.
  apply (nrs4_vk_jk_s1il_is_dense 3 ex_T4 (pack_s4 3 ex_T4)).
  - unfold unfold_safe. simpl. lia.
  - apply ex_T4_symmetric.
  - apply pack_s4_stored.
  - lia.
  - lia.
Defined.

(** X16: for a tensor with the 4-fold symmetry in the [s4] layout,
    [CVHFnrs4_incore_drv] with K-kernel [CVHFnrs4_jk_s2il] leaves
    [sum_{j,k} T[i,j,k,l]*dm[j,k]] in every cell [(i,l)], [i >= l], of
    [vk], for any [dm]. *)
Theorem nrs4_vk_jk_s2il_lower_triangle :
  forall n T eri dmj vj dmk vk (fvj : kernel) p q,
    unfold_safe n -> s4_symmetric n T -> stored_s4 n T eri ->
    (q <= p)%nat -> (p < n)%nat ->
    snd (CVHFnrs4_incore_drv eri dmj vj dmk vk n fvj CVHFnrs4_jk_s2il) (p * n + q)%nat
    = dense_vk n T dmk p q.
Proof.
  intros n T eri dmj vj dmk vk fvj p q Hn Hsym Hst Hq Hp.
  rewrite nrs4_drv_vk; [|assumption|exact acc_nrs4_jk_s2il_o0|apply cell_lt; lia].
  rewrite <- fK_sum by lia. rewrite sum_fold4.
  apply tsum_ext. intros i j Hj Hi. unfold CVHFnrs4_jk_s2il.
  rewrite (nrs4_jk_s2il_cell n T dmk _ i j p q zeros Hsym Hj Hi Hq Hp
             (stored_s4_block n T eri i j Hst Hj Hi)).
  unfold zeros. ring.
Qed.

Lemma nrs4_vk_jk_s2il_lower_triangle_witness :
  snd (CVHFnrs4_incore_drv (pack_s4 3 ex_T4) ex_dm zeros ex_dm zeros 3
         CVHFnrs4_ij_s2kl CVHFnrs4_jk_s2il) (2 * 3 + 1)%nat
  = dense_vk 3 ex_T4 ex_dm 2 1.
Proof.
  apply (nrs4_vk_jk_s2il_lower_triangle 3 ex_T4 (pack_s4 3 ex_T4)).
  - unfold unfold_safe. simpl. lia.
  - apply ex_T4_symmetric.
  - apply pack_s4_stored.
  - lia.
  - lia.
Defined.

(** ** [CVHFnrs8_tridm_vj]: the J build from a folded density matrix *)

Lemma folded_dm_cell n dm tri_dm i j :
  folded_dm n dm tri_dm -> (j <= i)%nat -> (i < n)%nat ->
  tri_dm (tri i + j)%nat
  = if (j <? i)%nat then dm (i * n + j)%nat + dm (j * n + i)%nat else dm (i * n + j)%nat.
Proof.
  intros H Hj Hi. rewrite (H i j Hj Hi).
  destruct (Nat.ltb_spec j i); [reflexivity|].
  replace j with i by lia. reflexivity.
Qed.

Ltac tridm_term n T dm ic jc k l Hsym Heri Hfold :=
  let Hkl := fresh "Hkl" in
  assert (Hkl : (tri k + l <= tri ic + jc)%nat)
    by (first [lia | apply Nat.lt_le_incl, tri_pair_lt; lia]);
  rewrite ?(Heri k l) by lia;
  rewrite ?(folded_dm_cell n dm _ k l Hfold) by lia;
  rewrite ?(folded_dm_cell n dm _ ic jc Hfold) by lia;
  unfold sym4, sym2, fJ; ltb_known;
  cbn [blk fold_right fst snd addto];
  rewrite ?(delta_pair n) by lia;
  use_orbit (s8_orbit n T ic jc k l Hsym ltac:(lia) ltac:(lia) ltac:(lia) ltac:(lia));
  crunch_delta.

Lemma nrs8_tridm_vj_orbit n T dm tri_dm eri ic jc p q v :
  s8_symmetric n T -> folded_dm n dm tri_dm ->
  (jc <= ic)%nat -> (ic < n)%nat -> (q <= p)%nat -> (p < n)%nat ->
  (forall k l, (l <= k)%nat -> (tri k + l <= tri ic + jc)%nat ->
     eri (tri k + l)%nat = T ic jc k l) ->
  CVHFnrs8_tridm_vj eri tri_dm v n ic jc (p * n + q)%nat
  = v (p * n + q)%nat + orbit_sum (fJ n T dm p q) ic jc.
Proof.
  intros Hsym Hfold Hjc Hic Hq Hp Heri. unfold CVHFnrs8_tridm_vj. cbv zeta.
  change (ic * (ic + 1) / 2)%nat with (tri ic).
  by_delta
    ltac:(eapply hasd_seq; [eapply hasd_seq; [apply hasd_tri_full | apply hasd_row]
                           | apply hasd_upd])
    ltac:(idtac).
  unfold orbit_sum. f_equal; [f_equal|].
  - apply tsum_ext. intros k l Hl Hk.
    tridm_term n T dm ic jc k l Hsym Heri Hfold.
  - apply sum_n_ext. intros l Hl.
    tridm_term n T dm ic jc ic l Hsym Heri Hfold.
  - tridm_term n T dm ic jc ic jc Hsym Heri Hfold.
Qed.

Lemma fold_tril_folded n dm : folded_dm n dm (fold_tril n dm).
Proof.
  intros i j Hj Hi. unfold fold_tril. rewrite tri_dec_tri by assumption.
  reflexivity.
Qed.

(** X17: for an [s8]-symmetric tensor in the [s8] layout and [tri_dm] the
    density matrix [dm] folded onto its lower triangle,
    [CVHFnrs8_incore_drv] with J-kernel [CVHFnrs8_tridm_vj] leaves
    [sum_{k,l} T[i,j,k,l]*dm[k,l]] in every cell [(i,j)], [i >= j], of
    [vj]; [dm] need not be symmetric. *)
Theorem nrs8_tridm_vj_is_dense :
  forall n T eri dm tri_dm vj dmk vk (fvk : kernel) p q,
    unfold_safe n -> s8_symmetric n T -> stored_s8 n T eri ->
    folded_dm n dm tri_dm -> (q <= p)%nat -> (p < n)%nat ->
    fst (CVHFnrs8_incore_drv eri tri_dm vj dmk vk n CVHFnrs8_tridm_vj fvk) (p * n + q)%nat
    = dense_vj n T dm p q.
Proof.
  intros n T eri dm tri_dm vj dmk vk fvk p q Hn Hsym Hst Hfold Hq Hp.
  rewrite nrs8_drv_vj; [|assumption|exact acc_nrs8_tridm_vj|apply cell_lt; lia].
  rewrite <- fJ_sum by lia. rewrite sum_orbits.
  apply tsum_ext. intros i j Hj Hi.
  rewrite (nrs8_tridm_vj_orbit n T dm tri_dm _ i j p q zeros Hsym Hfold Hj Hi Hq Hp
             (stored_s8_block n T eri i j Hst Hj Hi)).
  unfold zeros. ring.
Qed.

Lemma nrs8_tridm_vj_is_dense_witness :
  fst (CVHFnrs8_incore_drv (pack_s8 ex_T) (fold_tril 3 ex_dm) zeros ex_dm zeros 3
         CVHFnrs8_tridm_vj CVHFnrs8_jk_s1il) (2 * 3 + 1)%nat
  = dense_vj 3 ex_T ex_dm 2 1.
Proof.
  apply (nrs8_tridm_vj_is_dense 3 ex_T (pack_s8 ex_T) ex_dm (fold_tril 3 ex_dm)).
  - unfold unfold_safe. simpl. lia.
  - apply ex_T_symmetric.
  - apply pack_s8_stored.
  - apply fold_tril_folded.
  - lia.
  - lia.
Defined.


(** ** Cells the kernels never write *)

Lemma adds_keeps l v a :
  (forall x, In x l -> fst x <> a) -> adds l v a = v a.
Proof.
  intros H. rewrite adds_blk.
  assert (E : blk l a = 0).
  { induction l as [|x l IH]; [reflexivity|].
    cbn [blk fold_right]. fold (blk l a). rewrite IH.
    - unfold delta. destruct (Nat.eqb_spec a (fst x)) as [E|_]; [|ring].
      exfalso. apply (H x); [left; reflexivity | congruence].
    - intros y Hy. apply H. right. assumption. }
  rewrite E. ring.
Qed.

Lemma keeps_upd (P : nat -> Prop) f :
  (forall c x, In x (f c) -> ~ P (fst x)) -> keeps P (upd f).
Proof.
  intros H s a Ha. unfold upd. cbn [snd]. apply adds_keeps.
  intros x Hx E. apply (H (fst s) x Hx). rewrite E. assumption.
Qed.

Lemma keeps_inc P m : keeps P (inc m).
Proof. intros s a _. reflexivity. Qed.

Lemma keeps_setc P m : keeps P (setc m).
Proof. intros s a _. reflexivity. Qed.

Lemma keeps_seq P F G : keeps P F -> keeps P G -> keeps P (F ;; G).
Proof. intros HF HG s a Ha. unfold seqc. rewrite HG, HF by assumption. reflexivity. Qed.

Lemma keeps_for P lo hi body :
  (forall k, (lo <= k < hi)%nat -> keeps P (body k)) -> keeps P (for_ lo hi body).
Proof.
  intros H s a Ha. unfold for_.
  assert (G : forall len lo', (lo <= lo')%nat -> (lo' + len <= Nat.max lo hi)%nat ->
            forall s, snd (fold_left (fun s k => body k s) (seq lo' len) s) a = snd s a).
  { induction len as [|len IH]; intros lo' H1 H2 s'; [reflexivity|].
    cbn [seq fold_left]. rewrite IH by lia. apply H; [lia|assumption]. }
  apply G; lia.
Qed.

Lemma keeps_for_by P body hi :
  (forall k, (k < hi)%nat -> keeps P (body k)) ->
  forall fuel step k s a, P a ->
    snd (snd (for_by fuel step hi k body s)) a = snd s a.
Proof.
  intros H. induction fuel as [|fuel IH]; intros step k s a Ha; [reflexivity|].
  cbn [for_by]. destruct (Nat.ltb_spec k hi); [|reflexivity].
  rewrite IH by assumption. apply H; assumption.
Qed.

Lemma keeps_run P F v a : keeps P F -> P a -> run F v a = v a.
Proof. intros H Ha. unfold run. rewrite H by assumption. reflexivity. Qed.

Lemma cell_inj n p q r s :
  (q < n)%nat -> (s < n)%nat -> (p * n + q = r * n + s)%nat -> p = r /\ q = s.
Proof.
  intros Hq Hs E.
  assert (Hpr : p = r).
  { destruct (Nat.lt_trichotomy p r) as [H|[H|H]]; [exfalso|assumption|exfalso].
    - pose proof (Nat.mul_le_mono_r (S p) r n H). lia.
    - pose proof (Nat.mul_le_mono_r (S r) p n H). lia. }
  subst r. split; [reflexivity|lia].
Qed.

(** A written offset lies inside the matrix. *)
Ltac inside_matrix :=
  first [ lia | apply cell_lt; lia | nia ].

(** A written offset [r*n+s] with [s <= r] is no cell above the diagonal. *)
Ltac below_diagonal :=
  let p := fresh "p" in let q := fresh "q" in
  let Hpq := fresh "Hpq" in let Hqn := fresh "Hqn" in let E := fresh "E" in
  intros (p & q & Hpq & Hqn & E);
  apply cell_inj in E; [lia | lia | lia].

Ltac prove_keeps solve_cell :=
  repeat lazymatch goal with
    | |- keeps _ (seqc _ _) => apply keeps_seq
    | |- keeps _ (inc _) => apply keeps_inc
    | |- keeps _ (setc _) => apply keeps_setc
    | |- keeps _ (for_ _ _ _) => apply keeps_for; intros ? ?; cbv beta
    | |- keeps _ (upd _) =>
        let c := fresh "c" in let x := fresh "x" in let Hx := fresh "Hx" in
        apply keeps_upd; intros c x Hx; cbn [In] in Hx;
        repeat (destruct Hx as [Hx|Hx]; [subst x; cbn [fst addto]; solve_cell|]);
        destruct Hx
    end.

Ltac kernel_keeps P solve_cell :=
  repeat match goal with
    | |- context [(?x <? ?y)%nat] => destruct (Nat.ltb_spec x y); cbv iota
    | |- context [(?x <=? ?y)%nat] => destruct (Nat.leb_spec x y); cbv iota
    | |- context [(?x =? ?y)%nat] => destruct (Nat.eqb_spec x y); cbv iota
    end;
  cbv zeta;
  first [ reflexivity
        | apply (keeps_run P); [prove_keeps solve_cell | assumption] ].

Lemma nrs8_jk_s2il_inside eri dm v n ic jc a :
  (ic < n)%nat -> (jc < n)%nat -> (n * n <= a)%nat ->
  CVHFnrs8_jk_s2il_o0 eri dm v n ic jc a = v a.
Proof.
  intros Hic Hjc Ha. unfold CVHFnrs8_jk_s2il_o0.
  destruct (Nat.ltb_spec jc ic) as [Hlt|Hge].
  - apply (keeps_run (fun a => (n * n <= a)%nat)); [|assumption].
    prove_keeps ltac:(inside_matrix).
  - destruct (Nat.eqb_spec ic jc) as [E|_]; [|reflexivity]. subst jc.
    rewrite for_by_half. cbv iota zeta beta.
    pose proof (half_bounds ic) as [Hh1 Hh2].
    rewrite (Nat.max_r _ _ Hh1).
    match goal with |- snd (?G (?F2 (?F1 (0%nat, v)))) _ = _ =>
      change (run (seqc (seqc F1 F2) G) v a = v a)
    end.
    apply (keeps_run (fun a => (n * n <= a)%nat)); [|assumption].
    prove_keeps ltac:(inside_matrix).
Qed.

Ltac unfold_kernels :=
  cbv beta delta
    [CVHFnrs8_ij_s2kl_o0 nrs8_ij_s2kl_loops CVHFnrs4_ij_s2kl_o0
     CVHFnrs2kl_kl_s1ij_o0 CVHFnrs8_jk_s1il_o0 CVHFnrs4_jk_s1il_o0
     CVHFnrs4_il_s1jk_o0 CVHFnrs4_jk_s2il_o0 CVHFnrs4_il_s2jk_o0
     CVHFnrs8_ij_s2kl CVHFnrs8_tridm_vj CVHFnrs8_jk_s1il
     CVHFnrs4_jk_s1il CVHFnrs4_il_s1jk CVHFnrs4_jk_s2il CVHFnrs4_il_s2jk
     CVHFnrs4_ij_s2kl CVHFnrs4_kl_s2ij
     CVHFnrs1_ij_s1kl CVHFnrs1_kl_s1ij CVHFnrs1_jk_s1il CVHFnrs1_il_s1jk
     CVHFnrs2ij_ij_s1kl CVHFnrs2ij_kl_s2ij CVHFnrs2ij_jk_s1il CVHFnrs2ij_il_s1jk
     CVHFnrs2kl_ij_s2kl CVHFnrs2kl_kl_s1ij CVHFnrs2kl_jk_s1il CVHFnrs2kl_il_s1jk].

(** X18: called with [ic < nao] and [jc < nao], every kernel of the file
    leaves its output as it found it at and beyond offset [nao*nao]: what
    it adds stays inside the [nao*nao] doubles the drivers allocate for
    it. *)
Theorem kernels_write_inside_matrix :
  forall k eri dm v n ic jc a,
    (ic < n)%nat -> (jc < n)%nat -> (n * n <= a)%nat ->
    kernel_fn k eri dm v n ic jc a = v a.
Proof.
  intros k eri dm v n ic jc a Hic Hjc Ha.
  destruct k; cbn [kernel_fn];
    lazymatch goal with
    | |- CVHFnrs8_jk_s2il_o0 _ _ _ _ _ _ _ = _ =>
        apply nrs8_jk_s2il_inside; assumption
    | |- CVHFnrs8_jk_s2il _ _ _ _ _ _ _ = _ =>
        apply nrs8_jk_s2il_inside; assumption
    | |- _ => unfold_kernels;
              kernel_keeps (fun a => (n * n <= a)%nat) ltac:(inside_matrix)
    end.
Qed.

Lemma kernels_write_inside_matrix_witness :
  kernel_fn nrs8_jk_s1il (pack_s8 ex_T) ex_dm zeros 3%nat 2%nat 1%nat 9%nat
  = zeros 9%nat.
Proof. apply kernels_write_inside_matrix; lia. Defined.

Lemma lower_kernel_keeps_upper k eri dm v n ic jc a :
  lower_kernel k = true -> (jc <= ic)%nat -> (ic < n)%nat -> upper_cell n a ->
  kernel_fn k eri dm v n ic jc a = v a.
Proof.
  intros Hk Hjc Hic Ha.
  destruct k; try discriminate Hk; cbn [kernel_fn];
    unfold_kernels; kernel_keeps (upper_cell n) ltac:(below_diagonal).
Qed.

(** X19: called with [jc <= ic < nao], each of the kernels whose output
    is meant for the lower triangle ([CVHFnrs8_ij_s2kl],
    [CVHFnrs8_tridm_vj], [CVHFnrs4_ij_s2kl], [CVHFnrs4_kl_s2ij],
    [CVHFnrs4_jk_s2il], [CVHFnrs4_il_s2jk], [CVHFnrs2ij_kl_s2ij],
    [CVHFnrs2kl_ij_s2kl] and their [_o0] bodies) leaves every cell [(p,q)],
    [p < q], above the diagonal as it found it. *)
Theorem lower_kernels_keep_upper_cells :
  forall k eri dm v n ic jc p q,
    lower_kernel k = true -> (jc <= ic)%nat -> (ic < n)%nat ->
    (p < q)%nat -> (q < n)%nat ->
    kernel_fn k eri dm v n ic jc (p * n + q)%nat = v (p * n + q)%nat.
Proof.
  intros k eri dm v n ic jc p q Hk Hjc Hic Hp Hq.
  apply lower_kernel_keeps_upper; try assumption.
  exists p, q. repeat split; assumption.
Qed.

Lemma lower_kernels_keep_upper_cells_witness :
  kernel_fn nrs4_jk_s2il (pack_s4 3 ex_T4) ex_dm zeros 3%nat 2%nat 1%nat (0 * 3 + 2)%nat
  = zeros (0 * 3 + 2)%nat.
Proof.
  apply (lower_kernels_keep_upper_cells nrs4_jk_s2il _ _ _ 3%nat 2%nat 1%nat 0%nat 2%nat).
  - reflexivity.
  - lia.
  - lia.
  - lia.
  - lia.
Defined.

Lemma tsum_zero n g :
  (forall i j, (j <= i)%nat -> (i < n)%nat -> g i j = 0) -> tsum n g = 0.
Proof.
  intros H. unfold tsum. apply sum_n_zero. intros i Hi.
  apply sum_n_zero. intros j Hj. apply H; lia.
Qed.

Lemma upper_cell_lt n a : upper_cell n a -> (a < n * n)%nat.
Proof. intros (p & q & H1 & H2 & ->). apply cell_lt; lia. Qed.

(** X20: run as J- or K-kernel by [CVHFnrs8_incore_drv],
    [CVHFnrs4_incore_drv] or [CVHFnrs2ij_incore_drv], each of the kernels
    of [lower_kernel] leaves zero in every cell [(p,q)], [p < q], above the
    diagonal of its output, whatever [eri] and the density matrices
    hold. *)
Theorem lower_kernels_leave_upper_zero :
  forall k (f : kernel) eri dmj vj dmk vk n p q,
    lower_kernel k = true -> unfold_safe n -> (p < q)%nat -> (q < n)%nat ->
    let a := (p * n + q)%nat in
    (fst (CVHFnrs8_incore_drv eri dmj vj dmk vk n (kernel_fn k) f) a = 0
     /\ snd (CVHFnrs8_incore_drv eri dmj vj dmk vk n f (kernel_fn k)) a = 0)
    /\ (fst (CVHFnrs4_incore_drv eri dmj vj dmk vk n (kernel_fn k) f) a = 0
     /\ snd (CVHFnrs4_incore_drv eri dmj vj dmk vk n f (kernel_fn k)) a = 0)
    /\ (fst (CVHFnrs2ij_incore_drv eri dmj vj dmk vk n (kernel_fn k) f) a = 0
     /\ snd (CVHFnrs2ij_incore_drv eri dmj vj dmk vk n f (kernel_fn k)) a = 0).
Proof.
  intros k f eri dmj vj dmk vk n p q Hk Hn Hp Hq a.
  assert (Hu : upper_cell n a) by (exists p, q; repeat split; assumption).
  pose proof (upper_cell_lt n a Hu) as Ha.
  pose proof (kernel_fn_accumulating k) as Hacc.
  assert (Hz : forall e d i j, (j <= i)%nat -> (i < n)%nat ->
             kernel_fn k e d zeros n i j a = 0).
  { intros e d i j Hj Hi.
    rewrite (lower_kernel_keeps_upper k e d zeros n i j a Hk Hj Hi Hu).
    reflexivity. }
  repeat split.
  - rewrite nrs8_drv_vj by assumption. apply tsum_zero. intros; apply Hz; assumption.
  - rewrite nrs8_drv_vk by assumption. apply tsum_zero. intros; apply Hz; assumption.
  - rewrite nrs4_drv_vj by assumption. apply tsum_zero. intros; apply Hz; assumption.
  - rewrite nrs4_drv_vk by assumption. apply tsum_zero. intros; apply Hz; assumption.
  - rewrite nrs2ij_drv_vj by assumption. apply tsum_zero. intros; apply Hz; assumption.
  - rewrite nrs2ij_drv_vk by assumption. apply tsum_zero. intros; apply Hz; assumption.
Qed.

Lemma lower_kernels_leave_upper_zero_witness :
  (fst (CVHFnrs8_incore_drv (pack_s8 ex_T) ex_dm zeros ex_dm zeros 3
          (kernel_fn nrs4_jk_s2il) CVHFnrs8_jk_s1il) (0 * 3 + 2)%nat = 0
   /\ snd (CVHFnrs8_incore_drv (pack_s8 ex_T) ex_dm zeros ex_dm zeros 3
             CVHFnrs8_jk_s1il (kernel_fn nrs4_jk_s2il)) (0 * 3 + 2)%nat = 0)
  /\ (fst (CVHFnrs4_incore_drv (pack_s8 ex_T) ex_dm zeros ex_dm zeros 3
             (kernel_fn nrs4_jk_s2il) CVHFnrs8_jk_s1il) (0 * 3 + 2)%nat = 0
   /\ snd (CVHFnrs4_incore_drv (pack_s8 ex_T) ex_dm zeros ex_dm zeros 3
             CVHFnrs8_jk_s1il (kernel_fn nrs4_jk_s2il)) (0 * 3 + 2)%nat = 0)
  /\ (fst (CVHFnrs2ij_incore_drv (pack_s8 ex_T) ex_dm zeros ex_dm zeros 3
             (kernel_fn nrs4_jk_s2il) CVHFnrs8_jk_s1il) (0 * 3 + 2)%nat = 0
   /\ snd (CVHFnrs2ij_incore_drv (pack_s8 ex_T) ex_dm zeros ex_dm zeros 3
             CVHFnrs8_jk_s1il (kernel_fn nrs4_jk_s2il)) (0 * 3 + 2)%nat = 0).
Proof.
  apply (lower_kernels_leave_upper_zero nrs4_jk_s2il CVHFnrs8_jk_s1il
           (pack_s8 ex_T) ex_dm zeros ex_dm zeros 3 0 2).
  - reflexivity.
  - unfold unfold_safe. simpl. lia.
  - lia.
  - lia.
Defined.

(** ** What the drivers leave alone *)

Lemma omp_parallel_tail n iter sched vj vk a :
  (n * n <= a)%nat ->
  fst (omp_parallel n iter sched vj vk) a = vj a
  /\ snd (omp_parallel n iter sched vj vk) a = vk a.
Proof.
  intros Ha. unfold omp_parallel.
  assert (G : forall sh : accs,
    fst (fold_left (fun shared chunk => merge n shared (worker iter chunk)) sched sh) a
      = fst sh a
    /\ snd (fold_left (fun shared chunk => merge n shared (worker iter chunk)) sched sh) a
      = snd sh a).
  { induction sched as [|chunk sched IH]; intros sh; cbn [fold_left].
    - split; reflexivity.
    - destruct (IH (merge n sh (worker iter chunk))) as [E1 E2].
      destruct (merge_spec n sh (worker iter chunk) a) as [M1 M2].
      destruct (Nat.ltb_spec a (n * n)); [lia|].
      rewrite E1, E2, M1, M2. split; ring. }
  destruct (G (memset0 vj (n * n), memset0 vk (n * n))) as [E1 E2].
  rewrite E1, E2. unfold memset0. cbn [fst snd].
  destruct (Nat.ltb_spec a (n * n)); [lia|]. split; reflexivity.
Qed.

(** X21: whatever the kernels and however the iterations are distributed
    over the workers, each of the five drivers leaves the caller's [vj]
    and [vk] as they were at and beyond offset [n*n]. *)
Theorem drivers_leave_tail_untouched :
  forall (fvj fvk : kernel) sched eri dmj vj dmk vk n a,
    (n * n <= a)%nat ->
    (fst (CVHFnrs8_incore_drv_omp sched eri dmj vj dmk vk n fvj fvk) a = vj a
     /\ snd (CVHFnrs8_incore_drv_omp sched eri dmj vj dmk vk n fvj fvk) a = vk a)
    /\ (fst (CVHFnrs4_incore_drv_omp sched eri dmj vj dmk vk n fvj fvk) a = vj a
     /\ snd (CVHFnrs4_incore_drv_omp sched eri dmj vj dmk vk n fvj fvk) a = vk a)
    /\ (fst (CVHFnrs2ij_incore_drv_omp sched eri dmj vj dmk vk n fvj fvk) a = vj a
     /\ snd (CVHFnrs2ij_incore_drv_omp sched eri dmj vj dmk vk n fvj fvk) a = vk a)
    /\ (fst (CVHFnrs2kl_incore_drv_omp sched eri dmj vj dmk vk n fvj fvk) a = vj a
     /\ snd (CVHFnrs2kl_incore_drv_omp sched eri dmj vj dmk vk n fvj fvk) a = vk a)
    /\ (fst (CVHFnrs1_incore_drv_omp sched eri dmj vj dmk vk n fvj fvk) a = vj a
     /\ snd (CVHFnrs1_incore_drv_omp sched eri dmj vj dmk vk n fvj fvk) a = vk a).
Proof.
  intros fvj fvk sched eri dmj vj dmk vk n a Ha.
  repeat split; apply omp_parallel_tail; assumption.
Qed.

Lemma drivers_leave_tail_untouched_witness :
  (fst (CVHFnrs8_incore_drv_omp [[2; 0]; [1]]%nat (pack_s8 ex_T) ex_dm ex_dm ex_dm zeros 2
          CVHFnrs8_ij_s2kl CVHFnrs8_jk_s1il) 4%nat = ex_dm 4%nat
   /\ snd (CVHFnrs8_incore_drv_omp [[2; 0]; [1]]%nat (pack_s8 ex_T) ex_dm ex_dm ex_dm zeros 2
          CVHFnrs8_ij_s2kl CVHFnrs8_jk_s1il) 4%nat = zeros 4%nat)
  /\ (fst (CVHFnrs4_incore_drv_omp [[2; 0]; [1]]%nat (pack_s8 ex_T) ex_dm ex_dm ex_dm zeros 2
          CVHFnrs8_ij_s2kl CVHFnrs8_jk_s1il) 4%nat = ex_dm 4%nat
   /\ snd (CVHFnrs4_incore_drv_omp [[2; 0]; [1]]%nat (pack_s8 ex_T) ex_dm ex_dm ex_dm zeros 2
          CVHFnrs8_ij_s2kl CVHFnrs8_jk_s1il) 4%nat = zeros 4%nat)
  /\ (fst (CVHFnrs2ij_incore_drv_omp [[2; 0]; [1]]%nat (pack_s8 ex_T) ex_dm ex_dm ex_dm zeros 2
          CVHFnrs8_ij_s2kl CVHFnrs8_jk_s1il) 4%nat = ex_dm 4%nat
   /\ snd (CVHFnrs2ij_incore_drv_omp [[2; 0]; [1]]%nat (pack_s8 ex_T) ex_dm ex_dm ex_dm zeros 2
          CVHFnrs8_ij_s2kl CVHFnrs8_jk_s1il) 4%nat = zeros 4%nat)
  /\ (fst (CVHFnrs2kl_incore_drv_omp [[2; 0]; [1]]%nat (pack_s8 ex_T) ex_dm ex_dm ex_dm zeros 2
          CVHFnrs8_ij_s2kl CVHFnrs8_jk_s1il) 4%nat = ex_dm 4%nat
   /\ snd (CVHFnrs2kl_incore_drv_omp [[2; 0]; [1]]%nat (pack_s8 ex_T) ex_dm ex_dm ex_dm zeros 2
          CVHFnrs8_ij_s2kl CVHFnrs8_jk_s1il) 4%nat = zeros 4%nat)
  /\ (fst (CVHFnrs1_incore_drv_omp [[2; 0]; [1]]%nat (pack_s8 ex_T) ex_dm ex_dm ex_dm zeros 2
          CVHFnrs8_ij_s2kl CVHFnrs8_jk_s1il) 4%nat = ex_dm 4%nat
   /\ snd (CVHFnrs1_incore_drv_omp [[2; 0]; [1]]%nat (pack_s8 ex_T) ex_dm ex_dm ex_dm zeros 2
          CVHFnrs8_ij_s2kl CVHFnrs8_jk_s1il) 4%nat = zeros 4%nat).
Proof.
  apply (drivers_leave_tail_untouched CVHFnrs8_ij_s2kl CVHFnrs8_jk_s1il
           [[2; 0]; [1]]%nat (pack_s8 ex_T) ex_dm ex_dm ex_dm zeros 2%nat 4%nat).
  simpl. lia.
Defined.

(** ** The exchange matrix of a symmetric density matrix *)

Lemma nrs8_jk_s1il_dense n T eri dmj vj dmk vk (fvj : kernel) p q :
  unfold_safe n -> s8_symmetric n T -> stored_s8 n T eri ->
  (p < n)%nat -> (q < n)%nat ->
  snd (CVHFnrs8_incore_drv eri dmj vj dmk vk n fvj CVHFnrs8_jk_s1il) (p * n + q)%nat
  = dense_vk n T dmk p q.
Proof.
  intros Hn Hsym Hst Hp Hq.
  rewrite nrs8_drv_vk; [|assumption|exact acc_nrs8_jk_s1il_o0|apply cell_lt; assumption].
  rewrite <- fK_sum by assumption. rewrite sum_orbits.
  apply tsum_ext. intros i j Hj Hi. unfold CVHFnrs8_jk_s1il.
  rewrite (nrs8_jk_s1il_orbit n T dmk _ i j p q zeros Hsym Hj Hi Hp Hq
             (stored_s8_block n T eri i j Hst Hj Hi)).
  unfold zeros. ring.
Qed.

Lemma identity_hermitian n : hermitian n (identity n).
Proof.
  intros i j Hi Hj. unfold identity.
  replace ((i * n + j) / n)%nat with i
    by (rewrite Nat.div_add_l by lia; rewrite (Nat.div_small j n) by lia; lia).
  replace ((i * n + j) mod n)%nat with j
    by (rewrite Nat.add_comm, Nat.Div0.mod_add; symmetry; apply Nat.mod_small; lia).
  replace ((j * n + i) / n)%nat with j
    by (rewrite Nat.div_add_l by lia; rewrite (Nat.div_small i n) by lia; lia).
  replace ((j * n + i) mod n)%nat with i
    by (rewrite Nat.add_comm, Nat.Div0.mod_add; symmetry; apply Nat.mod_small; lia).
  rewrite (Nat.eqb_sym i j). reflexivity.
Qed.

(** X22: for an [s8]-symmetric tensor in the [s8] layout and a symmetric
    density matrix, the [vk] that [CVHFnrs8_incore_drv] builds with
    K-kernel [CVHFnrs8_jk_s1il] is a symmetric matrix. *)
Theorem nrs8_vk_s1il_symmetric :
  forall n T eri dmj vj dmk vk (fvj : kernel) i l,
    unfold_safe n -> s8_symmetric n T -> stored_s8 n T eri -> hermitian n dmk ->
    (i < n)%nat -> (l < n)%nat ->
    snd (CVHFnrs8_incore_drv eri dmj vj dmk vk n fvj CVHFnrs8_jk_s1il) (i * n + l)%nat
    = snd (CVHFnrs8_incore_drv eri dmj vj dmk vk n fvj CVHFnrs8_jk_s1il) (l * n + i)%nat.
Proof.
  intros n T eri dmj vj dmk vk fvj i l Hn Hsym Hst Hdm Hi Hl.
  rewrite !(nrs8_jk_s1il_dense n T) by assumption.
  apply dense_vk_sym; assumption.
Qed.

Lemma nrs8_vk_s1il_symmetric_witness :
  snd (CVHFnrs8_incore_drv (pack_s8 ex_T) ex_dm zeros (identity 3) zeros 3
         CVHFnrs8_ij_s2kl CVHFnrs8_jk_s1il) (2 * 3 + 1)%nat
  = snd (CVHFnrs8_incore_drv (pack_s8 ex_T) ex_dm zeros (identity 3) zeros 3
         CVHFnrs8_ij_s2kl CVHFnrs8_jk_s1il) (1 * 3 + 2)%nat.
Proof.
  apply (nrs8_vk_s1il_symmetric 3 ex_T (pack_s8 ex_T)).
  - unfold unfold_safe. simpl. lia.
  - apply ex_T_symmetric.
  - apply pack_s8_stored.
  - apply identity_hermitian.
  - lia.
  - lia.
Defined.

(** ** The unfolding in binary64 *)

(** X23: for every size [n <= 512] and every compound index
    [idx < n*(n+1)/2], the drivers' unfolding evaluated in binary64
    arithmetic, [ic = (int)(sqrt(2*idx + .25) - .5 + 1e-7)] and
    [jc = idx - ic*(ic+1)/2], gives the triangular pair of [idx]:
    [ic*(ic+1)/2 + jc = idx] with [jc <= ic < n]. *)
Theorem tril_unfolding_f64_recovers_pair :
  forall n idx,
    (n <= 512)%nat -> (idx < n * (n + 1) / 2)%nat ->
    let ic := Z.to_nat (tril_row_f64 (Z.of_nat idx)) in
    let jc := (idx - ic * (ic + 1) / 2)%nat in
    (ic * (ic + 1) / 2 + jc = idx)%nat /\ (jc <= ic)%nat /\ (ic < n)%nat.
Proof.
  intros n idx Hn Hidx. cbv zeta.
  rewrite (tril_row_f64_agrees n idx Hn Hidx), Nat2Z.id.
  change (idx < tri n)%nat in Hidx.
  destruct (tri_decompose n idx Hidx) as (i & j & Hj & Hi & ->).
  rewrite tril_row_tri by lia.
  fold (tri i). lia.
Qed.

Lemma tril_unfolding_f64_recovers_pair_witness :
  let ic := Z.to_nat (tril_row_f64 (Z.of_nat 7)) in
  let jc := (7 - ic * (ic + 1) / 2)%nat in
  (ic * (ic + 1) / 2 + jc = 7)%nat /\ (jc <= ic)%nat /\ (ic < 4)%nat.
Proof.
  apply (tril_unfolding_f64_recovers_pair 4 7).
  - lia.
  - simpl. lia.
Defined.

(** * The ket half-transformation *)

Lemma set_at_same v a x : set_at v a x a = x.
Proof. unfold set_at. rewrite Nat.eqb_refl. reflexivity. Qed.

Lemma set_at_other v a x b : b <> a -> set_at v a x b = v b.
Proof. intros H. unfold set_at. destruct (Nat.eqb_spec b a); [contradiction|reflexivity]. Qed.

(** One row of the copy loop, entered with [vout] advanced by [off]:
    the cells [off .. off+m-1] receive [g 0 .. g (m-1)], the others are
    kept. *)
Lemma copy_row m (g : nat -> Z) off v :
  let s := for_ 0 m (fun i => store (fun off => ((off + i)%nat, g i))) (off, v) in
  fst s = off
  /\ forall a, snd s a = if ((off <=? a) && (a <? off + m))%nat then g (a - off)%nat else v a.
Proof.
  cbv zeta. unfold for_. rewrite Nat.sub_0_r.
  induction m as [|m IH].
  - split; [reflexivity|]. intros a. cbn [seq fold_left snd].
    destruct (Nat.leb_spec off a); destruct (Nat.ltb_spec a (off + 0)); try reflexivity; lia.
  - rewrite seq_S, fold_left_app. cbn [fold_left Nat.add].
    destruct IH as [Hc Hv]. split.
    + unfold store at 1. cbn [fst]. exact Hc.
    + intros a. unfold store at 1. cbn [fst snd]. rewrite Hc.
      destruct (Nat.eq_dec a (off + m)) as [->|Hne].
      * rewrite set_at_same.
        destruct (Nat.leb_spec off (off + m)); [|lia].
        destruct (Nat.ltb_spec (off + m) (off + S m)); [|lia].
        cbn [andb]. f_equal. lia.
      * rewrite set_at_other by assumption. rewrite Hv.
        destruct (Nat.leb_spec off a); destruct (Nat.ltb_spec a (off + m));
          destruct (Nat.ltb_spec a (off + S m)); cbn [andb]; try reflexivity; lia.
Qed.

(** The whole copy loop: the cell [j*m + i] receives [B (i*n + j)]. *)
Lemma copy_transposed n m (B : buf) v :
  let s := for_ 0 n (fun j =>
             for_ 0 m (fun i => store (fun off => ((off + i)%nat, B (i * n + j)%nat))) ;;
             inc m) (0%nat, v) in
  fst s = (n * m)%nat
  /\ forall a, snd s a
       = if (a <? n * m)%nat then B ((a mod m) * n + a / m)%nat else v a.
Proof.
  cbv zeta.
  set (body := fun (s : st) (j : nat) =>
    (for_ 0 m (fun i => store (fun off => ((off + i)%nat, B (i * n + j)%nat))) ;;
     inc m) s).
  change (for_ 0 n _ (0%nat, v)) with (fold_left body (seq 0 (n - 0)) (0%nat, v)).
  rewrite Nat.sub_0_r.
  assert (G : forall r,
    fst (fold_left body (seq 0 r) (0%nat, v)) = (r * m)%nat
    /\ forall a, snd (fold_left body (seq 0 r) (0%nat, v)) a
         = if (a <? r * m)%nat then B ((a mod m) * n + a / m)%nat else v a).
  { induction r as [|r IH].
    - split; [reflexivity|]. intros a. reflexivity.
    - rewrite seq_S, fold_left_app. cbn [fold_left Nat.add].
      destruct IH as [Hc Hv].
      destruct (fold_left body (seq 0 r) (0%nat, v)) as [c w]. cbn [fst snd] in Hc, Hv.
      subst c. unfold body, seqc, inc.
      destruct (copy_row m (fun i => B (i * n + r)%nat) (r * m) w) as [Rc Rv].
      cbv zeta in Rc, Rv. cbn [fst snd]. rewrite Rc. split; [lia|].
      intros a. rewrite Rv, Hv.
      destruct (Nat.leb_spec (r * m) a); destruct (Nat.ltb_spec a (r * m + m));
        destruct (Nat.ltb_spec a (S r * m)); destruct (Nat.ltb_spec a (r * m));
        cbn [andb]; try reflexivity; try lia.
      assert (Hm : (0 < m)%nat) by lia.
      replace a with ((a - r * m) + r * m)%nat at 2 3 by lia.
      rewrite Nat.Div0.mod_add, Nat.div_add by lia.
      rewrite (Nat.mod_small (a - r * m) m), (Nat.div_small (a - r * m) m) by lia.
      reflexivity. }
  apply G.
Qed.

Lemma int_wrap_fits z : 0 <= z <= 2147483647 -> int_wrap z = z.
Proof. intros H. apply int_wrap_small. lia. Qed.

(** The size query is an [int] product: it wraps where the product does
    not fit. *)
Lemma halfmmm_size_query_wraps dsymm_ malloc_buf vout vin envs :
  nao envs = Z.to_nat 65536 -> ket_count envs = Z.to_nat 32768 ->
  fst (MCSCFhalfmmm_nr_s2_ket dsymm_ malloc_buf vout vin envs 1) = -2147483648.
Proof.
  intros Hn Hk. unfold MCSCFhalfmmm_nr_s2_ket. rewrite Z.eqb_refl. cbn [fst].
  rewrite Hn, Hk, !Z2Nat.id by lia. reflexivity.
Qed.

(** X24: whatever [dsymm_] computes, when [(ket_start + ket_count) * nao]
    fits an [int], so that none of the [int] products of the function
    wraps, a call of [MCSCFhalfmmm_nr_s2_ket] with [seekdim] other than 1
    and 2 returns 0, leaves in [vout[j*ket_count + i]] the entry
    [i*nao + j] of the matrix [dsymm_] left in the scratch block, for
    every [j < nao] and [i < ket_count], and leaves [vout] as it was from
    the offset on that the call with [seekdim = 1] returns, which is
    [nao * ket_count]. *)
Theorem halfmmm_fills_the_queried_size :
  forall dsymm_ malloc_buf vout vin envs seekdim,
    seekdim <> 1 -> seekdim <> 2 ->
    (Z.of_nat (ket_start envs) + Z.of_nat (ket_count envs)) * Z.of_nat (nao envs)
      <= 2147483647 ->
    let B := dsymm_ char_L char_U (nao envs) (ket_count envs)
               1 vin (nao envs)
               (shift (mo_coeff envs) (ket_start envs * nao envs)) (nao envs)
               0 malloc_buf (nao envs) in
    let r := MCSCFhalfmmm_nr_s2_ket dsymm_ malloc_buf vout vin envs seekdim in
    let size := fst (MCSCFhalfmmm_nr_s2_ket dsymm_ malloc_buf vout vin envs 1) in
    fst r = 0
    /\ (forall j i, (j < nao envs)%nat -> (i < ket_count envs)%nat ->
          snd r (j * ket_count envs + i)%nat = B (i * nao envs + j)%nat)
    /\ size = Z.of_nat (nao envs) * Z.of_nat (ket_count envs)
    /\ (forall a, size <= Z.of_nat a -> snd r a = vout a).
Proof.
  intros dsymm_ malloc_buf vout vin envs seekdim H1 H2 Hfit B r size.
  assert (Hsize : size = Z.of_nat (nao envs) * Z.of_nat (ket_count envs)).
  { subst size. unfold MCSCFhalfmmm_nr_s2_ket. rewrite Z.eqb_refl. cbn [fst].
    apply int_wrap_fits. nia. }
  subst r. unfold MCSCFhalfmmm_nr_s2_ket.
  destruct (Z.eqb_spec seekdim 1) as [E|_]; [contradiction|].
  destruct (Z.eqb_spec seekdim 2) as [E|_]; [contradiction|].
  cbv zeta. fold B. cbn [fst snd]. unfold run.
  destruct (copy_transposed (nao envs) (ket_count envs) B vout) as [_ Hv].
  cbv zeta in Hv.
  split; [reflexivity|split; [|split; [exact Hsize|]]].
  - intros j i Hj Hi. rewrite Hv.
    assert (Hlt : (j * ket_count envs + i < nao envs * ket_count envs)%nat) by nia.
    destruct (Nat.ltb_spec (j * ket_count envs + i) (nao envs * ket_count envs)); [|lia].
    rewrite (Nat.add_comm (j * ket_count envs) i).
    rewrite Nat.Div0.mod_add, Nat.div_add by lia.
    rewrite (Nat.mod_small i), (Nat.div_small i) by lia. reflexivity.
  - intros a Ha. rewrite Hv. rewrite Hsize in Ha.
    destruct (Nat.ltb_spec a (nao envs * ket_count envs)); [nia|reflexivity].
Qed.

Lemma halfmmm_fills_the_queried_size_witness :
  let dsymm_ := fun (_ _ : Ascii.ascii) (_ _ : nat) (_ : Z) (a : buf) (_ : nat) (b : buf)
                    (_ : nat) (_ : Z) (_ : buf) (_ : nat) => (fun t => a t * b t) in
  let envs := {| natm := 0; nbas := 0; atm := fun _ => 0; bas := fun _ => 0;
                 env := zeros; nao := 3; klsh_start := 0; klsh_count := 0;
                 bra_start := 0; bra_count := 0; ket_start := 1; ket_count := 2;
                 ncomp := 1; ao_loc := fun _ => 0; mo_coeff := ex_dm;
                 cintopt := tt; vhfopt := tt |} in
  let B := dsymm_ char_L char_U (nao envs) (ket_count envs)
             1 ex_dm (nao envs)
             (shift (mo_coeff envs) (ket_start envs * nao envs)) (nao envs)
             0 zeros (nao envs) in
  let r := MCSCFhalfmmm_nr_s2_ket dsymm_ zeros ex_dm ex_dm envs 0 in
  let size := fst (MCSCFhalfmmm_nr_s2_ket dsymm_ zeros ex_dm ex_dm envs 1) in
  fst r = 0
  /\ (forall j i, (j < nao envs)%nat -> (i < ket_count envs)%nat ->
        snd r (j * ket_count envs + i)%nat = B (i * nao envs + j)%nat)
  /\ size = Z.of_nat (nao envs) * Z.of_nat (ket_count envs)
  /\ (forall a, size <= Z.of_nat a -> snd r a = ex_dm a).
Proof.
  intros dsymm_ envs.
  apply (halfmmm_fills_the_queried_size dsymm_ zeros ex_dm ex_dm envs 0).
  - lia.
  - lia.
  - simpl. lia.
Defined.
